(** * The analytic differentiator of OpenMDAO (openmdao.lib.differentiators.analytic)

    A shallow embedding of the class [Analytic]: the gradient accessors,
    [setup] with the recursive edge counter, the recursive assembler of the
    direct problem, the linear solve and [calc_gradient], followed by the
    properties of the design document that were checked against them.

    Conventions of the embedding.
    - Python floats are idealised as rationals ([Q]): the program only stores,
      negates, multiplies and adds them, and never branches on one.  Where
      the rounding of the machine decides a property, the module [Binary64]
      redoes the computation with binary64 floats.
    - A raised exception is a value [Raise e]; statements are sequenced in the
      error monad [result].
    - The instance attributes live in the record [Analytic]; a method takes the
      instance and returns the updated one.
    - A dictionary that is only looked up by key is a [gmap]; a dictionary that
      is iterated is an association list in iteration order.
    - What the class calls but does not define (the parent class [ChainRule],
      numpy's solver, the unit conversion) is a field of the class
      [Framework]; the statements hold for every instance of it. *)

From Stdlib Require Import Ascii String QArith Lqa Lia.
From Stdlib Require PrimFloat.
From stdpp Require Import base option list gmap strings.

Local Open Scope string_scope.

(** ** Exceptions and the error monad *)

Inductive exn : Type :=
  | NotImplementedError (msg : string)
  | ValueError
  | IndexError
  | KeyError
  | UnboundLocalError
  | AttributeError
  | LinAlgError
  | RuntimeError.

Inductive result (A : Type) : Type :=
  | Ok (a : A)
  | Raise (e : exn).
Arguments Ok {A} a.
Arguments Raise {A} e.

#[global] Instance result_ret : MRet result := λ A a, Ok a.
#[global] Instance result_bind : MBind result := λ A B f m,
  match m with
  | Ok a => f a
  | Raise e => Raise e
  end.
#[global] Instance result_fmap : FMap result := λ A B f m,
  match m with
  | Ok a => Ok (f a)
  | Raise e => Raise e
  end.

(** [o or_raise e]: the value of a lookup, or the exception the failed lookup
    raises. *)
Definition or_raise {A} (o : option A) (e : exn) : result A :=
  match o with
  | Some a => Ok a
  | None => Raise e
  end.

(** ** Python's string and list primitives *)

(** ["%s.%s" % (a, b)] *)
Definition dotted (a b : string) : string := a +:+ "." +:+ b.

(** [if head: head = '%s.' % head] *)
Definition head_prefix (head : string) : string :=
  if decide (head = "") then "" else head +:+ ".".

(** [pat in s] for strings *)
Fixpoint str_contains (pat s : string) : bool :=
  String.prefix pat s ||
  match s with
  | EmptyString => false
  | String _ s' => str_contains pat s'
  end.

(** [s.count(c)] for a one-character [c] *)
Fixpoint str_count (c : Ascii.ascii) (s : string) : nat :=
  match s with
  | EmptyString => 0
  | String a s' => (if decide (a = c) then 1 else 0) + str_count c s'
  end.

(** [s.replace(old, '')] for a non-empty [old]: every occurrence, scanning
    from the left, is dropped.  [skip] counts the characters of the occurrence
    being dropped that are still ahead. *)
Fixpoint str_remove_from (skip : nat) (old s : string) : string :=
  match s with
  | EmptyString => EmptyString
  | String a s' =>
      match skip with
      | S k => str_remove_from k old s'
      | O =>
          if String.prefix old s
          then str_remove_from (String.length old - 1) old s'
          else String a (str_remove_from 0 old s')
      end
  end.
Definition str_remove (old s : string) : string := str_remove_from 0 old s.

(** [l.index(x)]: the first position of [x], [ValueError] when absent *)
Definition index (l : list string) (x : string) : result nat :=
  or_raise (fst <$> list_find (λ y, y = x) l) ValueError.

(** [x in l] *)
Definition member (x : string) (l : list string) : bool := bool_decide (x ∈ l).

(** ** Dense matrices (numpy's two-dimensional arrays of doubles) *)

Abbreviation matrix := (list (list Q)).

(** [zeros((n, m), 'd')] *)
Definition zeros (n m : nat) : matrix := replicate n (replicate m 0%Q).

(** [M[i][j]], [IndexError] out of range *)
Definition getitem2 (M : matrix) (i j : nat) : result Q :=
  row ← or_raise (M !! i) IndexError;
  or_raise (row !! j) IndexError.

(** [M[i][j] = v], [IndexError] out of range *)
Definition setitem2 (M : matrix) (i j : nat) (v : Q) : result matrix :=
  row ← or_raise (M !! i) IndexError;
  if decide (j < length row)
  then Ok (<[i := <[j := v]> row]> M)
  else Raise IndexError.

(** [M[i][j] += v] *)
Definition additem2 (M : matrix) (i j : nat) (v : Q) : result matrix :=
  old ← getitem2 M i j;
  setitem2 M i j (old + v)%Q.

(** [M[i][:]] *)
Definition getrow (M : matrix) (i : nat) : result (list Q) :=
  or_raise (M !! i) IndexError.

Definition ncols (M : matrix) : nat :=
  match M with
  | [] => 0
  | row :: _ => length row
  end.

Definition column (M : matrix) (j : nat) : list Q :=
  omap (λ row : list Q, row !! j) M.

Definition vdot (u v : list Q) : Q :=
  foldr Qplus 0%Q (zip_with Qmult u v).

Definition same_shape (A B : matrix) : Prop :=
  Forall2 (λ r r' : list Q, length r = length r') A B.

#[global] Instance same_shape_dec A B : Decision (same_shape A B).
Proof. unfold same_shape. apply _. Defined.

(** A two-dimensional array is its list of rows together with its number
    of columns, [shape[1]], which the rows cannot tell when there are none:
    the operations on whole arrays take the number of columns of each
    operand beside its rows. *)

(** [dot(A, B)] for [A] of [wA] columns and [B] of [wB] columns: numpy
    refuses operands whose inner dimensions differ, and the product has the
    rows of [A] and the columns of [B], also when [B] has no row. *)
Definition dot (A : matrix) (wA : nat) (B : matrix) (wB : nat) : result matrix :=
  if decide (wA = length B)
  then Ok ((λ r, (λ j, vdot r (column B j)) <$> seq 0 wB) <$> A)
  else Raise ValueError.

(** numpy's broadcasting of one dimension of two operands: the lengths are
    equal, or one of them is 1 and is stretched to the other. *)
Definition broadcast (a b : nat) : result nat :=
  if decide (a = b) then Ok a
  else if decide (a = 1) then Ok b
  else if decide (b = 1) then Ok a
  else Raise ValueError.

(** The cell [i, j] of an operand stretched along its dimensions of length 1. *)
Definition stretched (A : matrix) (wA : nat) (i j : nat) : Q :=
  default 0%Q
    (A !! (if decide (length A = 1) then 0 else i)
       ≫= (λ row : list Q, row !! (if decide (wA = 1) then 0 else j))).

(** [A + B] with numpy's broadcasting: the sum and its number of columns. *)
Definition madd (A : matrix) (wA : nat) (B : matrix) (wB : nat)
    : result (matrix * nat) :=
  rows ← broadcast (length A) (length B);
  cols ← broadcast wA wB;
  Ok ((λ i, (λ j, (stretched A wA i j + stretched B wB i j)%Q) <$> seq 0 cols)
        <$> seq 0 rows,
      cols).

(** Entrywise equality of rational matrices up to [Qeq]. *)
Definition mat_equiv (A B : matrix) : Prop :=
  Forall2 (Forall2 Qeq) A B.

(** ** The model hierarchy

    What the differentiator reads from the framework objects it walks. *)

(** An expression of a scope's expression mapper. *)
Record expr_data : Type := {
  (** [expr.refs()], listed in the order [pop()] takes them *)
  e_refs : list string;
  (** the partial derivatives [expr.evaluate_gradient] reports *)
  e_partials : gmap string Q;
  (** [expr.get_metadata('units')]: pairs of a name and its unit or [None] *)
  e_units : list (string * option string)
}.

(** [expr.evaluate_gradient(scope=..., wrt=source)[source]] *)
Definition evaluate_gradient (e : expr_data) (source : string) : Q :=
  default 0%Q (e_partials e !! source).

(** An assembly seen as a scope: its dependency graph and expression mapper.
    A text the mapper does not know yields no expression, and the method
    called on it fails. *)
Record assembly_data : Type := {
  a_pathname : string;
  (** [_depgraph.connections_to(name)]: pairs (expression text, target) *)
  a_connections : gmap string (list (string * string));
  (** [_exprmapper.get_expr(text)] *)
  a_exprs : gmap string expr_data
}.

Definition connections_to (a : assembly_data) (name : string) : list (string * string) :=
  default [] (a_connections a !! name).

Definition get_expr (a : assembly_data) (txt : string) : result expr_data :=
  or_raise (a_exprs a !! txt) AttributeError.

Record component_data : Type := {
  (** [hasattr(node, 'calculate_first_derivatives')] *)
  has_derivatives : bool;
  (** [node.derivatives.first_derivatives] as [calc_derivatives(first=True)]
      leaves it: [output -> input -> value] *)
  first_derivatives : gmap string (gmap string Q)
}.

Inductive driver_class : Type := Run_Once | Solver | OtherDriver.

Record driver_data : Type := {
  d_pathname : string;
  d_class : driver_class;
  (** [get_parameters().keys()] *)
  d_parameters : list string;
  (** per equality constraint, [list(lhs.get_referenced_varpaths().union(rhs...))] *)
  d_eq_constraints : list (list string)
}.

(** [has_interface(node, ISolver)] *)
Definition is_solver (d : driver_data) : bool :=
  match d_class d with Solver => true | _ => false end.

(** [isinstance(node.driver, Run_Once)] *)
Definition is_run_once (d : driver_data) : bool :=
  match d_class d with Run_Once => true | _ => false end.

(** A node of a workflow.  An assembly carries its own driver and that
    driver's workflow. *)
#[local] Unset Elimination Schemes.
Inductive node : Type :=
  | Component (name : string) (c : component_data)
  | Driver (name : string) (d : driver_data) (workflow : list node)
  | Assembly (name : string) (a : assembly_data) (d : driver_data) (workflow : list node).
#[local] Set Elimination Schemes.

Definition node_name (n : node) : string :=
  match n with
  | Component name _ | Driver name _ _ | Assembly name _ _ _ => name
  end.

(** The nodes an assembly owns: those of its driver's workflow and of the
    workflows of the drivers nested in it (a sub-assembly owns its own). *)
Fixpoint owned_under (n : node) : list node :=
  n :: match n with
       | Driver _ _ wf => flat_map owned_under wf
       | _ => []
       end.
Definition owned (wf : list node) : list node := flat_map owned_under wf.

(** [scope.parent.get(name)] for a driver [d] with workflow [wf] at the top of
    its assembly: the assembly's own driver is its attribute [driver]. *)
Definition get (d : driver_data) (wf : list node) (name : string) : result node :=
  if decide (name = "driver") then Ok (Driver "driver" d wf)
  else or_raise (snd <$> list_find (λ n, node_name n = name) (owned wf)) AttributeError.

(** The edge dictionary of one scope: per node name the pair
    (input names, output names), in the order [iteritems()] yields. *)
Abbreviation edge_dict := (list (string * (list string * list string))).

(** [d[key]] for a dictionary kept as an association list *)
Definition dict_get {V} (d : list (string * V)) (key : string) : result V :=
  or_raise ((λ ikv, ikv.2.2) <$> list_find (λ kv : string * V, kv.1 = key) d) KeyError.

(** [edges[i]] *)
Definition edges_at (edges : list string * list string) (i : nat) : result (list string) :=
  match i with
  | 0 => Ok edges.1
  | 1 => Ok edges.2
  | _ => Raise IndexError
  end.

Inductive mode_t : Type := direct | adjoint.

(** The driver that owns the differentiator ([self._parent]) inside its
    assembly ([self._parent.parent]). *)
Record model : Type := {
  parent_scope : assembly_data;
  parent : driver_data;
  workflow : list node;
  (** [get_objectives()]: name and, for a [wrt] list, the items of
      [expr.evaluate_gradient(scope, wrt)] *)
  get_objectives : list (string * (list string → list (string * Q)));
  (** [get_constraints()]: name and, for a [wrt] list, the left and right
      gradients and the comparator *)
  get_constraints :
    list (string * (list string → list (string * Q) * list (string * Q) * string))
}.

(** ** The differentiator instance *)

Record Analytic : Type := {
  mode : mode_t;
  (** inherited from [ChainRule] *)
  param_names : list string;
  function_names : list string;
  edge_dicts : gmap string edge_dict;
  (** own attributes *)
  LHS : matrix;
  RHS : matrix;
  EQS : matrix;
  EQS_zero : matrix;
  n_var : nat;
  gradient : matrix;
  var_list : list string;
  (** the number of columns, [shape[1]], of each of the five arrays *)
  LHS_cols : nat;
  RHS_cols : nat;
  EQS_cols : nat;
  EQS_zero_cols : nat;
  gradient_cols : nat
}.

(** [Analytic.__init__] for a given mode *)
Definition init (m : mode_t) : Analytic :=
  {| mode := m; param_names := []; function_names := []; edge_dicts := ∅;
     LHS := zeros 0 0; RHS := zeros 0 0; EQS := zeros 0 0; EQS_zero := zeros 0 0;
     n_var := 0; gradient := zeros 0 0; var_list := [];
     LHS_cols := 0; RHS_cols := 0; EQS_cols := 0; EQS_zero_cols := 0;
     gradient_cols := 0 |}.

Definition with_edge_dicts (v : gmap string edge_dict) (s : Analytic) : Analytic :=
  {| mode := mode s; param_names := param_names s; function_names := function_names s;
     edge_dicts := v; LHS := LHS s; RHS := RHS s; EQS := EQS s;
     EQS_zero := EQS_zero s; n_var := n_var s; gradient := gradient s;
     var_list := var_list s;
     LHS_cols := LHS_cols s; RHS_cols := RHS_cols s; EQS_cols := EQS_cols s;
     EQS_zero_cols := EQS_zero_cols s; gradient_cols := gradient_cols s |}.
Definition with_LHS (v : matrix) (s : Analytic) : Analytic :=
  {| mode := mode s; param_names := param_names s; function_names := function_names s;
     edge_dicts := edge_dicts s; LHS := v; RHS := RHS s; EQS := EQS s;
     EQS_zero := EQS_zero s; n_var := n_var s; gradient := gradient s;
     var_list := var_list s;
     LHS_cols := LHS_cols s; RHS_cols := RHS_cols s; EQS_cols := EQS_cols s;
     EQS_zero_cols := EQS_zero_cols s; gradient_cols := gradient_cols s |}.
Definition with_RHS (v : matrix) (s : Analytic) : Analytic :=
  {| mode := mode s; param_names := param_names s; function_names := function_names s;
     edge_dicts := edge_dicts s; LHS := LHS s; RHS := v; EQS := EQS s;
     EQS_zero := EQS_zero s; n_var := n_var s; gradient := gradient s;
     var_list := var_list s;
     LHS_cols := LHS_cols s; RHS_cols := RHS_cols s; EQS_cols := EQS_cols s;
     EQS_zero_cols := EQS_zero_cols s; gradient_cols := gradient_cols s |}.
Definition with_EQS (v : matrix) (s : Analytic) : Analytic :=
  {| mode := mode s; param_names := param_names s; function_names := function_names s;
     edge_dicts := edge_dicts s; LHS := LHS s; RHS := RHS s; EQS := v;
     EQS_zero := EQS_zero s; n_var := n_var s; gradient := gradient s;
     var_list := var_list s;
     LHS_cols := LHS_cols s; RHS_cols := RHS_cols s; EQS_cols := EQS_cols s;
     EQS_zero_cols := EQS_zero_cols s; gradient_cols := gradient_cols s |}.
Definition with_EQS_zero (v : matrix) (s : Analytic) : Analytic :=
  {| mode := mode s; param_names := param_names s; function_names := function_names s;
     edge_dicts := edge_dicts s; LHS := LHS s; RHS := RHS s; EQS := EQS s;
     EQS_zero := v; n_var := n_var s; gradient := gradient s;
     var_list := var_list s;
     LHS_cols := LHS_cols s; RHS_cols := RHS_cols s; EQS_cols := EQS_cols s;
     EQS_zero_cols := EQS_zero_cols s; gradient_cols := gradient_cols s |}.
Definition with_gradient (v : matrix) (s : Analytic) : Analytic :=
  {| mode := mode s; param_names := param_names s; function_names := function_names s;
     edge_dicts := edge_dicts s; LHS := LHS s; RHS := RHS s; EQS := EQS s;
     EQS_zero := EQS_zero s; n_var := n_var s; gradient := v;
     var_list := var_list s;
     LHS_cols := LHS_cols s; RHS_cols := RHS_cols s; EQS_cols := EQS_cols s;
     EQS_zero_cols := EQS_zero_cols s; gradient_cols := gradient_cols s |}.
Definition with_var_list (v : list string) (s : Analytic) : Analytic :=
  {| mode := mode s; param_names := param_names s; function_names := function_names s;
     edge_dicts := edge_dicts s; LHS := LHS s; RHS := RHS s; EQS := EQS s;
     EQS_zero := EQS_zero s; n_var := n_var s; gradient := gradient s;
     var_list := v;
     LHS_cols := LHS_cols s; RHS_cols := RHS_cols s; EQS_cols := EQS_cols s;
     EQS_zero_cols := EQS_zero_cols s; gradient_cols := gradient_cols s |}.

(** The numbers of columns of arrays that are assigned anew. *)
Definition with_cols (l r e z g : nat) (s : Analytic) : Analytic :=
  {| mode := mode s; param_names := param_names s; function_names := function_names s;
     edge_dicts := edge_dicts s; LHS := LHS s; RHS := RHS s; EQS := EQS s;
     EQS_zero := EQS_zero s; n_var := n_var s; gradient := gradient s;
     var_list := var_list s;
     LHS_cols := l; RHS_cols := r; EQS_cols := e; EQS_zero_cols := z;
     gradient_cols := g |}.
Definition with_gradient_cols (g : nat) (s : Analytic) : Analytic :=
  with_cols (LHS_cols s) (RHS_cols s) (EQS_cols s) (EQS_zero_cols s) g s.

(** [for x in l: body], threading the state and stopping at the first
    exception. *)
Definition for_each {A S : Type} (body : A → S → result S) : list A → S → result S :=
  fix go (l : list A) (s : S) : result S :=
    match l with
    | [] => Ok s
    | x :: l' => s' ← body x s; go l' s'
    end.

(** ** What the differentiator calls but does not define *)

Class Framework : Type := {
  (** [openmdao.units.convert_units(value, from, to)] *)
  convert_units : Q → option string → option string → result Q;
  (** [numpy.linalg.solve(a, b)] *)
  linalg_solve : matrix → matrix → result matrix;
  (** [ChainRule.setup] *)
  ChainRule_setup : Analytic → result Analytic;
  (** the dictionary [ChainRule._find_edges(scope, dscope)] files under the
      path name of [dscope]; the arguments are the path names of both *)
  _find_edges : string → string → edge_dict;
  (** [self._parent in self.edge_dicts] *)
  parent_cached : Analytic → bool;
  (** how many nested calls of [_edge_counter] the interpreter still allows *)
  recursion_limit : nat
}.

(** ** The gradient accessors *)

(** [Analytic.get_derivative] *)
Definition get_derivative (self : Analytic) (output_name wrt : string) : result Q :=
  i_param ← index (param_names self) wrt;
  i_func ← index (function_names self) output_name;
  getitem2 (gradient self) i_func i_param.

(** [Analytic.get_gradient] *)
Definition get_gradient (self : Analytic) (output_name : string) : result (list Q) :=
  i_func ← index (function_names self) output_name;
  getrow (gradient self) i_func.

(** ** [setup]: the edge counter and the rows of the functions *)

(** [self.var_list.append("%s%s.%s" % (head, name, x))] for each [x] *)
Definition append_names (head name : string) (names : list string)
    (self : Analytic) : Analytic :=
  with_var_list (var_list self ++ ((λ x, head +:+ dotted name x) <$> names))%list self.

(** One statement of the shape
    [if name in param_names: EQS_zero[i_eq][i_param] (op) val
     elif name in var_list: EQS[i_eq][i_var] (op) val],
    where [store] is the assignment [=] or the accumulation [+=]. *)
Definition route (store : matrix → nat → nat → Q → result matrix) (i_eq : nat)
    (item : string * Q) (self : Analytic) : result Analytic :=
  if member item.1 (param_names self) then
    i_param ← index (param_names self) item.1;
    M ← store (EQS_zero self) i_eq i_param item.2;
    Ok (with_EQS_zero M self)
  else if member item.1 (var_list self) then
    i_var ← index (var_list self) item.1;
    M ← store (EQS self) i_eq i_var item.2;
    Ok (with_EQS M self)
  else Ok self.

(** [sign = -1.0 if '>' in comparator else 1.0] *)
Definition sign_of (comparator : string) : Q :=
  if str_contains ">" comparator then (-1)%Q else 1%Q.

(** The body of the loop over the objectives. *)
Definition setup_objective (wrt : list string)
    (obj : string * (list string → list (string * Q)))
    (st : nat * Analytic) : result (nat * Analytic) :=
  self ← for_each (route setitem2 st.1) (obj.2 wrt) st.2;
  Ok (S st.1, self).

(** The body of the loop over the constraints. *)
Definition setup_constraint (wrt : list string)
    (con : string * (list string → list (string * Q) * list (string * Q) * string))
    (st : nat * Analytic) : result (nat * Analytic) :=
  let '(lhs, rhs, comparator) := con.2 wrt in
  let sign := sign_of comparator in
  self ← for_each (λ item, route additem2 st.1 (item.1, sign * item.2)%Q) lhs st.2;
  self ← for_each (λ item, route additem2 st.1 (item.1, (- sign) * item.2)%Q) rhs self;
  Ok (S st.1, self).

(** The allocation of the matrices once the unknowns are counted. *)
Definition setup_allocate (self : Analytic) : Analytic :=
  let n_var := length (var_list self) in
  let n_param := length (param_names self) in
  let n_eq := length (function_names self) in
  with_cols n_var n_param n_var n_param n_param
    (with_gradient (zeros n_eq n_param)
       (with_EQS_zero (zeros n_eq n_param)
          (with_EQS (zeros n_eq n_var)
             (with_RHS (zeros n_var n_param)
                (with_LHS (zeros n_var n_var) self))))).

(** The rows of [EQS] and [EQS_zero]: objectives first, constraints next. *)
Definition setup_functions (m : model) (self : Analytic) : result Analytic :=
  let wrt := (var_list self ++ param_names self)%list in
  st ← for_each (setup_objective wrt) (get_objectives m) (0, self);
  st ← for_each (setup_constraint wrt) (get_constraints m) st;
  Ok st.2.

(** ** The assembler of the direct problem *)

(** The local variables of one call of [_assemble_direct] that are read at
    places where no earlier statement of the same iteration binds them; [None]
    is an unbound name. *)
Record frame : Type := {
  local_derivs : option (gmap string (gmap string Q));
  output_name : option string;
  expr_txt : option string;
  target : option string
}.

Definition unbound : frame :=
  {| local_derivs := None; output_name := None; expr_txt := None; target := None |}.

Definition read_local {A} (o : option A) : result A := or_raise o UnboundLocalError.

Definition bind_local_derivs (v : gmap string (gmap string Q)) (fr : frame) : frame :=
  {| local_derivs := Some v; output_name := output_name fr;
     expr_txt := expr_txt fr; target := target fr |}.
Definition bind_output_name (v : string) (fr : frame) : frame :=
  {| local_derivs := local_derivs fr; output_name := Some v;
     expr_txt := expr_txt fr; target := target fr |}.
Definition bind_connection (txt tgt : string) (fr : frame) : frame :=
  {| local_derivs := local_derivs fr; output_name := output_name fr;
     expr_txt := Some txt; target := Some tgt |}.
Definition bind_target (tgt : string) (fr : frame) : frame :=
  {| local_derivs := local_derivs fr; output_name := output_name fr;
     expr_txt := expr_txt fr; target := Some tgt |}.

(** [[x[1] for x in expr.get_metadata('units') if x[0] == name]] *)
Definition units_of (e : expr_data) (name : string) : list (option string) :=
  (λ x, x.2) <$> filter (λ x : string * option string, x.1 = name) (e_units e).

(** The truth value of a unit: neither [None] nor the empty string. *)
Definition truthy (u : option string) : bool :=
  match u with
  | Some s => negb (bool_decide (s = ""))
  | None => false
  end.

(** [local_derivs[output_name][input_name]] *)
Definition local_deriv (derivs : gmap string (gmap string Q)) (out inp : string)
    : result Q :=
  of_out ← or_raise (derivs !! out) KeyError;
  or_raise (of_out !! inp) KeyError.

(** [expr.refs().pop()] *)
Definition pop_ref (e : expr_data) : result string :=
  or_raise (e_refs e !! 0) KeyError.

(** One equation of a nested solver:
    [if comps[0] in params: indep, dep = comps[0], comps[1]
     elif comps[1] in params: indep, dep = comps[1], comps[0]
     else: raise ...;  solver_dict[indep] = dep]. *)
Definition solver_equation (params : list string) (comps : list string)
    (solver_dict : gmap string string) : result (gmap string string) :=
  c0 ← or_raise (comps !! 0) IndexError;
  if member c0 params then
    c1 ← or_raise (comps !! 1) IndexError;
    Ok (<[c0 := c1]> solver_dict)
  else
    c1 ← or_raise (comps !! 1) IndexError;
    if member c1 params then Ok (<[c1 := c0]> solver_dict)
    else Raise (NotImplementedError "No independent in solver equation.").

Section Program.
Context `{FW : Framework}.

(** [Analytic._edge_counter(scope, dscope, index, head)].  [scope] is the
    driver at the top of the enclosing assembly, given with its workflow;
    [dscope] is given by its path name. *)
Fixpoint _edge_counter (depth : nat) (scope : driver_data) (scope_wf : list node)
    (dscope : string) (index : nat) (head : string) (self : Analytic)
    : result Analytic :=
  match depth with
  | 0 => Raise RuntimeError
  | S depth' =>
      let self :=
        with_edge_dicts
          (<[dscope := _find_edges (d_pathname scope) dscope]> (edge_dicts self))
          self in
      let scope_name := dscope in
      let head := head_prefix head in
      let index_bar := if decide (index = 1) then 0 else 1 in
      edges_of ← or_raise (edge_dicts self !! scope_name) KeyError;
      for_each
        (λ (entry : string * (list string * list string)) self,
           nd ← get scope scope_wf entry.1;
           self ←
             match nd with
             | Assembly _ a d wf =>
                 inputs ← edges_at entry.2 index_bar;
                 _edge_counter depth' d wf (d_pathname d) index (a_pathname a)
                   (append_names head entry.1 inputs self)
             | Driver _ d wf =>
                 if is_solver d
                 then _edge_counter depth' scope scope_wf (d_pathname d) index head self
                 else Raise (NotImplementedError "Only nested solvers are supported")
             | Component _ _ => Ok self
             end;
           outputs ← edges_at entry.2 index;
           Ok (append_names head entry.1 outputs self))
        edges_of self
  end.

(** The counting part of [setup]: the index, the reset of [var_list] and
    the recursive count. *)
Definition setup_enumerate (m : model) (self : Analytic) : result Analytic :=
  let index := match mode self with adjoint => 0 | direct => 1 end in
  _edge_counter recursion_limit (parent m) (workflow m) (d_pathname (parent m))
    index "" (with_var_list [] self).

(** [Analytic.setup] *)
Definition setup (m : model) (self : Analytic) : result Analytic :=
  self ← ChainRule_setup self;
  self ← setup_enumerate m self;
  setup_functions m (setup_allocate self).

(** The derivative of a connection's expression with respect to its
    source, times the unit conversion factor when the source has a unit. *)
Definition converted (scope : assembly_data) (e : expr_data)
    (source tgt : string) : result Q :=
  let d := evaluate_gradient e source in
  match units_of e source with
  | u :: _ =>
      if truthy u then
        dest_expr ← get_expr scope tgt;
        tu ← or_raise (units_of dest_expr tgt !! 0) IndexError;
        k ← convert_units 1%Q u tu;
        Ok (d * k)%Q
      else Ok d
  | [] => Ok d
  end.

End Program.

(** The rows of the system.  [store_term] is the statement
    [self.LHS[i_eq][i_var] = value] that files a chained term; the program
    files it with [setitem2].  It is a parameter so that the invariant of the
    diagonal can name the runs in which no chained term lands on the
    diagonal: they are the runs that also succeed with the store
    [guarded_store] defined with the notions of the statements. *)
Section Assembler.
Context `{FW : Framework}.
Variable store_term : matrix → nat → nat → Q → result matrix.

(** The equation of one boundary input of a sub-assembly. *)
Definition assembly_input_row (ascope : assembly_data) (head name : string)
    (input_name : string) (st : frame * nat * Analytic)
    : result (frame * nat * Analytic) :=
  let '(fr, i_eq, self) := st in
  L ← setitem2 (LHS self) i_eq i_eq 1%Q;
  let self := with_LHS L self in
  let input_full := dotted name input_name in
  if member input_full (param_names self) then
    i_param ← index (param_names self) input_full;
    derivs ← read_local (local_derivs fr);
    out ← read_local (output_name fr);
    v ← local_deriv derivs out input_name;
    R ← setitem2 (RHS self) i_eq i_param v;
    Ok (fr, S i_eq, with_RHS R self)
  else
    first ← or_raise (connections_to ascope input_full !! 0) IndexError;
    let fr := bind_connection first.1 first.2 fr in
    expr ← get_expr ascope first.1;
    source ← pop_ref expr;
    let source :=
      if bool_decide (String.substring 0 4 source = "@bin")
         && bool_decide (str_count "."%char source < 2)
      then str_remove "@bin." source else source in
    d ← converted ascope expr source first.2;
    i_var ← index (var_list self) (head +:+ source);
    L ← store_term (LHS self) i_eq i_var (- d)%Q;
    Ok (fr, S i_eq, with_LHS L self).

(** The equation of one boundary output of a sub-assembly. *)
Definition assembly_output_row (sub_scope : assembly_data) (head name : string)
    (out : string) (st : frame * nat * Analytic)
    : result (frame * nat * Analytic) :=
  let '(fr, i_eq, self) := st in
  let fr := bind_output_name out fr in
  L ← setitem2 (LHS self) i_eq i_eq 1%Q;
  let self := with_LHS L self in
  let fr :=
    match list_find (λ c : string * string, str_contains "@bout" c.2 = true)
            (connections_to sub_scope out) with
    | Some (_, c) => bind_connection c.1 c.2 fr
    | None => fr
    end in
  tgt ← read_local (target fr);
  let tgt :=
    if bool_decide (String.substring 0 5 tgt = "@bout")
    then str_remove "@bout." tgt else tgt in
  let fr := bind_target tgt fr in
  txt ← read_local (expr_txt fr);
  expr ← get_expr sub_scope txt;
  source ← pop_ref expr;
  d ← converted sub_scope expr source tgt;
  i_var ← index (var_list self) (head +:+ dotted name source);
  L ← store_term (LHS self) i_eq i_var (- d)%Q;
  Ok (fr, S i_eq, with_LHS L self).

(** The term one input of a component contributes to the equation [i_eq]
    of the output [out]. *)
Definition component_input (ascope : assembly_data) (head name : string)
    (solver_conns : option (gmap string string))
    (derivs : gmap string (gmap string Q)) (out : string) (i_eq : nat)
    (input_name : string) (st : frame * Analytic) : result (frame * Analytic) :=
  let '(fr, self) := st in
  let input_full := dotted name input_name in
  if member input_full (param_names self) then
    i_param ← index (param_names self) input_full;
    v ← local_deriv derivs out input_name;
    R ← setitem2 (RHS self) i_eq i_param v;
    Ok (fr, with_RHS R self)
  else
    match solver_conns ≫= (λ conns : gmap string string, conns !! input_full) with
    | Some source =>
        i_dep ← index (var_list self) source;
        v ← local_deriv derivs out input_name;
        L ← store_term (LHS self) i_eq i_dep (- v)%Q;
        Ok (fr, with_LHS L self)
    | None =>
        first ← or_raise (connections_to ascope input_full !! 0) IndexError;
        let txt :=
          if bool_decide (String.substring 0 4 first.1 = "@bin")
          then str_remove "@bin." first.1 else first.1 in
        let fr := bind_connection txt first.2 fr in
        expr ← get_expr ascope txt;
        source ← pop_ref expr;
        d ← converted ascope expr source first.2;
        i_var ← index (var_list self) (head +:+ source);
        v ← local_deriv derivs out input_name;
        L ← store_term (LHS self) i_eq i_var (- v * d)%Q;
        Ok (fr, with_LHS L self)
    end.

(** The equation of one output of a component. *)
Definition component_row (ascope : assembly_data) (head name : string)
    (solver_conns : option (gmap string string))
    (derivs : gmap string (gmap string Q)) (inputs : list string)
    (out : string) (st : frame * nat * Analytic)
    : result (frame * nat * Analytic) :=
  let '(fr, i_eq, self) := st in
  let fr := bind_output_name out fr in
  L ← setitem2 (LHS self) i_eq i_eq 1%Q;
  st' ← for_each (component_input ascope head name solver_conns derivs out i_eq)
         inputs (fr, with_LHS L self);
  Ok (st'.1, S i_eq, st'.2).

(** [self.edge_dicts[scope_name][node_name]] *)
Definition edges_of (self : Analytic) (scope_name name : string)
    : result (list string * list string) :=
  ed ← or_raise (edge_dicts self !! scope_name) KeyError;
  dict_get ed name.

(** One iteration of [for node in dscope.workflow] with [head] already
    prefixed.  The nested loops over a workflow are the recursive calls
    [_assemble_direct(ascope, node, i_eq, head, solver_dict)] and
    [_assemble_direct(node, node.driver, i_eq, assy_scope_name)]; each
    starts with a frame of its own. *)
Fixpoint assemble_node (ascope : assembly_data) (scope_name head : string)
    (solver_conns : option (gmap string string)) (nd : node)
    (st : frame * nat * Analytic) {struct nd} : result (frame * nat * Analytic) :=
  match nd with
  | Driver _ d wf =>
      if is_solver d then
        solver_dict ←
          for_each (solver_equation (d_parameters d)) (d_eq_constraints d) ∅;
        st' ← for_each
                (assemble_node ascope (d_pathname d) (head_prefix head)
                   (Some solver_dict))
                wf (unbound, st.1.2, st.2);
        Ok (st.1.1, st'.1.2, st'.2)
      else Raise (NotImplementedError "Only nested solvers are supported")
  | Assembly name a d wf =>
      if is_run_once d then
        edge_dict ← edges_of st.2 scope_name name;
        st ← for_each (assembly_input_row ascope head name) edge_dict.1 st;
        st' ← for_each
                (assemble_node a (d_pathname d) (head_prefix (a_pathname a)) None)
                wf (unbound, st.1.2, st.2);
        for_each (assembly_output_row a head name) edge_dict.2
          (st.1.1, st'.1.2, st'.2)
      else Raise (NotImplementedError "Nested drivers")
  | Component name c =>
      if has_derivatives c then
        edge_dict ← edges_of st.2 scope_name name;
        for_each
          (component_row ascope head name solver_conns (first_derivatives c)
             edge_dict.1)
          edge_dict.2
          (bind_local_derivs (first_derivatives c) st.1.1, st.1.2, st.2)
      else Ok st
  end.

(** The loop of one call over the workflow of [dscope], given by its path
    name and its nodes. *)
Definition assemble_workflow (ascope : assembly_data) (dscope : string)
    (wf : list node) (eq_num : nat) (head : string)
    (solver_conns : option (gmap string string)) (self : Analytic)
    : result (nat * Analytic) :=
  st ← for_each (assemble_node ascope dscope (head_prefix head) solver_conns)
         wf (unbound, eq_num, self);
  Ok (st.1.2, st.2).

End Assembler.

Section Run.
Context `{FW : Framework}.

(** [Analytic._assemble_direct(ascope, dscope, eq_num, head, solver_conns)];
    [dscope] is given by its path name and its workflow. *)
Definition _assemble_direct (ascope : assembly_data) (dscope : string)
    (wf : list node) (eq_num : nat) (head : string)
    (solver_conns : option (gmap string string)) (self : Analytic)
    : result (nat * Analytic) :=
  assemble_workflow setitem2 ascope dscope wf eq_num head solver_conns self.

(** ** The linear solve and [calc_gradient] *)

(** [Analytic._solve]; [linalg.solve] returns an array of the shape of its
    right-hand side. *)
Definition _solve (self : Analytic) : result Analytic :=
  total_derivs ← linalg_solve (LHS self) (RHS self);
  product ← dot (EQS self) (EQS_cols self) total_derivs (RHS_cols self);
  g ← madd (EQS_zero self) (EQS_zero_cols self) product (RHS_cols self);
  Ok (with_gradient g.1 (with_gradient_cols g.2 self)).

(** [Analytic.calc_gradient] *)
Definition calc_gradient (m : model) (self : Analytic) : result Analytic :=
  self ← (if parent_cached self then Ok self else setup m self);
  self ←
    match mode self with
    | direct =>
        r ← _assemble_direct (parent_scope m) (d_pathname (parent m))
              (workflow m) 0 "" None self;
        Ok r.2
    | adjoint => Ok self
    end;
  _solve self.

End Run.

(** ** A reference linear solver and concrete models

    [linalg.solve] is a parameter of the development.  The concrete runs
    below instantiate it with Gauss-Jordan elimination on the augmented
    matrix, which reports a singular matrix as numpy does. *)

Fixpoint gauss_jordan (n k : nat) (done todo : matrix) : result matrix :=
  match n with
  | 0 => Ok done
  | S n' =>
      match list_find (λ r : list Q, Qeq_bool (default 0%Q (r !! k)) 0 = false) todo with
      | None => Raise LinAlgError
      | Some (i, r) =>
          let pivot := default 0%Q (r !! k) in
          let r' := (λ x, Qred (x / pivot)) <$> r in
          let clear (row : list Q) :=
            zip_with (λ x y, Qred (x - default 0%Q (row !! k) * y)) row r' in
          gauss_jordan n' (S k) ((clear <$> done) ++ [r']) (clear <$> delete i todo)
      end
  end.

Definition gauss_solve (A B : matrix) : result matrix :=
  if decide (Forall (λ r : list Q, length r = length A) A ∧ length B = length A)
  then fmap (M := result) (fmap (M := list) (drop (length A)))
         (gauss_jordan (length A) 0 [] (zip_with app A B))
  else Raise LinAlgError.

(** A framework in which the parent's [setup] keeps the lists it is given,
    no unit is converted unless [factor] says so, and nothing is cached. *)
Definition framework (find_edges : string → string → edge_dict)
    (factor : option string → option string → Q) : Framework :=
  {| convert_units := λ v u u', Ok (v * factor u u')%Q;
     linalg_solve := gauss_solve;
     ChainRule_setup := Ok;
     _find_edges := find_edges;
     parent_cached := λ _, false;
     recursion_limit := 1000 |}.

Definition plain_expr (name : string) : expr_data :=
  {| e_refs := [name]; e_partials := {[ name := 1%Q ]}; e_units := [(name, None)] |}.

Definition top_driver (params : list string) : driver_data :=
  {| d_pathname := "driver"; d_class := OtherDriver; d_parameters := params;
     d_eq_constraints := [] |}.

Definition with_names (params functions : list string) (s : Analytic) : Analytic :=
  {| mode := mode s; param_names := params; function_names := functions;
     edge_dicts := edge_dicts s; LHS := LHS s; RHS := RHS s; EQS := EQS s;
     EQS_zero := EQS_zero s; n_var := n_var s; gradient := gradient s;
     var_list := var_list s;
     LHS_cols := LHS_cols s; RHS_cols := RHS_cols s; EQS_cols := EQS_cols s;
     EQS_zero_cols := EQS_zero_cols s; gradient_cols := gradient_cols s |}.

(** The chain [param -> a -> b]: component [compa] computes [a] from the
    parameter [compa.param], component [compb] computes [b] from its input
    [x], which is connected to [compa.a]; the objective named [b] is the
    output [compb.b]. *)
Module Chain.

Definition compa (da : Q) : node :=
  Component "compa"
    {| has_derivatives := true;
       first_derivatives := {[ "a" := {[ "param" := da ]} ]} |}.

(** The table [calc_derivatives] leaves in a component. *)
Definition first_derivatives_of (n : node) : gmap string (gmap string Q) :=
  match n with
  | Component _ c => first_derivatives c
  | _ => ∅
  end.

Definition compb (db : Q) : node :=
  Component "compb"
    {| has_derivatives := true;
       first_derivatives := {[ "b" := {[ "x" := db ]} ]} |}.

Definition scope : assembly_data :=
  {| a_pathname := "";
     a_connections := {[ "compb.x" := [("compa.a", "compb.x")] ]};
     a_exprs := {[ "compa.a" := plain_expr "compa.a" ]} |}.

Definition chain (da db : Q) : model :=
  {| parent_scope := scope;
     parent := top_driver ["compa.param"];
     workflow := [compa da; compb db];
     get_objectives := [("b", λ _, [("compb.b", 1%Q)])];
     get_constraints := [] |}.

Definition edges (scope_path dscope_path : string) : edge_dict :=
  [("compa", (["param"], ["a"])); ("compb", (["x"], ["b"]))].

Definition start (m : mode_t) : Analytic :=
  with_names ["compa.param"] ["b"] (init m).

(** The instance [setup] leaves in direct mode. *)
Definition after_setup : Analytic :=
  {| mode := direct; param_names := ["compa.param"]; function_names := ["b"];
     edge_dicts := {[ "driver" := edges "driver" "driver" ]};
     LHS := zeros 2 2; RHS := zeros 2 1; EQS := [[0; 1]]%Q; EQS_zero := [[0]]%Q;
     n_var := 0; gradient := zeros 1 1; var_list := ["compa.a"; "compb.b"];
     LHS_cols := 2; RHS_cols := 1; EQS_cols := 2; EQS_zero_cols := 1;
     gradient_cols := 1 |}.

(** The instance [setup] leaves in adjoint mode, where the inputs are counted. *)
Definition after_adjoint_setup : Analytic :=
  {| mode := adjoint; param_names := ["compa.param"]; function_names := ["b"];
     edge_dicts := {[ "driver" := edges "driver" "driver" ]};
     LHS := zeros 2 2; RHS := zeros 2 1; EQS := zeros 1 2; EQS_zero := zeros 1 1;
     n_var := 0; gradient := zeros 1 1; var_list := ["compa.param"; "compb.x"];
     LHS_cols := 2; RHS_cols := 1; EQS_cols := 2; EQS_zero_cols := 1;
     gradient_cols := 1 |}.

(** The instance the assembly pass leaves for [da = 2] and [db = 3]. *)
Definition assembled : Analytic :=
  with_RHS [[2]; [0]]%Q (with_LHS [[1; 0]; [-3; 1]]%Q after_setup).

End Chain.

(** The chain with a unit on both ends of the connection [compa.a ->
    compb.x]; [factor] is what [convert_units(1.0, 'ft', 'inch')] returns. *)
Module Units.

Definition source_expr : expr_data :=
  {| e_refs := ["compa.a"]; e_partials := {[ "compa.a" := 1%Q ]};
     e_units := [("compa.a", Some "ft")] |}.

Definition target_expr : expr_data :=
  {| e_refs := ["compb.x"]; e_partials := {[ "compb.x" := 1%Q ]};
     e_units := [("compb.x", Some "inch")] |}.

Definition scope : assembly_data :=
  {| a_pathname := "";
     a_connections := {[ "compb.x" := [("compa.a", "compb.x")] ]};
     a_exprs := {[ "compa.a" := source_expr; "compb.x" := target_expr ]} |}.

Definition chain (da db : Q) : model :=
  {| parent_scope := scope;
     parent := top_driver ["compa.param"];
     workflow := [Chain.compa da; Chain.compb db];
     get_objectives := [("b", λ _, [("compb.b", 1%Q)])];
     get_constraints := [] |}.

Definition factor (k : Q) (u u' : option string) : Q :=
  if decide (u = Some "ft" ∧ u' = Some "inch") then k else 1%Q.





End Units.

(** A sub-assembly [sub] whose boundary input [x] is the parameter [sub.x],
    alone in the workflow or after the component [compa]. *)
Module Boundary.

Definition sub : node :=
  Assembly "sub"
    {| a_pathname := "sub"; a_connections := ∅; a_exprs := ∅ |}
    {| d_pathname := "sub.driver"; d_class := Run_Once; d_parameters := [];
       d_eq_constraints := [] |}
    [].

Definition alone : model :=
  {| parent_scope := Chain.scope;
     parent := top_driver ["sub.x"];
     workflow := [sub];
     get_objectives := [];
     get_constraints := [] |}.

(** [compa] with a second input [x] of its own, which is not an edge. *)
Definition compa : node :=
  Component "compa"
    {| has_derivatives := true;
       first_derivatives := {[ "a" := {[ "param" := 2%Q; "x" := 7%Q ]} ]} |}.

Definition after_component : model :=
  {| parent_scope := Chain.scope;
     parent := top_driver ["compa.param"; "sub.x"];
     workflow := [compa; sub];
     get_objectives := [];
     get_constraints := [] |}.

Definition edges_alone (scope_path dscope_path : string) : edge_dict :=
  if decide (dscope_path = "driver") then [("sub", (["x"], []))] else [].

Definition edges_after_component (scope_path dscope_path : string) : edge_dict :=
  if decide (dscope_path = "driver")
  then [("compa", (["param"], ["a"])); ("sub", (["x"], []))]
  else [].

Definition start : Analytic := with_names ["sub.x"] [] (init direct).

Definition start_after_component : Analytic :=
  with_names ["compa.param"; "sub.x"] [] (init direct).

End Boundary.

(** A single component that cannot determine its derivatives. *)
Module Skipped.

Definition comp : node :=
  Component "comp" {| has_derivatives := false; first_derivatives := ∅ |}.

Definition single : model :=
  {| parent_scope := Chain.scope;
     parent := top_driver ["comp.x"];
     workflow := [comp];
     get_objectives := [];
     get_constraints := [] |}.

Definition edges (scope_path dscope_path : string) : edge_dict :=
  [("comp", (["x"], ["y"]))].

Definition start : Analytic := with_names ["comp.x"] [] (init direct).

(** The same component followed by [compb], whose input is a parameter. *)
Definition pair : model :=
  {| parent_scope := Chain.scope;
     parent := top_driver ["comp.x"; "compb.x"];
     workflow := [comp; Chain.compb 3];
     get_objectives := [];
     get_constraints := [] |}.

Definition pair_edges (scope_path dscope_path : string) : edge_dict :=
  [("comp", (["x"], ["y"])); ("compb", (["x"], ["b"]))].

Definition pair_start : Analytic :=
  with_names ["comp.x"; "compb.x"] [] (init direct).

End Skipped.

(** A sub-assembly driven by an optimizer, followed by a nested optimizer. *)
Module Unsupported.

Definition optimizer (path : string) : driver_data :=
  {| d_pathname := path; d_class := OtherDriver; d_parameters := [];
     d_eq_constraints := [] |}.

Definition sub : node :=
  Assembly "sub" {| a_pathname := "sub"; a_connections := ∅; a_exprs := ∅ |}
    (optimizer "sub.driver") [].

Definition nested : node := Driver "opt" (optimizer "opt") [].

Definition edges (scope_path dscope_path : string) : edge_dict :=
  if decide (dscope_path = "driver") then [("sub", ([], [])); ("opt", ([], []))]
  else [].


(** A driver with the parameter [p] and the objective [f] of gradient
    [{p: 3}], whose workflow holds the nested optimizer alone ... *)
Definition alone : model :=
  {| parent_scope := Chain.scope;
     parent := top_driver ["p"];
     workflow := [nested];
     get_objectives := [("f", λ _, [("p", 3%Q)])];
     get_constraints := [] |}.


Definition start (md : mode_t) : Analytic := with_names ["p"] ["f"] (init md).


End Unsupported.

(** A solver that closes the loop of one component on itself: its parameter
    is the input [c.x] and its equation is [c.x = c.y]. *)
Module SelfCoupled.

Definition comp : node :=
  Component "c"
    {| has_derivatives := true;
       first_derivatives := {[ "y" := {[ "x" := (1 # 2)%Q ]} ]} |}.

Definition solver : node :=
  Driver "solver"
    {| d_pathname := "solver"; d_class := Solver; d_parameters := ["c.x"];
       d_eq_constraints := [["c.x"; "c.y"]] |}
    [comp].

Definition loop : model :=
  {| parent_scope := Chain.scope;
     parent := top_driver [];
     workflow := [solver];
     get_objectives := [];
     get_constraints := [] |}.

Definition edges (scope_path dscope_path : string) : edge_dict :=
  if decide (dscope_path = "driver") then [("solver", ([], []))]
  else [("c", (["x"], ["y"]))].

End SelfCoupled.

(** A solver with the parameter [c.x] and the equation [c.x = d.inp]: the
    independent is [c.x], the dependent is [d.inp], an input of the
    component [d]. *)
Module SolverLoop.

Definition solver : driver_data :=
  {| d_pathname := "solver"; d_class := Solver; d_parameters := ["c.x"];
     d_eq_constraints := [["c.x"; "d.inp"]] |}.

Definition solver_dict : gmap string string := {[ "c.x" := "d.inp" ]}.

Definition derivs : gmap string (gmap string Q) :=
  {[ "out" := {[ "inp" := 5%Q; "x" := 5%Q ]} ]}.

(** [d.inp] is fed by [up.y] in this scope ... *)
Definition connected : assembly_data :=
  {| a_pathname := "";
     a_connections := {[ "d.inp" := [("up.y", "d.inp")] ]};
     a_exprs := {[ "up.y" := plain_expr "up.y" ]} |}.

(** ... and by nothing in this one. *)
Definition unconnected : assembly_data :=
  {| a_pathname := ""; a_connections := ∅; a_exprs := ∅ |}.

Definition prepared : Analytic :=
  with_LHS (zeros 3 3) (with_var_list ["up.y"; "d.out"; "d.inp"] (init direct)).

End SolverLoop.

(** An instance with a computed gradient, for the accessors. *)
Module Grid.

Definition computed : Analytic :=
  with_gradient [[1; 2]; [3; 4]]%Q (with_names ["x"; "y"] ["f"; "g"] (init direct)).

End Grid.

(** One constraint row over the parameter [p] and the unknown [v]. *)
Module ConstraintRow.

Definition prepared : Analytic :=
  with_EQS_zero (zeros 1 1)
    (with_EQS (zeros 1 1) (with_var_list ["v"] (with_names ["p"] ["c"] (init direct)))).

Definition lhs : list (string * Q) := [("v", 2%Q); ("p", 5%Q)].
Definition rhs : list (string * Q) := [("v", 3%Q)].

End ConstraintRow.

(** The chain after a whole call, for [da = 2] and [db = 3]. *)
Module Solved.

Definition allocated : Analytic := with_EQS (zeros 1 2) Chain.after_setup.

Definition counted_from : Analytic :=
  with_var_list [] (with_edge_dicts ∅ Chain.after_setup).

Definition chain : Analytic := with_gradient [[6]]%Q Chain.assembled.

(** The starting instance with matrices and a variable list left by some
    earlier use. *)
Definition stale : Analytic :=
  with_cols 1 0 0 0 1
    (with_gradient [[9]]%Q
       (with_LHS [[7]]%Q (with_var_list ["old"] (Chain.start direct)))).

End Solved.

(** An instance whose [EQS_zero] has one column and whose right-hand side
    has two. *)
Module Broadcast.

Definition narrow : Analytic :=
  {| mode := direct; param_names := []; function_names := []; edge_dicts := ∅;
     LHS := [[1]]%Q; RHS := [[1; 2]]%Q; EQS := [[1]]%Q; EQS_zero := [[5]]%Q;
     n_var := 0; gradient := []; var_list := [];
     LHS_cols := 1; RHS_cols := 2; EQS_cols := 1; EQS_zero_cols := 1;
     gradient_cols := 0 |}.

Definition solved : Analytic :=
  with_gradient [[6; 7]]%Q (with_gradient_cols 2 narrow).

End Broadcast.

(** A driver without unknowns: no component, one parameter [p] and the
    objective [f] with the gradient [{p: 3}]. *)
Module Bare.

Definition single : model :=
  {| parent_scope := Chain.scope;
     parent := top_driver ["p"];
     workflow := [];
     get_objectives := [("f", λ _, [("p", 3%Q)])];
     get_constraints := [] |}.

Definition edges (scope_path dscope_path : string) : edge_dict := [].

Definition start : Analytic := with_names ["p"] ["f"] (init direct).

(** The instance a call leaves: no row in [LHS] and [RHS], one empty row in
    [EQS], and the gradient [EQS_zero]. *)
Definition solved : Analytic :=
  {| mode := direct; param_names := ["p"]; function_names := ["f"];
     edge_dicts := {[ "driver" := [] ]};
     LHS := zeros 0 0; RHS := zeros 0 1; EQS := zeros 1 0; EQS_zero := [[3]]%Q;
     n_var := 0; gradient := [[3]]%Q; var_list := [];
     LHS_cols := 0; RHS_cols := 1; EQS_cols := 0; EQS_zero_cols := 1;
     gradient_cols := 1 |}.

End Bare.

(** A driver with one constraint [2 v + 5 p > 3 v] and no objective. *)
Module Constrained.

Definition single : model :=
  {| parent_scope := Chain.scope;
     parent := top_driver ["p"];
     workflow := [];
     get_objectives := [];
     get_constraints :=
       [("c", λ _, (ConstraintRow.lhs, ConstraintRow.rhs, ">"))] |}.

Definition filed : Analytic :=
  with_EQS_zero [[-5]]%Q (with_EQS [[1]]%Q ConstraintRow.prepared).

End Constrained.

(** ** The arithmetic of the machine

    The program computes with numpy's [float64], which the development
    idealises as rationals.  The definitions below redo in binary64 the steps
    by which a unit conversion factor reaches the gradient of the chain
    [param -> a -> b]: the chained term, the solve of the system of two
    equations, and the gradient of [_solve]. *)
Module Binary64.
Import PrimFloat.





End Binary64.

(** ** Notions used in the statements *)

(** [agree R r1 r2]: both runs raise the same exception, or both return and
    the results are related by [R]. *)
Definition agree {A} (R : A → A → Prop) (r1 r2 : result A) : Prop :=
  match r1, r2 with
  | Ok a, Ok b => R a b
  | Raise e1, Raise e2 => e1 = e2
  | _, _ => False
  end.

Definition same_var_list (a b : Analytic) : Prop := var_list a = var_list b.







(** The store that refuses to file a chained term on the diagonal. *)
Definition guarded_store (M : matrix) (i j : nat) (v : Q) : result matrix :=
  if decide (i = j) then Raise IndexError else setitem2 M i j v.

(** From the instance [s] and the equation counter [i] to the instance [s']
    and the counter [i']: the rows from [i] up to [i'] hold 1 on the diagonal
    of [LHS], and no other row of [LHS] has changed. *)
Definition opened_rows (i : nat) (s : Analytic) (i' : nat) (s' : Analytic) : Prop :=
  (i ≤ i')%nat ∧
  (∀ r, (i ≤ r < i')%nat → getitem2 (LHS s') r r = Ok 1%Q) ∧
  (∀ r c, (r < i ∨ i' ≤ r)%nat → getitem2 (LHS s') r c = getitem2 (LHS s) r c).

(** From [s] to [s'] no cell of [LHS] has changed but off-diagonal cells of
    the row [i]. *)
Definition within_row (i : nat) (s s' : Analytic) : Prop :=
  getitem2 (LHS s') i i = getitem2 (LHS s) i i ∧
  ∀ r c, r ≠ i → getitem2 (LHS s') r c = getitem2 (LHS s) r c.

(** The same relations on the states the loops of the assembler thread. *)
Definition rows_rel (st st' : frame * nat * Analytic) : Prop :=
  opened_rows st.1.2 st.2 st'.1.2 st'.2.

Definition input_rel (i : nat) (st st' : frame * Analytic) : Prop :=
  within_row i st.2 st'.2.

(** [X] solves the linear system [A X = B]. *)
Definition solves (A X B : matrix) : Prop :=
  ∃ P, dot A (ncols A) X (ncols B) = Ok P ∧ mat_equiv P B.

(** What the items of a gradient dictionary hold for the name [x]. *)
Definition total (items : list (string * Q)) (x : string) : Q :=
  foldr (λ item acc, ((if decide (item.1 = x) then item.2 else 0) + acc)%Q) 0%Q items.

(** ** Notions of the further properties *)

(** [M] has [n] rows of [m] cells each. *)
Definition shape_is (n m : nat) (M : matrix) : Prop :=
  length M = n ∧ Forall (λ r : list Q, length r = m) M.

(** The numbers of columns of the five arrays. *)
Definition cols_part (s : Analytic) : nat * nat * nat * nat * nat :=
  (LHS_cols s, RHS_cols s, EQS_cols s, EQS_zero_cols s, gradient_cols s).

(** What [setup] reads of the instance the parent's [setup] leaves, besides
    the edge dictionaries it adds to: the rest it assigns anew. *)
Definition names_part (s : Analytic) : mode_t * list string * list string * nat :=
  (mode s, param_names s, function_names s, n_var s).

(** Two instances with the same names and the same variable list, to whose
    edge dictionaries [A0] and [B0] the same entries have been filed. *)
Definition filed_alike (A0 B0 : gmap string edge_dict) (a b : Analytic) : Prop :=
  names_part a = names_part b ∧ var_list a = var_list b ∧
  ∃ M, edge_dicts a = M ∪ A0 ∧ edge_dicts b = M ∪ B0.

(** Two instances that differ at most in their edge dictionaries, to which
    the same entries have been filed over [A0] and [B0]. *)
Definition alike (A0 B0 : gmap string edge_dict) (a b : Analytic) : Prop :=
  with_edge_dicts ∅ a = with_edge_dicts ∅ b ∧
  ∃ M, edge_dicts a = M ∪ A0 ∧ edge_dicts b = M ∪ B0.

(** What [setup] computes besides the two matrices of the system. *)
Definition setup_part (s : Analytic)
    : mode_t * list string * list string * gmap string edge_dict * matrix * matrix
      * nat * matrix * list string :=
  (mode s, param_names s, function_names s, edge_dicts s, EQS s, EQS_zero s,
   n_var s, gradient s, var_list s).

(** What the rows of the functions leave alone. *)
Definition functions_part (s : Analytic)
    : mode_t * list string * list string * gmap string edge_dict * matrix * matrix
      * nat * matrix * list string :=
  (mode s, param_names s, function_names s, edge_dicts s, LHS s, RHS s,
   n_var s, gradient s, var_list s).
(** From [s] to [s'] nothing has changed but the cells of [LHS] and [RHS],
    which keep their shapes. *)
Definition keeps (s s' : Analytic) : Prop :=
  setup_part s' = setup_part s ∧
  (∀ n m, shape_is n m (LHS s) → shape_is n m (LHS s')) ∧
  (∀ n m, shape_is n m (RHS s) → shape_is n m (RHS s')) ∧
  same_shape (LHS s) (LHS s') ∧ same_shape (RHS s) (RHS s') ∧
  cols_part s' = cols_part s.

(** The edges of a node that a mode counts as unknowns: the outputs in direct
    mode, the inputs in adjoint mode. *)
Definition counted (md : mode_t) (edges : list string * list string) : list string :=
  match md with
  | direct => edges.2
  | adjoint => edges.1
  end.

(** The names [head + name + "." + x] of the edges a mode counts, entry by
    entry of an edge dictionary. *)
Definition flat_names (head : string) (md : mode_t) (ed : edge_dict) : list string :=
  flat_map (λ entry : string * (list string * list string),
              (λ x, head +:+ dotted entry.1 x) <$> counted md entry.2) ed.

(** What the edge counter leaves alone. *)
Definition counter_part (s : Analytic)
    : mode_t * list string * list string * matrix * matrix * matrix * matrix
      * nat * matrix :=
  (mode s, param_names s, function_names s, LHS s, RHS s, EQS s, EQS_zero s,
   n_var s, gradient s).

(** From [s] to [s'] names were appended to [var_list] and edge dictionaries
    were filed; nothing else has changed. *)
Definition extends (s s' : Analytic) : Prop :=
  var_list s `prefix_of` var_list s' ∧
  (∀ k, is_Some (edge_dicts s !! k) → is_Some (edge_dicts s' !! k)) ∧
  counter_part s' = counter_part s.

(** [edge_dicts[scope_name][name]] where the assembler finds it, and no
    edges where it does not. *)
Definition node_edges (E : gmap string edge_dict) (scope_name name : string)
    : list string * list string :=
  match ed ← or_raise (E !! scope_name) KeyError; dict_get ed name with
  | Ok edges => edges
  | Raise _ => ([], [])
  end.

(** The equations one node of a workflow is given under the edge
    dictionaries [E]: one per output of a component that has derivatives,
    none for another component, one per boundary input and output of a
    sub-assembly besides those of its workflow, and those of its workflow
    for a nested solver. *)
Fixpoint rows_of (E : gmap string edge_dict) (scope_name : string) (nd : node) : nat :=
  match nd with
  | Component name c =>
      if has_derivatives c then length (node_edges E scope_name name).2 else 0
  | Driver _ d wf => sum_list (rows_of E (d_pathname d) <$> wf)
  | Assembly name a d wf =>
      length (node_edges E scope_name name).1
      + sum_list (rows_of E (d_pathname d) <$> wf)
      + length (node_edges E scope_name name).2
  end.

(** From [s] to [s'] no cell of [LHS] or [RHS] has changed outside the row [i]. *)
Definition only_row (i : nat) (s s' : Analytic) : Prop :=
  ∀ r c, r ≠ i →
    getitem2 (LHS s') r c = getitem2 (LHS s) r c ∧
    getitem2 (RHS s') r c = getitem2 (RHS s) r c.

(** From the counter [i] and the instance [s] to the counter [i'] and the
    instance [s']: the counter has not gone back, and no cell of [LHS] or
    [RHS] has changed outside the rows from [i] up to [i']. *)
Definition only_rows (i : nat) (s : Analytic) (i' : nat) (s' : Analytic) : Prop :=
  (i ≤ i')%nat ∧
  ∀ r c, (r < i ∨ i' ≤ r)%nat →
    getitem2 (LHS s') r c = getitem2 (LHS s) r c ∧
    getitem2 (RHS s') r c = getitem2 (RHS s) r c.

Definition only_rows_rel (st st' : frame * nat * Analytic) : Prop :=
  only_rows st.1.2 st.2 st'.1.2 st'.2.

(** The cell of a parameter input in the row of an output. *)
Definition holds_derivative (params : list string) (name : string)
    (derivs : gmap string (gmap string Q)) (out : string) (i_eq : nat)
    (inp : string) (s : Analytic) : Prop :=
  ∃ j v, index params (dotted name inp) = Ok j ∧
         local_deriv derivs out inp = Ok v ∧
         getitem2 (RHS s) i_eq j = Ok v.

(** What the assembler reads of the instance. *)
Definition reads (s : Analytic) : list string * list string * gmap string edge_dict :=
  (param_names s, var_list s, edge_dicts s).

(** Two runs of one pass side by side, the first from [s] and the second
    from [t], where [F] is the instance the first run ends with: both
    instances read the same, their matrices have the same shapes, and every
    cell of [LHS] and [RHS] of [t] holds what it holds in [F] or what it
    holds in [s]. *)
Definition rerun (F s t : Analytic) : Prop :=
  reads t = reads s ∧
  same_shape (LHS s) (LHS t) ∧ same_shape (RHS s) (RHS t) ∧
  ∀ i j,
    (getitem2 (LHS t) i j = getitem2 (LHS F) i j ∨
     getitem2 (LHS t) i j = getitem2 (LHS s) i j) ∧
    (getitem2 (RHS t) i j = getitem2 (RHS F) i j ∨
     getitem2 (RHS t) i j = getitem2 (RHS s) i j).



(** * Properties *)

(** ** The error monad and the primitives *)

Lemma bind_Ok {A B} (m : result A) (f : A → result B) (b : B) :
  m ≫= f = Ok b ↔ ∃ a, m = Ok a ∧ f a = Ok b.
Proof.
  destruct m as [a|e]; simpl; split.
  - intros Hf. exists a. split; [reflexivity | exact Hf].
  - intros (a' & Ha & Hf). injection Ha as ->. exact Hf.
  - discriminate.
  - intros (a' & Ha & _). discriminate.
Qed.

Lemma or_raise_Ok {A} (o : option A) (e : exn) (a : A) :
  or_raise o e = Ok a ↔ o = Some a.
Proof. destruct o; simpl; split; congruence. Qed.

Lemma index_absent (l : list string) (x : string) :
  x ∉ l → index l x = Raise ValueError.
Proof.
  intros Hx. unfold index.
  destruct (list_find (λ y, y = x) l) as [[i y]|] eqn:E; [|reflexivity].
  apply list_find_Some in E as (Hi & -> & _).
  exfalso. apply Hx. eapply list_elem_of_lookup_2, Hi.
Qed.

Lemma index_Ok (l : list string) (x : string) (i : nat) :
  index l x = Ok i ↔ l !! i = Some x ∧ ∀ j, j < i → l !! j ≠ Some x.
Proof.
  unfold index. split.
  - destruct (list_find (λ y, y = x) l) as [[i' y]|] eqn:E; simpl; [|discriminate].
    intros [= <-]. apply list_find_Some in E as (Hi & -> & Hfirst).
    split; [exact Hi|]. intros j Hj Hl. exact (Hfirst j x Hl Hj eq_refl).
  - intros [Hi Hfirst].
    assert (list_find (λ y, y = x) l = Some (i, x)) as ->; [|reflexivity].
    apply list_find_Some. split; [exact Hi|]. split; [reflexivity|].
    intros j y Hl Hj ->. exact (Hfirst j Hj Hl).
Qed.

Lemma index_present (l : list string) (x : string) :
  x ∈ l → ∃ i, index l x = Ok i.
Proof.
  intros Hx. unfold index.
  destruct (list_find_elem_of (λ y, y = x) l x Hx eq_refl) as [[i y] E].
  rewrite E. exists i. reflexivity.
Qed.

Lemma index_inj (l : list string) (x y : string) (i : nat) :
  index l x = Ok i → index l y = Ok i → x = y.
Proof. intros [Hx _]%index_Ok [Hy _]%index_Ok. congruence. Qed.

(** ** The gradient accessors *)

(** C7.  A name that is absent from the parameter list or from the function
    list makes [get_derivative] raise [ValueError], the not-found condition of
    [list.index], and a function name that is absent makes [get_gradient]
    raise it too; no zero and no row of zeros is returned.  For names that are
    present, at first positions [i] and [j], [get_derivative] is the entry
    [gradient[i][j]] and [get_gradient] is the row [gradient[i]]. *)
Theorem accessors_lookup (self : Analytic) (f p : string) :
  (p ∉ param_names self → get_derivative self f p = Raise ValueError) ∧
  (f ∉ function_names self →
     get_derivative self f p = Raise ValueError ∧
     get_gradient self f = Raise ValueError) ∧
  (∀ i j row v,
     function_names self !! i = Some f →
     (∀ i', i' < i → function_names self !! i' ≠ Some f) →
     param_names self !! j = Some p →
     (∀ j', j' < j → param_names self !! j' ≠ Some p) →
     gradient self !! i = Some row →
     row !! j = Some v →
     get_derivative self f p = Ok v ∧ get_gradient self f = Ok row).
Proof.
  split; [|split].
  - intros Hp. unfold get_derivative. rewrite (index_absent _ _ Hp). reflexivity.
  - intros Hf. unfold get_derivative, get_gradient.
    rewrite (index_absent _ _ Hf). split; [|reflexivity].
    destruct (decide (p ∈ param_names self)) as [Hp|Hp].
    + destruct (index_present _ _ Hp) as [j ->]. reflexivity.
    + rewrite (index_absent _ _ Hp). reflexivity.
  - intros i j row v Hi Hi' Hj Hj' Hrow Hv.
    assert (index (function_names self) f = Ok i) as Ef by (apply index_Ok; auto).
    assert (index (param_names self) p = Ok j) as Ep by (apply index_Ok; auto).
    unfold get_derivative, get_gradient, getitem2, getrow.
    rewrite Ef, Ep. simpl. rewrite Hrow. simpl. rewrite Hv. auto.
Qed.


Lemma accessors_lookup_witness :
  get_derivative Grid.computed "g" "z" = Raise ValueError ∧
  (get_derivative Grid.computed "h" "y" = Raise ValueError ∧
   get_gradient Grid.computed "h" = Raise ValueError) ∧
  (get_derivative Grid.computed "g" "y" = Ok 4%Q ∧
   get_gradient Grid.computed "g" = Ok [3; 4]%Q).
Proof.
  split; [|split].
  - apply (proj1 (accessors_lookup Grid.computed "g" "z")).
    apply (bool_decide_unpack _). vm_compute. exact I.
  - apply (proj1 (proj2 (accessors_lookup Grid.computed "h" "y"))).
    apply (bool_decide_unpack _). vm_compute. exact I.
  - apply (proj2 (proj2 (accessors_lookup Grid.computed "g" "y")) 1 1 [3; 4]%Q 4%Q).
    + reflexivity.
    + intros i' Hi'. assert (i' = 0) as -> by lia. discriminate.
    + reflexivity.
    + intros j' Hj'. assert (j' = 0) as -> by lia. discriminate.
    + reflexivity.
    + reflexivity.
Defined.

(** ** Two runs that agree *)

Lemma agree_refl {A} (R : A → A → Prop) (r : result A) :
  (∀ a, R a a) → agree R r r.
Proof. intros HR. destruct r; simpl; auto. Qed.

Lemma agree_bind {A B} (R : A → A → Prop) (T : B → B → Prop)
    (m1 m2 : result A) (f1 f2 : A → result B) :
  agree R m1 m2 →
  (∀ a b, R a b → agree T (f1 a) (f2 b)) →
  agree T (m1 ≫= f1) (m2 ≫= f2).
Proof.
  destruct m1, m2; simpl; intros H Hf; try contradiction; auto.
Qed.

Lemma agree_for_each {A S} (R : S → S → Prop) (body1 body2 : A → S → result S)
    (l : list A) (s1 s2 : S) :
  (∀ x a b, R a b → agree R (body1 x a) (body2 x b)) →
  R s1 s2 →
  agree R (for_each body1 l s1) (for_each body2 l s2).
Proof.
  intros Hbody. revert s1 s2.
  induction l as [|x l IH]; intros s1 s2 HR; simpl; [exact HR|].
  apply agree_bind with (R := R); auto.
Qed.

Lemma agree_fmap {A B} (R : A → A → Prop) (g : A → B) (r1 r2 : result A) :
  agree R r1 r2 → (∀ a b, R a b → g a = g b) → g <$> r1 = g <$> r2.
Proof.
  destruct r1, r2; simpl; intros H Hg; try contradiction.
  - f_equal. auto.
  - congruence.
Qed.

(** ** The variable enumerator *)


Section Enumerator.
Context `{FW : Framework}.

Lemma append_names_same (head name : string) (names : list string) (a b : Analytic) :
  same_var_list a b →
  same_var_list (append_names head name names a) (append_names head name names b).
Proof. unfold same_var_list, append_names. simpl. intros ->. reflexivity. Qed.

(** The count reads nothing of the instance but the list it extends: the
    edge dictionary of a scope is looked up right after [_find_edges] has
    filed it. *)
Lemma _edge_counter_agree (depth : nat) :
  ∀ scope scope_wf dscope index head s1 s2,
    same_var_list s1 s2 →
    agree same_var_list
      (_edge_counter depth scope scope_wf dscope index head s1)
      (_edge_counter depth scope scope_wf dscope index head s2).
Proof.
  induction depth as [|depth IH]; intros scope scope_wf dscope idx head s1 s2 Hs.
  - reflexivity.
  - simpl. rewrite !lookup_insert_eq. simpl.
    apply agree_for_each; [|exact Hs].
    intros entry a b Hab.
    apply agree_bind with (R := eq); [apply agree_refl; reflexivity|].
    intros nd ? <-.
    apply agree_bind with (R := same_var_list).
    + destruct nd as [name c|name d wf|name asm d wf].
      * exact Hab.
      * destruct (is_solver d); [apply IH; exact Hab | reflexivity].
      * apply agree_bind with (R := eq); [apply agree_refl; reflexivity|].
        intros inputs ? <-. apply IH. apply append_names_same, Hab.
    + intros a' b' Hab'.
      apply agree_bind with (R := eq); [apply agree_refl; reflexivity|].
      intros outputs ? <-. simpl. apply append_names_same, Hab'.
Qed.

(** C9.  The enumeration of one model under one mode yields the same
    variable list, name for name and in the same order, from whatever
    instance it is started: two runs either raise the same exception or
    return equal lists.  In particular a second run, started from the
    instance the first run left, reproduces the list of the first. *)
Theorem enumeration_deterministic (m : model) (s1 s2 : Analytic) :
  mode s1 = mode s2 →
  var_list <$> setup_enumerate m s1 = var_list <$> setup_enumerate m s2.
Proof.
  intros Hmode. unfold setup_enumerate. rewrite Hmode.
  apply agree_fmap with (R := same_var_list); [|auto].
  apply _edge_counter_agree. reflexivity.
Qed.

End Enumerator.

Lemma enumeration_deterministic_witness :
  var_list <$> @setup_enumerate (framework Chain.edges (λ _ _, 1%Q))
                 (Chain.chain 2 3) (Chain.start direct) =
  var_list <$> @setup_enumerate (framework Chain.edges (λ _ _, 1%Q))
                 (Chain.chain 2 3) Chain.assembled.
Proof.
  apply (@enumeration_deterministic (framework Chain.edges (λ _ _, 1%Q))).
  reflexivity.
Defined.

(** ** Matrix cells *)

Lemma setitem2_Ok (M M' : matrix) (i j : nat) (v : Q) :
  setitem2 M i j v = Ok M' ↔
  ∃ row, M !! i = Some row ∧ j < length row ∧ M' = <[i := <[j := v]> row]> M.
Proof.
  unfold setitem2. destruct (M !! i) as [row|]; simpl.
  - destruct (decide (j < length row)); split.
    + intros [= <-]. eauto.
    + intros (row' & [= <-] & _ & ->). reflexivity.
    + discriminate.
    + intros (row' & [= <-] & Hj & _). lia.
  - split; [discriminate|]. intros (row & Hrow & _). discriminate.
Qed.

Lemma getitem2_setitem2_eq (M M' : matrix) (i j : nat) (v : Q) :
  setitem2 M i j v = Ok M' → getitem2 M' i j = Ok v.
Proof.
  intros (row & Hrow & Hj & ->)%setitem2_Ok. unfold getitem2.
  rewrite list_lookup_insert_eq by (eapply lookup_lt_Some, Hrow). simpl.
  rewrite list_lookup_insert_eq by exact Hj. reflexivity.
Qed.

Lemma getitem2_setitem2_ne (M M' : matrix) (i j i' j' : nat) (v : Q) :
  setitem2 M i j v = Ok M' → (i', j') ≠ (i, j) →
  getitem2 M' i' j' = getitem2 M i' j'.
Proof.
  intros (row & Hrow & Hj & ->)%setitem2_Ok Hne. unfold getitem2.
  destruct (decide (i' = i)) as [->|Hi].
  - rewrite list_lookup_insert_eq by (eapply lookup_lt_Some, Hrow).
    rewrite Hrow. simpl.
    rewrite list_lookup_insert_ne by congruence. reflexivity.
  - rewrite list_lookup_insert_ne by congruence. reflexivity.
Qed.

Lemma getitem2_setitem2_row (M M' : matrix) (i j i' j' : nat) (v : Q) :
  setitem2 M i j v = Ok M' → i' ≠ i → getitem2 M' i' j' = getitem2 M i' j'.
Proof. intros H Hi. eapply getitem2_setitem2_ne; [exact H | congruence]. Qed.

Lemma additem2_Ok (M M' : matrix) (i j : nat) (v : Q) :
  additem2 M i j v = Ok M' ↔
  ∃ old, getitem2 M i j = Ok old ∧ setitem2 M i j (old + v)%Q = Ok M'.
Proof. unfold additem2. apply bind_Ok. Qed.

(** ** The rows of the constraints *)


(** One accumulating statement adds the value to the cell of its own name
    and leaves the cells of the other names as they are. *)
Lemma route_add_cells (i : nat) (item : string * Q) (self self' : Analytic) :
  route additem2 i item self = Ok self' →
  param_names self' = param_names self ∧ var_list self' = var_list self ∧
  (∀ x j old,
     index (param_names self) x = Ok j →
     getitem2 (EQS_zero self) i j = Ok old →
     ∃ new, getitem2 (EQS_zero self') i j = Ok new ∧
            (new == old + (if decide (item.1 = x) then item.2 else 0))%Q) ∧
  (∀ x j old,
     x ∉ param_names self →
     index (var_list self) x = Ok j →
     getitem2 (EQS self) i j = Ok old →
     ∃ new, getitem2 (EQS self') i j = Ok new ∧
            (new == old + (if decide (item.1 = x) then item.2 else 0))%Q).
Proof.
  unfold route, member. intros Hroute.
  destruct (bool_decide (item.1 ∈ param_names self)) eqn:Hp.
  - apply bool_decide_eq_true in Hp.
    apply bind_Ok in Hroute as (jp & Hjp & Hroute).
    apply bind_Ok in Hroute as (M & HM & [= <-]). simpl.
    apply additem2_Ok in HM as (old0 & Hold0 & Hset).
    repeat split.
    + intros x j old Hj Hold. destruct (decide (item.1 = x)) as [<-|Hne].
      * assert (j = jp) as -> by congruence.
        exists (old0 + item.2)%Q. split.
        -- eapply getitem2_setitem2_eq, Hset.
        -- assert (old0 = old) as -> by congruence. reflexivity.
      * exists old. split; [|ring].
        rewrite <- Hold. eapply getitem2_setitem2_ne; [exact Hset|].
        intros [= ->]. apply Hne. eapply index_inj; eassumption.
    + intros x j old Hx Hj Hold. exists old. split; [exact Hold|].
      destruct (decide (item.1 = x)) as [<-|Hne]; [contradiction|ring].
  - apply bool_decide_eq_false in Hp.
    destruct (bool_decide (item.1 ∈ var_list self)) eqn:Hv.
    + apply bind_Ok in Hroute as (jv & Hjv & Hroute).
      apply bind_Ok in Hroute as (M & HM & [= <-]). simpl.
      apply additem2_Ok in HM as (old0 & Hold0 & Hset).
      repeat split.
      * intros x j old Hj Hold. exists old. split; [exact Hold|].
        destruct (decide (item.1 = x)) as [<-|Hne]; [|ring].
        exfalso. apply Hp. apply index_Ok in Hj as [Hj _].
        eapply list_elem_of_lookup_2, Hj.
      * intros x j old Hx Hj Hold. destruct (decide (item.1 = x)) as [<-|Hne].
        -- assert (j = jv) as -> by congruence.
           exists (old0 + item.2)%Q. split.
           ++ eapply getitem2_setitem2_eq, Hset.
           ++ assert (old0 = old) as -> by congruence. reflexivity.
        -- exists old. split; [|ring].
           rewrite <- Hold. eapply getitem2_setitem2_ne; [exact Hset|].
           intros [= ->]. apply Hne. eapply index_inj; eassumption.
    + injection Hroute as <-. repeat split.
      * intros x j old Hj Hold. exists old. split; [exact Hold|].
        destruct (decide (item.1 = x)) as [<-|Hne]; [|ring].
        exfalso. apply Hp. apply index_Ok in Hj as [Hj _].
        eapply list_elem_of_lookup_2, Hj.
      * intros x j old Hx Hj Hold. exists old. split; [exact Hold|].
        destruct (decide (item.1 = x)) as [<-|Hne]; [|ring].
        exfalso. apply bool_decide_eq_false in Hv. apply Hv.
        apply index_Ok in Hj as [Hj _]. eapply list_elem_of_lookup_2, Hj.
Qed.

Lemma route_items_cells (s : Q) (i : nat) (items : list (string * Q)) :
  ∀ self self',
    for_each (λ item, route additem2 i (item.1, s * item.2)%Q) items self = Ok self' →
    param_names self' = param_names self ∧ var_list self' = var_list self ∧
    (∀ x j old,
       index (param_names self) x = Ok j →
       getitem2 (EQS_zero self) i j = Ok old →
       ∃ new, getitem2 (EQS_zero self') i j = Ok new ∧
              (new == old + s * total items x)%Q) ∧
    (∀ x j old,
       x ∉ param_names self →
       index (var_list self) x = Ok j →
       getitem2 (EQS self) i j = Ok old →
       ∃ new, getitem2 (EQS self') i j = Ok new ∧
              (new == old + s * total items x)%Q).
Proof.
  induction items as [|item items IH]; intros self self' Hrun; simpl in Hrun.
  - injection Hrun as <-. repeat split.
    + intros x j old _ Hold. exists old. split; [exact Hold | simpl; ring].
    + intros x j old _ _ Hold. exists old. split; [exact Hold | simpl; ring].
  - apply bind_Ok in Hrun as (mid & Hstep & Hrest).
    apply route_add_cells in Hstep as (Hp & Hv & HZ & HE).
    apply IH in Hrest as (Hp' & Hv' & HZ' & HE').
    split; [congruence|]. split; [congruence|]. split.
    + intros x j old Hj Hold.
      destruct (HZ x j old Hj Hold) as (v1 & Hv1 & E1).
      rewrite <- Hp in Hj.
      destruct (HZ' x j v1 Hj Hv1) as (v2 & Hv2 & E2).
      exists v2. split; [exact Hv2|]. rewrite E2, E1. simpl.
      destruct (decide (item.1 = x)); ring.
    + intros x j old Hx Hj Hold.
      destruct (HE x j old Hx Hj Hold) as (v1 & Hv1 & E1).
      rewrite <- Hp in Hx. rewrite <- Hv in Hj.
      destruct (HE' x j v1 Hx Hj Hv1) as (v2 & Hv2 & E2).
      exists v2. split; [exact Hv2|]. rewrite E2, E1. simpl.
      destruct (decide (item.1 = x)); ring.
Qed.

(** The cells of the row of one constraint, for any comparator. *)
Lemma setup_constraint_cells (wrt : list string)
    (con : string * (list string → list (string * Q) * list (string * Q) * string))
    (lhs rhs : list (string * Q)) (comparator : string)
    (i_eq i_eq' : nat) (self self' : Analytic) :
  con.2 wrt = (lhs, rhs, comparator) →
  setup_constraint wrt con (i_eq, self) = Ok (i_eq', self') →
  i_eq' = S i_eq ∧
  (∀ x j old,
     index (param_names self) x = Ok j →
     getitem2 (EQS_zero self) i_eq j = Ok old →
     ∃ new, getitem2 (EQS_zero self') i_eq j = Ok new ∧
       (new == old + sign_of comparator * total lhs x
                   - sign_of comparator * total rhs x)%Q) ∧
  (∀ x j old,
     x ∉ param_names self →
     index (var_list self) x = Ok j →
     getitem2 (EQS self) i_eq j = Ok old →
     ∃ new, getitem2 (EQS self') i_eq j = Ok new ∧
       (new == old + sign_of comparator * total lhs x
                   - sign_of comparator * total rhs x)%Q).
Proof.
  intros Hcon Hrun. unfold setup_constraint in Hrun. rewrite Hcon in Hrun.
  simpl in Hrun.
  apply bind_Ok in Hrun as (mid & Hlhs & Hrun).
  apply bind_Ok in Hrun as (fin & Hrhs & [= <- <-]).
  apply route_items_cells in Hlhs as (Hp & Hv & HZ & HE).
  apply route_items_cells in Hrhs as (Hp' & Hv' & HZ' & HE').
  split; [reflexivity|]. split.
  - intros x j old Hj Hold.
    destruct (HZ x j old Hj Hold) as (v1 & Hv1 & E1).
    rewrite <- Hp in Hj.
    destruct (HZ' x j v1 Hj Hv1) as (v2 & Hv2 & E2).
    exists v2. split; [exact Hv2|]. rewrite E2, E1. ring.
  - intros x j old Hx Hj Hold.
    destruct (HE x j old Hx Hj Hold) as (v1 & Hv1 & E1).
    rewrite <- Hp in Hx. rewrite <- Hv in Hj.
    destruct (HE' x j v1 Hx Hj Hv1) as (v2 & Hv2 & E2).
    exists v2. split; [exact Hv2|]. rewrite E2, E1. ring.
Qed.

(** C5.  The sign of a constraint is -1 when its comparator contains [>] and
    +1 otherwise.  The row of the constraint accumulates, in the cell of each
    name, [sign * lhs - sign * rhs] on top of what the cell held, so a name on
    both sides gets both terms.  Hence two constraints with the same sides,
    one with a greater-than comparator and one without, change every cell by
    opposite amounts.  Names of the parameter list are cells of [EQS_zero],
    the other names of the variable list are cells of [EQS]. *)
Theorem constraint_sign_flip (wrt : list string)
    (name_gt name_le c_gt c_le : string) (lhs rhs : list (string * Q))
    (i_eq : nat) (self : Analytic) (st_gt st_le : nat * Analytic) :
  str_contains ">" c_gt = true →
  str_contains ">" c_le = false →
  setup_constraint wrt (name_gt, λ _, (lhs, rhs, c_gt)) (i_eq, self) = Ok st_gt →
  setup_constraint wrt (name_le, λ _, (lhs, rhs, c_le)) (i_eq, self) = Ok st_le →
  (sign_of c_gt == -1)%Q ∧ (sign_of c_le == 1)%Q ∧
  (∀ x j old,
     index (param_names self) x = Ok j →
     getitem2 (EQS_zero self) i_eq j = Ok old →
     ∃ new_gt new_le,
       getitem2 (EQS_zero st_gt.2) i_eq j = Ok new_gt ∧
       getitem2 (EQS_zero st_le.2) i_eq j = Ok new_le ∧
       (new_gt == old + sign_of c_gt * total lhs x - sign_of c_gt * total rhs x)%Q ∧
       (new_le == old + sign_of c_le * total lhs x - sign_of c_le * total rhs x)%Q ∧
       (new_gt - old == - (new_le - old))%Q) ∧
  (∀ x j old,
     x ∉ param_names self →
     index (var_list self) x = Ok j →
     getitem2 (EQS self) i_eq j = Ok old →
     ∃ new_gt new_le,
       getitem2 (EQS st_gt.2) i_eq j = Ok new_gt ∧
       getitem2 (EQS st_le.2) i_eq j = Ok new_le ∧
       (new_gt == old + sign_of c_gt * total lhs x - sign_of c_gt * total rhs x)%Q ∧
       (new_le == old + sign_of c_le * total lhs x - sign_of c_le * total rhs x)%Q ∧
       (new_gt - old == - (new_le - old))%Q).
Proof.
  intros Hgt Hle Rgt Rle.
  destruct st_gt as [i_gt s_gt], st_le as [i_le s_le].
  eapply setup_constraint_cells in Rgt as (_ & Zgt & Egt); [|reflexivity].
  eapply setup_constraint_cells in Rle as (_ & Zle & Ele); [|reflexivity].
  assert (sign_of c_gt = (-1)%Q) as Sgt by (unfold sign_of; rewrite Hgt; reflexivity).
  assert (sign_of c_le = 1%Q) as Sle by (unfold sign_of; rewrite Hle; reflexivity).
  split; [rewrite Sgt; reflexivity|]. split; [rewrite Sle; reflexivity|]. split.
  - intros x j old Hj Hold.
    destruct (Zgt x j old Hj Hold) as (g & Hg & Eg).
    destruct (Zle x j old Hj Hold) as (l & Hl & El).
    exists g, l. repeat split; try assumption.
    rewrite Eg, El, Sgt, Sle. ring.
  - intros x j old Hx Hj Hold.
    destruct (Egt x j old Hx Hj Hold) as (g & Hg & Eg).
    destruct (Ele x j old Hx Hj Hold) as (l & Hl & El).
    exists g, l. repeat split; try assumption.
    rewrite Eg, El, Sgt, Sle. ring.
Qed.

Lemma constraint_sign_flip_witness :
  ∃ new_gt new_le,
    getitem2 (EQS (with_EQS_zero [[-5]]%Q (with_EQS [[1]]%Q ConstraintRow.prepared))) 0 0
      = Ok new_gt ∧
    getitem2 (EQS (with_EQS_zero [[5]]%Q (with_EQS [[-1]]%Q ConstraintRow.prepared))) 0 0
      = Ok new_le ∧
    (new_gt == 0 + sign_of ">=" * total ConstraintRow.lhs "v" - sign_of ">=" * total ConstraintRow.rhs "v")%Q ∧
    (new_le == 0 + sign_of "<=" * total ConstraintRow.lhs "v" - sign_of "<=" * total ConstraintRow.rhs "v")%Q ∧
    (new_gt - 0 == - (new_le - 0))%Q.
Proof.
  refine (proj2 (proj2 (proj2
    (constraint_sign_flip ["v"; "p"] "c_gt" "c_le" ">=" "<=" ConstraintRow.lhs ConstraintRow.rhs 0
       ConstraintRow.prepared
       (1, with_EQS_zero [[-5]]%Q (with_EQS [[1]]%Q ConstraintRow.prepared))
       (1, with_EQS_zero [[5]]%Q (with_EQS [[-1]]%Q ConstraintRow.prepared))
       _ _ _ _))) "v" 0 0%Q _ _ _).
  - reflexivity.
  - reflexivity.
  - vm_compute. reflexivity.
  - vm_compute. reflexivity.
  - apply (bool_decide_unpack _). vm_compute. exact I.
  - reflexivity.
  - reflexivity.
Defined.

(** ** The chain of two unknowns *)

Section ChainRule.
Context `{FW : Framework}.

(** C1.  For the chain [param -> a -> b] with [da/dparam = 2], [db/da = 3], no
    unit and the objective [b], whose edge dictionary lists [compa] before
    [compb]: the variable list is [a, b], the assembled system is
    [LHS = [[1, 0], [-3, 1]]] and [RHS = [[2], [0]]], a solution of that system
    is [a = 2], [b = 6], and with a solver that returns this solution
    [calc_gradient] succeeds and [get_derivative] of [b] with respect to the
    parameter is [6], the product of the two local derivatives. *)
Theorem chain_rule_two_unknowns (x0 x1 : Q) :
  _find_edges "driver" "driver" = Chain.edges "driver" "driver" →
  ChainRule_setup (Chain.start direct) = Ok (Chain.start direct) →
  parent_cached (Chain.start direct) = false →
  0 < recursion_limit →
  linalg_solve [[1; 0]; [-3; 1]]%Q [[2]; [0]]%Q = Ok [[x0]; [x1]] →
  solves [[1; 0]; [-3; 1]]%Q [[x0]; [x1]] [[2]; [0]]%Q →
  ∃ s g,
    calc_gradient (Chain.chain 2 3) (Chain.start direct) = Ok s ∧
    var_list s = ["compa.a"; "compb.b"] ∧
    LHS s = [[1; 0]; [-3; 1]]%Q ∧
    RHS s = [[2]; [0]]%Q ∧
    (x0 == 2)%Q ∧ (x1 == 6)%Q ∧
    get_derivative s "b" "compa.param" = Ok g ∧ (g == 2 * 3)%Q ∧ (g == 6)%Q.
Proof.
  intros Hedges Hparent Hcached Hdepth Hsolve (P & HP & Hequiv).
  assert ((x0 == 2)%Q ∧ (x1 == 6)%Q) as [E0 E1].
  { cbv -[Qplus Qmult Qopp Qeq] in HP. injection HP as <-.
    apply Forall2_cons in Hequiv as [R0 Hequiv].
    apply Forall2_cons in Hequiv as [R1 _].
    apply Forall2_cons in R0 as [R0 _]. apply Forall2_cons in R1 as [R1 _].
    lra. }
  assert (setup (Chain.chain 2 3) (Chain.start direct) = Ok Chain.after_setup)
    as Hsetup.
  { unfold setup. rewrite Hparent. simpl. unfold setup_enumerate.
    destruct recursion_limit as [|n]; [lia|].
    simpl. rewrite lookup_insert_eq, Hedges. vm_compute. reflexivity. }
  assert (_assemble_direct Chain.scope "driver" (workflow (Chain.chain 2 3)) 0 ""
            None Chain.after_setup = Ok (2, Chain.assembled)) as Hasm
    by (vm_compute; reflexivity).
  exists (with_gradient [[0 + (0 * x0 + (1 * x1 + 0))]]%Q Chain.assembled),
         (0 + (0 * x0 + (1 * x1 + 0)))%Q.
  split.
  { unfold calc_gradient. apply bind_Ok. exists Chain.after_setup.
    split; [rewrite Hcached; exact Hsetup|].
    apply bind_Ok. exists Chain.assembled. split.
    - change (mode Chain.after_setup) with direct. cbv iota.
      apply bind_Ok. exists (2, Chain.assembled). split; [exact Hasm | reflexivity].
    - unfold _solve. change (LHS Chain.assembled) with [[1; 0]; [-3; 1]]%Q.
      change (RHS Chain.assembled) with [[2]; [0]]%Q. rewrite Hsolve. reflexivity. }
  repeat split; try reflexivity; try assumption; lra.
Qed.

End ChainRule.

Lemma chain_rule_two_unknowns_witness :
  ∃ s g,
    @calc_gradient (framework Chain.edges (λ _ _, 1%Q)) (Chain.chain 2 3)
      (Chain.start direct) = Ok s ∧
    var_list s = ["compa.a"; "compb.b"] ∧
    LHS s = [[1; 0]; [-3; 1]]%Q ∧
    RHS s = [[2]; [0]]%Q ∧
    (2 == 2)%Q ∧ (6 == 6)%Q ∧
    get_derivative s "b" "compa.param" = Ok g ∧ (g == 2 * 3)%Q ∧ (g == 6)%Q.
Proof.
  apply (@chain_rule_two_unknowns (framework Chain.edges (λ _ _, 1%Q)) 2 6).
  - reflexivity.
  - reflexivity.
  - reflexivity.
  - simpl. lia.
  - vm_compute. reflexivity.
  - exists [[2]; [0]]%Q. split; [vm_compute; reflexivity|].
    repeat constructor.
Defined.

(** ** What [setup] leaves in the matrices of the system *)

Lemma for_each_preserves {A S B} (f : S → B) (body : A → S → result S) (l : list A) :
  (∀ x s s', body x s = Ok s' → f s' = f s) →
  ∀ s s', for_each body l s = Ok s' → f s' = f s.
Proof.
  intros Hbody. induction l as [|x l IH]; intros s s' Hrun; simpl in Hrun.
  - congruence.
  - apply bind_Ok in Hrun as (mid & Hstep & Hrest).
    rewrite (IH _ _ Hrest). eapply Hbody, Hstep.
Qed.

Lemma route_system (store : matrix → nat → nat → Q → result matrix) (i : nat)
    (item : string * Q) (s s' : Analytic) :
  route store i item s = Ok s' →
  (LHS s', RHS s', var_list s', mode s', param_names s') =
  (LHS s, RHS s, var_list s, mode s, param_names s).
Proof.
  unfold route. intros Hroute.
  destruct (member item.1 (param_names s)).
  - apply bind_Ok in Hroute as (j & _ & Hroute).
    apply bind_Ok in Hroute as (M & _ & [= <-]). reflexivity.
  - destruct (member item.1 (var_list s)).
    + apply bind_Ok in Hroute as (j & _ & Hroute).
      apply bind_Ok in Hroute as (M & _ & [= <-]). reflexivity.
    + congruence.
Qed.

Lemma setup_functions_system (m : model) (s s' : Analytic) :
  setup_functions m s = Ok s' →
  (LHS s', RHS s', var_list s', mode s', param_names s') =
  (LHS s, RHS s, var_list s, mode s, param_names s).
Proof.
  unfold setup_functions. intros Hrun.
  apply bind_Ok in Hrun as (st1 & Hobj & Hrun).
  apply bind_Ok in Hrun as (st2 & Hcon & [= <-]).
  pose (g := λ a : Analytic, (LHS a, RHS a, var_list a, mode a, param_names a)).
  pose (f := λ st : nat * Analytic, g st.2).
  assert (∀ store i item a b, route store i item a = Ok b → g b = g a) as Hroute
    by (intros store i item a b; apply route_system).
  change (f st2 = f (0, s)).
  transitivity (f st1).
  - revert Hcon. apply (for_each_preserves f). intros con st st' Hstep.
    unfold setup_constraint in Hstep. destruct (con.2 _) as [[lhs rhs] cmp].
    apply bind_Ok in Hstep as (s1 & H1 & Hstep).
    apply bind_Ok in Hstep as (s2 & H2 & [= <-]). unfold f. simpl.
    transitivity (g s1).
    + revert H2. apply (for_each_preserves g). intros item a b. apply Hroute.
    + revert H1. apply (for_each_preserves g). intros item a b. apply Hroute.
  - revert Hobj. apply (for_each_preserves f). intros obj st st' Hstep.
    unfold setup_objective in Hstep.
    apply bind_Ok in Hstep as (s1 & H1 & [= <-]). unfold f. simpl.
    revert H1. apply (for_each_preserves g). intros item a b. apply Hroute.
Qed.

(** ** The passes of [calc_gradient] *)

Section Passes.
Context `{FW : Framework}.

(** In direct mode a call is one assembly pass, from the instance the setup
    leaves, followed by one linear solve. *)
Lemma direct_call_assembles (m : model) (self ready : Analytic) :
  (if parent_cached self then Ok self else setup m self) = Ok ready →
  mode ready = direct →
  calc_gradient m self =
    (r ← _assemble_direct (parent_scope m) (d_pathname (parent m)) (workflow m)
           0 "" None ready;
     _solve r.2).
Proof.
  intros Hready Hmode. unfold calc_gradient. rewrite Hready. simpl.
  rewrite Hmode. destruct (_assemble_direct _ _ _ _ _ _ _) as [r|e]; reflexivity.
Qed.

(** C3.  In adjoint mode a call of [calc_gradient] makes no assembly pass.
    Whatever the model and the local derivatives of its components, once
    [setup] has returned the instance [ready], the call is the linear solve
    alone on that instance, whose [LHS] and [RHS] are the zero matrices
    [setup] has just allocated, of the sizes of the variable list and of the
    parameter list: no local derivative is written to them, and the solver
    is handed a system of zeros. *)
Theorem adjoint_call_solves_zero_system (m : model) (self ready : Analytic) :
  parent_cached self = false →
  setup m self = Ok ready →
  mode ready = adjoint →
  LHS ready = zeros (length (var_list ready)) (length (var_list ready)) ∧
  RHS ready = zeros (length (var_list ready)) (length (param_names ready)) ∧
  calc_gradient m self = _solve ready.
Proof.
  intros Hcached Hready Hmode. split; [|split].
  - unfold setup in Hready.
    apply bind_Ok in Hready as (s1 & _ & Hready).
    apply bind_Ok in Hready as (s2 & _ & Hfun).
    apply setup_functions_system in Hfun. simpl in Hfun.
    injection Hfun as -> _ -> _ _. reflexivity.
  - unfold setup in Hready.
    apply bind_Ok in Hready as (s1 & _ & Hready).
    apply bind_Ok in Hready as (s2 & _ & Hfun).
    apply setup_functions_system in Hfun. simpl in Hfun.
    injection Hfun as _ -> -> _ ->. reflexivity.
  - unfold calc_gradient. rewrite Hcached, Hready. simpl. rewrite Hmode. reflexivity.
Qed.

End Passes.

Lemma adjoint_call_solves_zero_system_witness :
  LHS Chain.after_adjoint_setup = zeros 2 2 ∧
  RHS Chain.after_adjoint_setup = zeros 2 1 ∧
  @calc_gradient (framework Chain.edges (λ _ _, 1%Q)) (Chain.chain 2 3)
    (Chain.start adjoint) =
  @_solve (framework Chain.edges (λ _ _, 1%Q)) Chain.after_adjoint_setup.
Proof.
  apply (@adjoint_call_solves_zero_system (framework Chain.edges (λ _ _, 1%Q))
           (Chain.chain 2 3) (Chain.start adjoint) Chain.after_adjoint_setup).
  - reflexivity.
  - vm_compute. reflexivity.
  - reflexivity.
Defined.

(** On the chain in adjoint mode the solver is handed the zero matrix and
    reports it singular; in direct mode the same model gives the gradient 6. *)
Example adjoint_chain_is_singular :
  @calc_gradient (framework Chain.edges (λ _ _, 1%Q)) (Chain.chain 2 3)
    (Chain.start adjoint) = Raise LinAlgError ∧
  gradient <$> @calc_gradient (framework Chain.edges (λ _ _, 1%Q)) (Chain.chain 2 3)
                 (Chain.start direct) = Ok [[6]]%Q.
Proof. split; vm_compute; reflexivity. Qed.

(** ** A boundary input that is a parameter *)

(** The statement that writes the right-hand side of a boundary input reads
    [local_derivs] and [output_name], which the branch of the assemblies never
    binds: with no component before the assembly in the same workflow the row
    cannot be written. *)
Lemma boundary_parameter_unbound `{FW : Framework}
    (store : matrix → nat → nat → Q → result matrix) (ascope : assembly_data)
    (head name input_name : string) (i_eq : nat) (self : Analytic) :
  member (dotted name input_name) (param_names self) = true →
  assembly_input_row store ascope head name input_name (unbound, i_eq, self)
    = Raise IndexError ∨
  assembly_input_row store ascope head name input_name (unbound, i_eq, self)
    = Raise UnboundLocalError.
Proof.
  intros Hmem. unfold assembly_input_row.
  destruct (setitem2 (LHS self) i_eq i_eq 1) as [L|e] eqn:E; simpl.
  - right. rewrite Hmem.
    destruct (index_present (param_names self) (dotted name input_name)) as [j ->];
      [|reflexivity].
    unfold member in Hmem. apply bool_decide_eq_true in Hmem. exact Hmem.
  - left. unfold setitem2 in E.
    destruct (LHS self !! i_eq) as [row|]; simpl in E.
    + destruct (decide (i_eq < length row)); congruence.
    + congruence.
Qed.

(** C4, evaluated.  With the sub-assembly alone in the workflow and its
    boundary input [sub.x] a parameter, [calc_gradient] raises
    [UnboundLocalError].  With the component [compa] before it, the pass
    returns, and the entry written for [sub.x] is 7, the derivative of
    [compa.a] with respect to [compa]'s own input [x]. *)
Theorem boundary_parameter_input_fails :
  @calc_gradient (framework Boundary.edges_alone (λ _ _, 1%Q)) Boundary.alone
    Boundary.start = Raise UnboundLocalError ∧
  (ready ← @setup (framework Boundary.edges_after_component (λ _ _, 1%Q))
             Boundary.after_component Boundary.start_after_component;
   r ← @_assemble_direct (framework Boundary.edges_after_component (λ _ _, 1%Q))
         Chain.scope "driver" (workflow Boundary.after_component) 0 "" None ready;
   Ok (var_list r.2, RHS r.2)) =
  Ok (["compa.a"; "sub.x"], [[2; 0]; [0; 7]]%Q).
Proof. split; vm_compute; reflexivity. Qed.

(** ** The rule that files one input of a component *)

Section Precedence.
Context `{FW : Framework}.

(** C10, as the program has it.  One input of a component is filed by exactly
    one of three rules, tried in this order.  (a) Its full name is in the
    parameter list: the local derivative goes to [RHS] and nothing else is
    written.  (b) Otherwise its full name is a key of the map of the enclosing
    solver: the negated local derivative goes to the [LHS] column of the
    variable the map pairs with it, and the scope's connections are not
    consulted.  (c) Only otherwise is the connection into the input resolved,
    and the rule fails when there is none.  The keys of the solver's map are
    the independents of its equations, the members of the solver's parameter
    list, and the values are the dependents. *)
Theorem component_input_precedence (ascope : assembly_data) (head name : string)
    (conns : option (gmap string string)) (derivs : gmap string (gmap string Q))
    (out : string) (i_eq : nat) (inp : string) (fr : frame) (self : Analytic) :
  (member (dotted name inp) (param_names self) = true →
   component_input setitem2 ascope head name conns derivs out i_eq inp (fr, self) =
     (i_param ← index (param_names self) (dotted name inp);
      v ← local_deriv derivs out inp;
      R ← setitem2 (RHS self) i_eq i_param v;
      Ok (fr, with_RHS R self))) ∧
  (member (dotted name inp) (param_names self) = false →
   ∀ dict source,
     conns = Some dict → dict !! dotted name inp = Some source →
     component_input setitem2 ascope head name conns derivs out i_eq inp (fr, self) =
       (i_dep ← index (var_list self) source;
        v ← local_deriv derivs out inp;
        L ← setitem2 (LHS self) i_eq i_dep (- v)%Q;
        Ok (fr, with_LHS L self))) ∧
  (member (dotted name inp) (param_names self) = false →
   conns ≫= (λ dict : gmap string string, dict !! dotted name inp) = None →
   connections_to ascope (dotted name inp) = [] →
   component_input setitem2 ascope head name conns derivs out i_eq inp (fr, self) =
     Raise IndexError) ∧
  (∀ params comps dict dict',
     solver_equation params comps dict = Ok dict' →
     ∃ indep dep,
       indep ∈ params ∧ dict' = <[indep := dep]> dict ∧
       (comps !! 0 = Some indep ∧ comps !! 1 = Some dep ∨
        comps !! 0 = Some dep ∧ comps !! 1 = Some indep)).
Proof.
  unfold component_input. repeat split.
  - intros ->. reflexivity.
  - intros -> dict source -> Hkey. simpl. rewrite Hkey. reflexivity.
  - intros -> -> ->. reflexivity.
  - intros params comps dict dict'. unfold solver_equation, member.
    destruct (comps !! 0) as [c0|]; [|discriminate].
    destruct (comps !! 1) as [c1|]; simpl.
    + destruct (bool_decide (c0 ∈ params)) eqn:E0.
      * intros [= <-]. apply bool_decide_eq_true in E0. exists c0, c1. auto.
      * destruct (bool_decide (c1 ∈ params)) eqn:E1; [|discriminate].
        intros [= <-]. apply bool_decide_eq_true in E1. exists c1, c0. auto.
    + destruct (bool_decide (c0 ∈ params)); discriminate.
Qed.

End Precedence.

Lemma component_input_precedence_witness :
  @component_input (framework Chain.edges (λ _ _, 1%Q)) setitem2 Chain.scope ""
    "compa" None (Chain.first_derivatives_of (Chain.compa 2)) "a" 0 "param"
    (unbound, Chain.after_setup) = Ok (unbound, with_RHS [[2]; [0]]%Q Chain.after_setup) ∧
  @component_input (framework Chain.edges (λ _ _, 1%Q)) setitem2
    SolverLoop.unconnected "" "c" (Some SolverLoop.solver_dict) SolverLoop.derivs
    "out" 1 "x" (unbound, SolverLoop.prepared) =
    Ok (unbound, with_LHS [[0; 0; 0]; [0; 0; -5]; [0; 0; 0]]%Q SolverLoop.prepared) ∧
  @component_input (framework Chain.edges (λ _ _, 1%Q)) setitem2
    SolverLoop.unconnected "" "d" (Some SolverLoop.solver_dict) SolverLoop.derivs
    "out" 1 "inp" (unbound, SolverLoop.prepared) = Raise IndexError ∧
  ∃ indep dep,
    indep ∈ d_parameters SolverLoop.solver ∧
    SolverLoop.solver_dict = <[indep := dep]> ∅ ∧
    (["c.x"; "d.inp"] !! 0 = Some indep ∧ ["c.x"; "d.inp"] !! 1 = Some dep ∨
     ["c.x"; "d.inp"] !! 0 = Some dep ∧ ["c.x"; "d.inp"] !! 1 = Some indep).
Proof.
  split; [|split; [|split]].
  - rewrite (proj1 (@component_input_precedence (framework Chain.edges (λ _ _, 1%Q))
               Chain.scope "" "compa" None (Chain.first_derivatives_of (Chain.compa 2)) "a"
               0 "param" unbound Chain.after_setup)) by reflexivity.
    vm_compute. reflexivity.
  - rewrite (proj1 (proj2 (@component_input_precedence
               (framework Chain.edges (λ _ _, 1%Q)) SolverLoop.unconnected "" "c"
               (Some SolverLoop.solver_dict) SolverLoop.derivs "out" 1 "x" unbound
               SolverLoop.prepared)) eq_refl SolverLoop.solver_dict "d.inp" eq_refl
               eq_refl).
    vm_compute. reflexivity.
  - apply (proj1 (proj2 (proj2 (@component_input_precedence
             (framework Chain.edges (λ _ _, 1%Q)) SolverLoop.unconnected "" "d"
             (Some SolverLoop.solver_dict) SolverLoop.derivs "out" 1 "inp" unbound
             SolverLoop.prepared)))); reflexivity.
  - apply (proj2 (proj2 (proj2 (@component_input_precedence
             (framework Chain.edges (λ _ _, 1%Q)) Chain.scope "" "" None ∅ "" 0 ""
             unbound Chain.after_setup))) (d_parameters SolverLoop.solver)
             ["c.x"; "d.inp"] ∅).
    vm_compute. reflexivity.
Defined.

(** The rule of the solver is keyed by the independents only.  In the solver of
    [SolverLoop] the dependent of the equation is [d.inp], an input of the
    component [d] that is no parameter.  It is not filed by the solver's
    rule: its connection is resolved, the term lands in the column of the
    upstream variable [up.y], and without a connection the rule fails. *)
Lemma dependent_input_resolved_externally :
  for_each (solver_equation (d_parameters SolverLoop.solver))
    (d_eq_constraints SolverLoop.solver) ∅ = Ok SolverLoop.solver_dict ∧
  SolverLoop.solver_dict !! "c.x" = Some "d.inp" ∧
  member "d.inp" (param_names SolverLoop.prepared) = false ∧
  @component_input (framework Chain.edges (λ _ _, 1%Q)) setitem2
    SolverLoop.connected "" "d" (Some SolverLoop.solver_dict) SolverLoop.derivs
    "out" 1 "inp" (unbound, SolverLoop.prepared) =
    Ok (bind_connection "up.y" "d.inp" unbound,
        with_LHS [[0; 0; 0]; [-5; 0; 0]; [0; 0; 0]]%Q SolverLoop.prepared) ∧
  @component_input (framework Chain.edges (λ _ _, 1%Q)) setitem2
    SolverLoop.unconnected "" "d" (Some SolverLoop.solver_dict) SolverLoop.derivs
    "out" 1 "inp" (unbound, SolverLoop.prepared) = Raise IndexError.
Proof. repeat split; vm_compute; reflexivity. Qed.

(** ** A connection that crosses a unit boundary *)

Section UnitConversion.
Context `{FW : Framework}.










End UnitConversion.


(** In binary64 the doubling is exact for the entry and is not for the
    total derivative.  For [db = 0.7] (the double nearest to it), [da = 3] and
    the factor 2 the entry is [-1.4], twice the entry [-0.7] of the chain
    without units.  The solve pivots on it, since it is larger than 1, and
    returns 4.2000000000000002 for the derivative of [b] with respect to the
    parameter; without units no rows are swapped and the derivative is
    2.0999999999999996, whose double is 4.1999999999999993. *)
Section Binary64Run.
Import PrimFloat.


End Binary64Run.

(** The whole pipeline on the chain with the reference solver: with the
    factor 2 the derivative of [b] with respect to the parameter is 12, twice
    the 6 of the unconverted chain. *)
Example units_chain_doubles :
  (s ← @calc_gradient (framework Chain.edges (Units.factor 2)) (Units.chain 2 3)
         (Chain.start direct);
   Ok (LHS s, gradient s)) = Ok ([[1; 0]; [-6; 1]]%Q, [[12]]%Q) ∧
  (s ← @calc_gradient (framework Chain.edges (Units.factor 2)) (Chain.chain 2 3)
         (Chain.start direct);
   Ok (LHS s, gradient s)) = Ok ([[1; 0]; [-3; 1]]%Q, [[6]]%Q).
Proof. split; vm_compute; reflexivity. Qed.

(** ** Nested drivers without solver capability *)

Lemma for_each_app {A S} (body : A → S → result S) (l1 l2 : list A) (s : S) :
  for_each body (l1 ++ l2)%list s = for_each body l1 s ≫= for_each body l2.
Proof.
  revert s. induction l1 as [|x l1 IH]; intros s; simpl; [reflexivity|].
  destruct (body x s) as [s'|e]; simpl; [apply IH | reflexivity].
Qed.


Section Unsupported.
Context `{FW : Framework}.





End Unsupported.



(** ** The diagonal of the rows the assembler opens *)

(** Induction on a node with the hypothesis for every node of its workflow. *)
Lemma node_workflow_ind (P : node → Prop) :
  (∀ name c, P (Component name c)) →
  (∀ name d wf, Forall P wf → P (Driver name d wf)) →
  (∀ name a d wf, Forall P wf → P (Assembly name a d wf)) →
  ∀ n, P n.
Proof.
  intros HC HD HA.
  fix IH 1. intros [name c|name d wf|name a d wf].
  - apply HC.
  - apply HD. induction wf as [|n wf IHwf]; constructor; [apply IH | exact IHwf].
  - apply HA. induction wf as [|n wf IHwf]; constructor; [apply IH | exact IHwf].
Qed.

Lemma guarded_store_Ok (M M' : matrix) (i j : nat) (v : Q) :
  guarded_store M i j v = Ok M' → i ≠ j ∧ setitem2 M i j v = Ok M'.
Proof. unfold guarded_store. destruct (decide (i = j)); [discriminate | auto]. Qed.

Lemma opened_rows_refl (i : nat) (s : Analytic) : opened_rows i s i s.
Proof. split; [lia|]. split; [intros r Hr; lia | reflexivity]. Qed.

Lemma opened_rows_trans (i j k : nat) (s t u : Analytic) :
  opened_rows i s j t → opened_rows j t k u → opened_rows i s k u.
Proof.
  intros (Hij & Hd1 & Hf1) (Hjk & Hd2 & Hf2). split; [|split].
  - lia.
  - intros r Hr. destruct (decide (r < j)) as [Hlt|Hge].
    + rewrite Hf2 by lia. apply Hd1. lia.
    + apply Hd2. lia.
  - intros r c Hr. rewrite Hf2 by lia. apply Hf1. lia.
Qed.

Lemma within_row_refl (i : nat) (s : Analytic) : within_row i s s.
Proof. split; reflexivity. Qed.

Lemma within_row_trans (i : nat) (s t u : Analytic) :
  within_row i s t → within_row i t u → within_row i s u.
Proof.
  intros [Hd1 Hf1] [Hd2 Hf2]. split.
  - congruence.
  - intros r c Hr. rewrite Hf2, Hf1 by exact Hr. reflexivity.
Qed.

Lemma within_row_store (i j : nat) (v : Q) (s : Analytic) (L : matrix) :
  i ≠ j → setitem2 (LHS s) i j v = Ok L → within_row i s (with_LHS L s).
Proof.
  intros Hne Hset. split; simpl.
  - eapply getitem2_setitem2_ne; [exact Hset | congruence].
  - intros r c Hr. eapply getitem2_setitem2_row; [exact Hset | exact Hr].
Qed.

(** Opening the row [i] and then staying within it. *)
Lemma opened_row (i : nat) (s s' : Analytic) (L : matrix) :
  setitem2 (LHS s) i i 1%Q = Ok L →
  within_row i (with_LHS L s) s' →
  opened_rows i s (S i) s'.
Proof.
  intros Hset [Hd Hf]. split; [|split].
  - lia.
  - intros r Hr. assert (r = i) as -> by lia. rewrite Hd. simpl.
    eapply getitem2_setitem2_eq, Hset.
  - intros r c Hr. rewrite Hf by lia. simpl.
    eapply getitem2_setitem2_row; [exact Hset | lia].
Qed.

(** A loop whose guarded body refines the plain body, element by element. *)
Lemma for_each_refines {A S} (R : S → S → Prop) (guarded plain : A → S → result S)
    (l : list A) :
  (∀ s, R s s) →
  (∀ s t u, R s t → R t u → R s u) →
  Forall (λ x, ∀ s s', guarded x s = Ok s' → plain x s = Ok s' ∧ R s s') l →
  ∀ s s', for_each guarded l s = Ok s' → for_each plain l s = Ok s' ∧ R s s'.
Proof.
  intros Hrefl Htrans Hbody.
  induction Hbody as [|x l Hx Hl IH]; intros s s' Hrun.
  - injection Hrun as <-. auto.
  - change (guarded x s ≫= for_each guarded l = Ok s') in Hrun.
    change (plain x s ≫= for_each plain l = Ok s' ∧ R s s').
    apply bind_Ok in Hrun as (mid & Hstep & Hrest).
    destruct (Hx _ _ Hstep) as [-> R1]. destruct (IH _ _ Hrest) as [E2 R2].
    split; [exact E2 | eauto].
Qed.

Section Diagonal.
Context `{FW : Framework}.

Lemma component_input_refines ascope head name conns derivs out i_eq inp st st' :
  component_input guarded_store ascope head name conns derivs out i_eq inp st = Ok st' →
  component_input setitem2 ascope head name conns derivs out i_eq inp st = Ok st' ∧
  input_rel i_eq st st'.
Proof.
  destruct st as [fr self]. unfold component_input, input_rel.
  destruct (member _ _).
  - intros Hrun. split; [exact Hrun|].
    apply bind_Ok in Hrun as (j & _ & Hrun).
    apply bind_Ok in Hrun as (v & _ & Hrun).
    apply bind_Ok in Hrun as (R & _ & [= <-]). split; reflexivity.
  - destruct (conns ≫= _) as [source|].
    + intros Hrun.
      apply bind_Ok in Hrun as (j & Hj & Hrun).
      apply bind_Ok in Hrun as (v & Hv & Hrun).
      apply bind_Ok in Hrun as (L & HL & [= <-]).
      apply guarded_store_Ok in HL as [Hne HL].
      rewrite Hj. simpl. rewrite Hv. simpl. rewrite HL. simpl.
      split; [reflexivity|]. eapply within_row_store; eassumption.
    + intros Hrun.
      apply bind_Ok in Hrun as (first & Hfirst & Hrun). rewrite Hfirst. simpl in *.
      apply bind_Ok in Hrun as (expr & Hexpr & Hrun). rewrite Hexpr. simpl.
      apply bind_Ok in Hrun as (source & Hsource & Hrun). rewrite Hsource. simpl.
      apply bind_Ok in Hrun as (d & Hd & Hrun). rewrite Hd. simpl.
      apply bind_Ok in Hrun as (j & Hj & Hrun). rewrite Hj. simpl.
      apply bind_Ok in Hrun as (v & Hv & Hrun). rewrite Hv. simpl.
      apply bind_Ok in Hrun as (L & HL & [= <-]).
      apply guarded_store_Ok in HL as [Hne HL]. rewrite HL. simpl.
      split; [reflexivity|]. eapply within_row_store; eassumption.
Qed.

Lemma component_row_refines ascope head name conns derivs inputs out st st' :
  component_row guarded_store ascope head name conns derivs inputs out st = Ok st' →
  component_row setitem2 ascope head name conns derivs inputs out st = Ok st' ∧
  rows_rel st st'.
Proof.
  destruct st as [[fr i_eq] self]. unfold component_row, rows_rel.
  intros Hrun.
  apply bind_Ok in Hrun as (L & HL & Hrun). rewrite HL. simpl.
  apply bind_Ok in Hrun as (st1 & Hloop & [= <-]).
  apply (for_each_refines (input_rel i_eq) _
           (component_input setitem2 ascope head name conns derivs out i_eq)) in Hloop
    as [-> Hrel].
  - split; [reflexivity|]. simpl. eapply opened_row; [exact HL | exact Hrel].
  - intros s. apply within_row_refl.
  - intros s t u. apply within_row_trans.
  - apply Forall_forall. intros inp _ s s'. apply component_input_refines.
Qed.

Lemma assembly_input_row_refines ascope head name inp st st' :
  assembly_input_row guarded_store ascope head name inp st = Ok st' →
  assembly_input_row setitem2 ascope head name inp st = Ok st' ∧ rows_rel st st'.
Proof.
  destruct st as [[fr i_eq] self]. unfold assembly_input_row, rows_rel.
  intros Hrun.
  apply bind_Ok in Hrun as (L & HL & Hrun). rewrite HL. simpl in *.
  destruct (member _ _).
  - split; [exact Hrun|].
    apply bind_Ok in Hrun as (j & _ & Hrun).
    apply bind_Ok in Hrun as (derivs & _ & Hrun).
    apply bind_Ok in Hrun as (out & _ & Hrun).
    apply bind_Ok in Hrun as (v & _ & Hrun).
    apply bind_Ok in Hrun as (R & _ & [= <-]). simpl.
    eapply opened_row; [exact HL|]. split; reflexivity.
  - apply bind_Ok in Hrun as (first & Hfirst & Hrun). rewrite Hfirst. simpl.
    apply bind_Ok in Hrun as (expr & Hexpr & Hrun). rewrite Hexpr. simpl.
    apply bind_Ok in Hrun as (source & Hsource & Hrun). rewrite Hsource. simpl.
    apply bind_Ok in Hrun as (d & Hd & Hrun). rewrite Hd. simpl.
    apply bind_Ok in Hrun as (j & Hj & Hrun). rewrite Hj. simpl.
    apply bind_Ok in Hrun as (L' & HL' & [= <-]).
    apply guarded_store_Ok in HL' as [Hne HL']. simpl in HL'. rewrite HL'. simpl.
    split; [reflexivity|].
    eapply opened_row; [exact HL|].
    apply (within_row_store i_eq j _ (with_LHS L self) L' Hne HL').
Qed.

Lemma assembly_output_row_refines sub_scope head name out st st' :
  assembly_output_row guarded_store sub_scope head name out st = Ok st' →
  assembly_output_row setitem2 sub_scope head name out st = Ok st' ∧ rows_rel st st'.
Proof.
  destruct st as [[fr i_eq] self]. unfold assembly_output_row, rows_rel.
  intros Hrun.
  apply bind_Ok in Hrun as (L & HL & Hrun). rewrite HL. simpl in *.
  apply bind_Ok in Hrun as (tgt & Htgt & Hrun). rewrite Htgt. simpl.
  apply bind_Ok in Hrun as (txt & Htxt & Hrun). rewrite Htxt. simpl.
  apply bind_Ok in Hrun as (expr & Hexpr & Hrun). rewrite Hexpr. simpl.
  apply bind_Ok in Hrun as (source & Hsource & Hrun). rewrite Hsource. simpl.
  apply bind_Ok in Hrun as (d & Hd & Hrun). rewrite Hd. simpl.
  apply bind_Ok in Hrun as (j & Hj & Hrun). rewrite Hj. simpl.
  apply bind_Ok in Hrun as (L' & HL' & [= <-]).
  apply guarded_store_Ok in HL' as [Hne HL']. simpl in HL'. rewrite HL'. simpl.
  split; [reflexivity|].
  eapply opened_row; [exact HL|].
  apply (within_row_store i_eq j _ (with_LHS L self) L' Hne HL').
Qed.

Lemma rows_rel_refl st : rows_rel st st.
Proof. apply opened_rows_refl. Qed.

Lemma rows_rel_trans s t u : rows_rel s t → rows_rel t u → rows_rel s u.
Proof. apply opened_rows_trans. Qed.

Lemma assemble_node_refines (n : node) :
  ∀ ascope scope_name head conns st st',
    assemble_node guarded_store ascope scope_name head conns n st = Ok st' →
    assemble_node setitem2 ascope scope_name head conns n st = Ok st' ∧
    rows_rel st st'.
Proof.
  induction n as [name c|name d wf IH|name a d wf IH] using node_workflow_ind;
    intros ascope scope_name head conns st st' Hrun; simpl in *.
  - destruct (has_derivatives c).
    + apply bind_Ok in Hrun as (ed & Hed & Hloop). rewrite Hed. simpl.
      apply (for_each_refines rows_rel _
               (component_row setitem2 ascope head name conns (first_derivatives c)
                  ed.1)) in Hloop as [-> Hrel].
      * split; [reflexivity|]. exact Hrel.
      * apply rows_rel_refl.
      * apply rows_rel_trans.
      * apply Forall_forall. intros out _ s s'. apply component_row_refines.
    + injection Hrun as <-. split; [reflexivity | apply rows_rel_refl].
  - destruct (is_solver d); [|discriminate].
    apply bind_Ok in Hrun as (dict & Hdict & Hrun). rewrite Hdict. simpl.
    apply bind_Ok in Hrun as (st1 & Hloop & [= <-]).
    apply (for_each_refines rows_rel _
             (assemble_node setitem2 ascope (d_pathname d) (head_prefix head)
                (Some dict))) in Hloop as [Hplain Hrel].
    + rewrite Hplain. split; [reflexivity | exact Hrel].
    + apply rows_rel_refl.
    + apply rows_rel_trans.
    + eapply Forall_impl; [exact IH|]. intros n Hn s s'. apply Hn.
  - destruct (is_run_once d); [|discriminate].
    apply bind_Ok in Hrun as (ed & Hed & Hrun). rewrite Hed. simpl.
    apply bind_Ok in Hrun as (st1 & Hin & Hrun).
    apply bind_Ok in Hrun as (st2 & Hloop & Hout).
    apply (for_each_refines rows_rel _ (assembly_input_row setitem2 ascope head name))
      in Hin as [-> Hrel1];
      [|apply rows_rel_refl|apply rows_rel_trans
       |apply Forall_forall; intros inp _ s s'; apply assembly_input_row_refines].
    simpl.
    apply (for_each_refines rows_rel _
             (assemble_node setitem2 a (d_pathname d) (head_prefix (a_pathname a))
                None)) in Hloop as [-> Hrel2];
      [|apply rows_rel_refl|apply rows_rel_trans
       |eapply Forall_impl; [exact IH|]; intros n Hn s s'; apply Hn].
    simpl.
    apply (for_each_refines rows_rel _ (assembly_output_row setitem2 a head name))
      in Hout as [-> Hrel3];
      [|apply rows_rel_refl|apply rows_rel_trans
       |apply Forall_forall; intros out _ s s'; apply assembly_output_row_refines].
    split; [reflexivity|].
    eapply rows_rel_trans; [exact Hrel1|].
    eapply rows_rel_trans; [exact Hrel2|]. exact Hrel3.
Qed.

(** A pass that also returns with the guarded store is the pass of the
    program; the rows from [eq_num] up to the counter it returns hold 1 on
    the diagonal of [LHS], and no other row of [LHS] was touched. *)
Lemma guarded_pass_rows (ascope : assembly_data) (dscope : string)
    (wf : list node) (eq_num : nat) (head : string)
    (conns : option (gmap string string)) (self : Analytic) (r : nat * Analytic) :
  assemble_workflow guarded_store ascope dscope wf eq_num head conns self = Ok r →
  _assemble_direct ascope dscope wf eq_num head conns self = Ok r ∧
  opened_rows eq_num self r.1 r.2.
Proof.
  unfold _assemble_direct, assemble_workflow. intros Hrun.
  apply bind_Ok in Hrun as (st & Hloop & [= <-]).
  apply (for_each_refines rows_rel _
           (assemble_node setitem2 ascope dscope (head_prefix head) conns))
    in Hloop as [-> Hrel].
  - split; [reflexivity|]. exact Hrel.
  - apply rows_rel_refl.
  - apply rows_rel_trans.
  - apply Forall_forall. intros n _ s s'. apply assemble_node_refines.
Qed.

End Diagonal.

(** * Further properties of the program *)

(** ** Shapes *)

Lemma zeros_shape (n m : nat) : shape_is n m (zeros n m).
Proof.
  unfold shape_is, zeros. split.
  - apply length_replicate.
  - apply Forall_replicate. apply length_replicate.
Qed.

Lemma setitem2_shape (M M' : matrix) (i j : nat) (v : Q) (n m : nat) :
  setitem2 M i j v = Ok M' → shape_is n m M → shape_is n m M'.
Proof.
  intros (row & Hrow & Hj & ->)%setitem2_Ok [Hn Hm]. split.
  - rewrite length_insert. exact Hn.
  - apply Forall_insert; [exact Hm|]. rewrite length_insert.
    eapply Forall_lookup_1 in Hm; [exact Hm | exact Hrow].
Qed.

Lemma additem2_shape (M M' : matrix) (i j : nat) (v : Q) (n m : nat) :
  additem2 M i j v = Ok M' → shape_is n m M → shape_is n m M'.
Proof. intros (old & _ & Hset)%additem2_Ok. eapply setitem2_shape, Hset. Qed.

Lemma shape_getitem2 (M : matrix) (n m i j : nat) :
  shape_is n m M → i < n → j < m → ∃ v, getitem2 M i j = Ok v.
Proof.
  intros [Hn Hm] Hi Hj. unfold getitem2.
  destruct (lookup_lt_is_Some_2 M i) as [row Hrow]; [lia|].
  rewrite Hrow. simpl.
  eapply Forall_lookup_1 in Hm; [|exact Hrow].
  destruct (lookup_lt_is_Some_2 row j) as [v Hv]; [lia|].
  rewrite Hv. eauto.
Qed.

Lemma shape_getrow (M : matrix) (n m i : nat) :
  shape_is n m M → i < n → ∃ row, getrow M i = Ok row ∧ length row = m.
Proof.
  intros [Hn Hm] Hi. unfold getrow.
  destruct (lookup_lt_is_Some_2 M i) as [row Hrow]; [lia|].
  rewrite Hrow. exists row. split; [reflexivity|].
  eapply Forall_lookup_1 in Hm; [exact Hm | exact Hrow].
Qed.

Lemma broadcast_Ok (a b c : nat) :
  broadcast a b = Ok c ↔ (a = b ∧ c = a) ∨ (a ≠ b ∧ a = 1 ∧ c = b) ∨ (a ≠ b ∧ b = 1 ∧ c = a).
Proof.
  unfold broadcast. destruct (decide (a = b)) as [->|Hne].
  - split; [intros [= <-]; auto | intros [[_ ->]|[(H & _)|(H & _)]]; congruence].
  - destruct (decide (a = 1)) as [->|Ha].
    + split; [intros [= <-]; auto|].
      intros [[H _]|[(_ & _ & ->)|(_ & -> & _)]]; congruence.
    + destruct (decide (b = 1)) as [->|Hb].
      * split; [intros [= <-]; auto|].
        intros [[H _]|[(_ & H & _)|(_ & _ & ->)]]; congruence.
      * split; [discriminate|]. intros [[H _]|[(_ & H & _)|(_ & H & _)]]; congruence.
Qed.

Lemma broadcast_same (a : nat) : broadcast a a = Ok a.
Proof. unfold broadcast. rewrite decide_True by reflexivity. reflexivity. Qed.

(** A sum is an array of the broadcast shape. *)
Lemma madd_shape (A : matrix) (wA : nat) (B : matrix) (wB : nat) (g : matrix * nat) :
  madd A wA B wB = Ok g →
  broadcast (length A) (length B) = Ok (length g.1) ∧
  broadcast wA wB = Ok g.2 ∧
  shape_is (length g.1) g.2 g.1.
Proof.
  unfold madd. intros Hrun.
  apply bind_Ok in Hrun as (rows & Hrows & Hrun).
  apply bind_Ok in Hrun as (cols & Hcols & [= <-]). simpl.
  rewrite length_fmap, length_seq.
  split; [exact Hrows|]. split; [exact Hcols|]. split.
  - rewrite length_fmap, length_seq. reflexivity.
  - apply Forall_fmap, Forall_forall. intros i _. simpl.
    rewrite length_fmap, length_seq. reflexivity.
Qed.

(** The cells of a sum. *)
Lemma madd_cell (A : matrix) (wA : nat) (B : matrix) (wB : nat) (g : matrix * nat)
    (i j : nat) :
  madd A wA B wB = Ok g → i < length g.1 → j < g.2 →
  getitem2 g.1 i j = Ok (stretched A wA i j + stretched B wB i j)%Q.
Proof.
  unfold madd. intros Hrun.
  apply bind_Ok in Hrun as (rows & Hrows & Hrun).
  apply bind_Ok in Hrun as (cols & Hcols & [= <-]). simpl.
  rewrite length_fmap, length_seq. intros Hi Hj. unfold getitem2.
  rewrite list_lookup_fmap, lookup_seq_lt by exact Hi. simpl.
  rewrite list_lookup_fmap, lookup_seq_lt by exact Hj. reflexivity.
Qed.

(** A cell of an operand that is there is the cell the sum reads. *)
Lemma stretched_cell (A : matrix) (wA : nat) (i j : nat) (z : Q) :
  getitem2 A i j = Ok z → j < wA → stretched A wA i j = z.
Proof.
  unfold getitem2, stretched. intros Hz Hj.
  destruct (A !! i) as [row|] eqn:Hrow; [|discriminate]. simpl in Hz.
  apply or_raise_Ok in Hz.
  assert ((if decide (length A = 1) then 0 else i) = i) as ->.
  { destruct (decide _) as [E|]; [|reflexivity].
    apply lookup_lt_Some in Hrow. lia. }
  assert ((if decide (wA = 1) then 0 else j) = j) as ->.
  { destruct (decide _); [lia | reflexivity]. }
  rewrite Hrow. simpl. rewrite Hz. reflexivity.
Qed.

(** A loop keeps what every run of its body keeps. *)
Lemma for_each_invariant {A S} (P : S → Prop) (body : A → S → result S) (l : list A) :
  (∀ x s s', body x s = Ok s' → P s → P s') →
  ∀ s s', for_each body l s = Ok s' → P s → P s'.
Proof.
  intros Hbody. induction l as [|x l IH]; intros s s' Hrun Hs.
  - injection Hrun as <-. exact Hs.
  - change (body x s ≫= for_each body l = Ok s') in Hrun.
    apply bind_Ok in Hrun as (mid & Hstep & Hrest).
    eapply IH; [exact Hrest|]. eapply Hbody; eassumption.
Qed.

(** ** What [setup] allocates *)

Lemma route_functions_part (store : matrix → nat → nat → Q → result matrix)
    (i : nat) (item : string * Q) (s s' : Analytic) :
  route store i item s = Ok s' → functions_part s' = functions_part s.
Proof.
  unfold route. intros Hroute.
  destruct (member item.1 (param_names s)).
  - apply bind_Ok in Hroute as (j & _ & Hroute).
    apply bind_Ok in Hroute as (M & _ & [= <-]). reflexivity.
  - destruct (member item.1 (var_list s)).
    + apply bind_Ok in Hroute as (j & _ & Hroute).
      apply bind_Ok in Hroute as (M & _ & [= <-]). reflexivity.
    + congruence.
Qed.

Lemma route_shapes (store : matrix → nat → nat → Q → result matrix)
    (i : nat) (item : string * Q) (s s' : Analytic) (q n p : nat) :
  (∀ M M' a b v k l, store M a b v = Ok M' → shape_is k l M → shape_is k l M') →
  route store i item s = Ok s' →
  shape_is q n (EQS s) ∧ shape_is q p (EQS_zero s) →
  shape_is q n (EQS s') ∧ shape_is q p (EQS_zero s').
Proof.
  intros Hstore Hroute [HE HZ]. unfold route in Hroute.
  destruct (member item.1 (param_names s)).
  - apply bind_Ok in Hroute as (j & _ & Hroute).
    apply bind_Ok in Hroute as (M & HM & [= <-]). simpl. split; [exact HE|].
    eapply Hstore; eassumption.
  - destruct (member item.1 (var_list s)).
    + apply bind_Ok in Hroute as (j & _ & Hroute).
      apply bind_Ok in Hroute as (M & HM & [= <-]). simpl. split; [|exact HZ].
      eapply Hstore; eassumption.
    + injection Hroute as <-. auto.
Qed.

Lemma setup_functions_keeps (m : model) (s s' : Analytic) (q n p : nat) :
  setup_functions m s = Ok s' →
  functions_part s' = functions_part s ∧
  (shape_is q n (EQS s) ∧ shape_is q p (EQS_zero s) →
   shape_is q n (EQS s') ∧ shape_is q p (EQS_zero s')).
Proof.
  unfold setup_functions. intros Hrun.
  apply bind_Ok in Hrun as (st1 & Hobj & Hrun).
  apply bind_Ok in Hrun as (st2 & Hcon & [= <-]).
  pose (P := λ a : Analytic,
          functions_part a = functions_part s ∧
          (shape_is q n (EQS s) ∧ shape_is q p (EQS_zero s) →
           shape_is q n (EQS a) ∧ shape_is q p (EQS_zero a))).
  assert (∀ store i item a b,
            (∀ M M' a b v k l, store M a b v = Ok M' → shape_is k l M → shape_is k l M') →
            route store i item a = Ok b → P a → P b) as Hroute.
  { intros store i item a b Hstore Hstep [Hf Hs]. split.
    - rewrite (route_functions_part _ _ _ _ _ Hstep). exact Hf.
    - intros H0. eapply route_shapes; eauto. }
  assert (∀ M M' a b v k l, setitem2 M a b v = Ok M' → shape_is k l M → shape_is k l M')
    as Hset by (intros; eapply setitem2_shape; eassumption).
  assert (∀ M M' a b v k l, additem2 M a b v = Ok M' → shape_is k l M → shape_is k l M')
    as Hadd by (intros; eapply additem2_shape; eassumption).
  change (P st2.2).
  eapply (for_each_invariant (λ st : nat * Analytic, P st.2)); [|exact Hcon|].
  - intros con st st' Hstep HP. unfold setup_constraint in Hstep.
    destruct (con.2 _) as [[lhs rhs] cmp].
    apply bind_Ok in Hstep as (s1 & H1 & Hstep).
    apply bind_Ok in Hstep as (s2 & H2 & [= <-]).
    change (P s2).
    eapply (for_each_invariant P); [|exact H2|].
    + intros item a b. apply Hroute, Hadd.
    + eapply (for_each_invariant P); [|exact H1|exact HP].
      intros item a b. apply Hroute, Hadd.
  - eapply (for_each_invariant (λ st : nat * Analytic, P st.2)); [|exact Hobj|].
    + intros obj st st' Hstep HP. unfold setup_objective in Hstep.
      apply bind_Ok in Hstep as (s1 & H1 & [= <-]).
      change (P s1).
      eapply (for_each_invariant P); [|exact H1|exact HP].
      intros item a b. apply Hroute, Hset.
    + split; [reflexivity | auto].
Qed.

Lemma route_cols (store : matrix → nat → nat → Q → result matrix)
    (i : nat) (item : string * Q) (s s' : Analytic) :
  route store i item s = Ok s' → cols_part s' = cols_part s.
Proof.
  unfold route. intros Hroute.
  destruct (member item.1 (param_names s)).
  - apply bind_Ok in Hroute as (j & _ & Hroute).
    apply bind_Ok in Hroute as (M & _ & [= <-]). reflexivity.
  - destruct (member item.1 (var_list s)).
    + apply bind_Ok in Hroute as (j & _ & Hroute).
      apply bind_Ok in Hroute as (M & _ & [= <-]). reflexivity.
    + congruence.
Qed.

Lemma setup_functions_cols (m : model) (s s' : Analytic) :
  setup_functions m s = Ok s' → cols_part s' = cols_part s.
Proof.
  unfold setup_functions. intros Hrun.
  apply bind_Ok in Hrun as (st1 & Hobj & Hrun).
  apply bind_Ok in Hrun as (st2 & Hcon & [= <-]).
  pose (P := λ a : Analytic, cols_part a = cols_part s).
  assert (∀ store i item a b, route store i item a = Ok b → P a → P b) as Hroute.
  { intros store i item a b Hstep Ha. unfold P.
    rewrite (route_cols _ _ _ _ _ Hstep). exact Ha. }
  change (P st2.2).
  eapply (for_each_invariant (λ st : nat * Analytic, P st.2)); [|exact Hcon|].
  - intros con st st' Hstep HP. unfold setup_constraint in Hstep.
    destruct (con.2 _) as [[lhs rhs] cmp].
    apply bind_Ok in Hstep as (s1 & H1 & Hstep).
    apply bind_Ok in Hstep as (s2 & H2 & [= <-]).
    change (P s2).
    eapply (for_each_invariant P); [|exact H2|].
    + intros item a b. apply Hroute.
    + eapply (for_each_invariant P); [|exact H1|exact HP].
      intros item a b. apply Hroute.
  - eapply (for_each_invariant (λ st : nat * Analytic, P st.2)); [|exact Hobj|].
    + intros obj st st' Hstep HP. unfold setup_objective in Hstep.
      apply bind_Ok in Hstep as (s1 & H1 & [= <-]).
      change (P s1).
      eapply (for_each_invariant P); [|exact H1|exact HP].
      intros item a b. apply Hroute.
    + reflexivity.
Qed.

Section SetupShapes.
Context `{FW : Framework}.

Lemma setup_allocates_shapes (m : model) (s s' : Analytic) :
  setup m s = Ok s' →
  shape_is (length (function_names s')) (length (var_list s')) (EQS s') ∧
  shape_is (length (function_names s')) (length (param_names s')) (EQS_zero s').
Proof.
  unfold setup. intros Hrun.
  apply bind_Ok in Hrun as (s1 & _ & Hrun).
  apply bind_Ok in Hrun as (s2 & _ & Hfun).
  apply (setup_functions_keeps m _ _ (length (function_names s2))
           (length (var_list s2)) (length (param_names s2))) in Hfun as [Hpart Hshape].
  unfold functions_part in Hpart. simpl in Hpart.
  injection Hpart as _ Hp Hf _ _ _ _ _ Hv.
  rewrite Hp, Hf, Hv. apply Hshape. split; apply zeros_shape.
Qed.

(** X1.  A [setup] that returns leaves matrices sized by the three lists:
    with [n] unknowns, [p] parameters and [q] functions, [LHS] is the zero
    matrix [n x n], [RHS] the zero matrix [n x p], [gradient] the zero matrix
    [q x p], and [EQS] and [EQS_zero] have [q] rows of [n] and of [p] cells.
    Nothing of what the matrices held before the call survives it. *)
Theorem setup_allocates (m : model) (s s' : Analytic) :
  setup m s = Ok s' →
  LHS s' = zeros (length (var_list s')) (length (var_list s')) ∧
  RHS s' = zeros (length (var_list s')) (length (param_names s')) ∧
  gradient s' = zeros (length (function_names s')) (length (param_names s')) ∧
  shape_is (length (function_names s')) (length (var_list s')) (EQS s') ∧
  shape_is (length (function_names s')) (length (param_names s')) (EQS_zero s').
Proof.
  unfold setup. intros Hrun.
  apply bind_Ok in Hrun as (s1 & _ & Hrun).
  apply bind_Ok in Hrun as (s2 & _ & Hfun).
  apply (setup_functions_keeps m _ _ (length (function_names s2))
           (length (var_list s2)) (length (param_names s2))) in Hfun as [Hpart Hshape].
  unfold functions_part in Hpart. simpl in Hpart.
  injection Hpart as _ Hp Hf _ HL HR _ Hg Hv.
  rewrite Hp, Hf, HL, HR, Hg, Hv.
  destruct Hshape as [HE HZ]; [split; apply zeros_shape|].
  auto.
Qed.

End SetupShapes.

(** ** What the assembly pass leaves alone *)

Lemma for_each_rel {A S} (R : S → S → Prop) (body : A → S → result S) (l : list A) :
  (∀ s, R s s) →
  (∀ s t u, R s t → R t u → R s u) →
  Forall (λ x, ∀ s s', body x s = Ok s' → R s s') l →
  ∀ s s', for_each body l s = Ok s' → R s s'.
Proof.
  intros Hrefl Htrans Hbody.
  induction Hbody as [|x l Hx Hl IH]; intros s s' Hrun.
  - injection Hrun as <-. apply Hrefl.
  - change (body x s ≫= for_each body l = Ok s') in Hrun.
    apply bind_Ok in Hrun as (mid & Hstep & Hrest). eauto.
Qed.

Lemma same_shape_refl (M : matrix) : same_shape M M.
Proof. induction M; constructor; auto. Qed.

Lemma same_shape_trans (A B C : matrix) :
  same_shape A B → same_shape B C → same_shape A C.
Proof.
  intros HAB. revert C. induction HAB as [|a b A B Hab _ IH]; intros C HBC.
  - inversion HBC. constructor.
  - inversion HBC as [|b' c B' C' Hbc HBC']; subst.
    constructor; [congruence | apply IH, HBC'].
Qed.

Lemma setitem2_same_shape (M M' : matrix) (i j : nat) (v : Q) :
  setitem2 M i j v = Ok M' → same_shape M M'.
Proof.
  intros (row & Hrow & Hj & ->)%setitem2_Ok.
  apply Forall2_same_length_lookup. split; [rewrite length_insert; reflexivity|].
  intros k x y Hx Hy. destruct (decide (k = i)) as [->|Hne].
  - rewrite list_lookup_insert_eq in Hy by (eapply lookup_lt_Some, Hrow).
    injection Hy as <-. rewrite length_insert. congruence.
  - rewrite list_lookup_insert_ne in Hy by congruence. congruence.
Qed.

Lemma keeps_refl (s : Analytic) : keeps s s.
Proof.
  split; [reflexivity|]. split; [auto|]. split; [auto|].
  split; [apply same_shape_refl|]. split; [apply same_shape_refl | reflexivity].
Qed.

Lemma keeps_trans (s t u : Analytic) : keeps s t → keeps t u → keeps s u.
Proof.
  intros (H1 & L1 & R1 & SL1 & SR1 & C1) (H2 & L2 & R2 & SL2 & SR2 & C2).
  split; [congruence|]. split; [auto|]. split; [auto|].
  split; [eapply same_shape_trans; eassumption|].
  split; [eapply same_shape_trans; eassumption | congruence].
Qed.

Lemma keeps_with_LHS (s : Analytic) (L : matrix) (i j : nat) (v : Q) :
  setitem2 (LHS s) i j v = Ok L → keeps s (with_LHS L s).
Proof.
  intros Hset. split; [reflexivity|]. simpl. split; [|split; [auto|]].
  - intros n m. eapply setitem2_shape, Hset.
  - split; [eapply setitem2_same_shape, Hset|].
    split; [apply same_shape_refl | reflexivity].
Qed.

Lemma keeps_with_RHS (s : Analytic) (R : matrix) (i j : nat) (v : Q) :
  setitem2 (RHS s) i j v = Ok R → keeps s (with_RHS R s).
Proof.
  intros Hset. split; [reflexivity|]. simpl. split; [auto|]. split.
  - intros n m. eapply setitem2_shape, Hset.
  - split; [apply same_shape_refl|].
    split; [eapply setitem2_same_shape, Hset | reflexivity].
Qed.

Ltac run_steps H :=
  repeat (let x := fresh "x" in let E := fresh "E" in
          apply bind_Ok in H as (x & E & H)).

Section Keeps.
Context `{FW : Framework}.

Lemma component_input_keeps ascope head name conns derivs out i_eq inp st st' :
  component_input setitem2 ascope head name conns derivs out i_eq inp st = Ok st' →
  keeps st.2 st'.2.
Proof.
  destruct st as [fr self]. unfold component_input. intros Hrun.
  destruct (member _ _).
  - run_steps Hrun. injection Hrun as <-. eapply keeps_with_RHS; eassumption.
  - destruct (conns ≫= _) as [source|]; simpl in Hrun.
    + run_steps Hrun. injection Hrun as <-. eapply keeps_with_LHS; eassumption.
    + run_steps Hrun. injection Hrun as <-. eapply keeps_with_LHS; eassumption.
Qed.

Lemma component_row_keeps ascope head name conns derivs inputs out st st' :
  component_row setitem2 ascope head name conns derivs inputs out st = Ok st' →
  keeps st.2 st'.2 ∧ st'.1.2 = S st.1.2.
Proof.
  destruct st as [[fr i_eq] self]. unfold component_row. intros Hrun.
  apply bind_Ok in Hrun as (L & HL & Hrun).
  apply bind_Ok in Hrun as (st1 & Hloop & [= <-]). simpl. split; [|reflexivity].
  eapply keeps_trans; [eapply keeps_with_LHS, HL|].
  apply (for_each_rel (λ a b : frame * Analytic, keeps a.2 b.2)) in Hloop;
    [exact Hloop| intros; apply keeps_refl | intros ? ? ?; apply keeps_trans |].
  apply Forall_forall. intros inp _ s s'. apply component_input_keeps.
Qed.

Lemma assembly_input_row_keeps ascope head name inp st st' :
  assembly_input_row setitem2 ascope head name inp st = Ok st' →
  keeps st.2 st'.2 ∧ st'.1.2 = S st.1.2.
Proof.
  destruct st as [[fr i_eq] self]. unfold assembly_input_row. intros Hrun.
  apply bind_Ok in Hrun as (L & HL & Hrun). simpl in Hrun.
  destruct (member _ _).
  - run_steps Hrun. injection Hrun as <-. simpl. split; [|reflexivity].
    eapply keeps_trans; [eapply keeps_with_LHS, HL|].
    eapply (keeps_with_RHS (with_LHS L self)); eassumption.
  - run_steps Hrun. injection Hrun as <-. simpl. split; [|reflexivity].
    eapply keeps_trans; [eapply keeps_with_LHS, HL|].
    eapply (keeps_with_LHS (with_LHS L self)); eassumption.
Qed.

Lemma assembly_output_row_keeps sub_scope head name out st st' :
  assembly_output_row setitem2 sub_scope head name out st = Ok st' →
  keeps st.2 st'.2 ∧ st'.1.2 = S st.1.2.
Proof.
  destruct st as [[fr i_eq] self]. unfold assembly_output_row. intros Hrun.
  apply bind_Ok in Hrun as (L & HL & Hrun). simpl in Hrun.
  run_steps Hrun. injection Hrun as <-. simpl. split; [|reflexivity].
  eapply keeps_trans; [eapply keeps_with_LHS, HL|].
  eapply (keeps_with_LHS (with_LHS L self)); eassumption.
Qed.

Lemma assemble_node_keeps (n : node) :
  ∀ ascope scope_name head conns st st',
    assemble_node setitem2 ascope scope_name head conns n st = Ok st' →
    keeps st.2 st'.2.
Proof.
  assert (∀ s : frame * nat * Analytic, keeps s.2 s.2) as Hrefl
    by (intros; apply keeps_refl).
  assert (∀ s t u : frame * nat * Analytic,
            keeps s.2 t.2 → keeps t.2 u.2 → keeps s.2 u.2) as Htrans
    by (intros ? ? ?; apply keeps_trans).
  induction n as [name c|name d wf IH|name a d wf IH] using node_workflow_ind;
    intros ascope scope_name head conns st st' Hrun; simpl in Hrun.
  - destruct (has_derivatives c).
    + apply bind_Ok in Hrun as (ed & _ & Hloop).
      apply (for_each_rel (λ a b : frame * nat * Analytic, keeps a.2 b.2))
        in Hloop; [exact Hloop | exact Hrefl | exact Htrans |].
      apply Forall_forall. intros out _ s s' H. eapply component_row_keeps, H.
    + injection Hrun as <-. apply keeps_refl.
  - destruct (is_solver d); [|discriminate].
    apply bind_Ok in Hrun as (dict & _ & Hrun).
    apply bind_Ok in Hrun as (st1 & Hloop & [= <-]). simpl.
    apply (for_each_rel (λ a b : frame * nat * Analytic, keeps a.2 b.2))
      in Hloop; [exact Hloop | exact Hrefl | exact Htrans |].
    eapply Forall_impl; [exact IH|]. intros n Hn s s'. apply Hn.
  - destruct (is_run_once d); [|discriminate].
    apply bind_Ok in Hrun as (ed & _ & Hrun).
    apply bind_Ok in Hrun as (st1 & Hin & Hrun).
    apply bind_Ok in Hrun as (st2 & Hloop & Hout).
    apply (for_each_rel (λ a b : frame * nat * Analytic, keeps a.2 b.2))
      in Hin; [| exact Hrefl | exact Htrans
               | apply Forall_forall; intros inp _ s s' H;
                 eapply assembly_input_row_keeps, H].
    apply (for_each_rel (λ a b : frame * nat * Analytic, keeps a.2 b.2))
      in Hloop; [| exact Hrefl | exact Htrans
                 | eapply Forall_impl; [exact IH|]; intros n Hn s s'; apply Hn].
    apply (for_each_rel (λ a b : frame * nat * Analytic, keeps a.2 b.2))
      in Hout; [| exact Hrefl | exact Htrans
                | apply Forall_forall; intros out _ s s' H;
                  eapply assembly_output_row_keeps, H].
    simpl in *. eapply keeps_trans; [exact Hin|].
    eapply keeps_trans; [exact Hloop | exact Hout].
Qed.

Lemma assemble_workflow_keeps ascope dscope wf eq_num head conns self r :
  assemble_workflow setitem2 ascope dscope wf eq_num head conns self = Ok r →
  keeps self r.2.
Proof.
  unfold assemble_workflow. intros Hrun.
  apply bind_Ok in Hrun as (st & Hloop & [= <-]).
  apply (for_each_rel (λ a b : frame * nat * Analytic, keeps a.2 b.2)) in Hloop;
    [exact Hloop | intros; apply keeps_refl | intros ? ? ?; apply keeps_trans |].
  apply Forall_forall. intros n _ s s'. apply assemble_node_keeps.
Qed.

(** X2.  An assembly pass that returns has changed nothing of the instance
    but cells of [LHS] and [RHS]: the variable list, the lists of names, the
    edge dictionaries, [EQS], [EQS_zero] and the gradient are as before, and
    the two matrices of the system have the shapes they had. *)
Theorem _assemble_direct_keeps (ascope : assembly_data) (dscope : string)
    (wf : list node) (eq_num : nat) (head : string)
    (conns : option (gmap string string)) (self : Analytic) (r : nat * Analytic) :
  _assemble_direct ascope dscope wf eq_num head conns self = Ok r →
  var_list r.2 = var_list self ∧
  param_names r.2 = param_names self ∧
  function_names r.2 = function_names self ∧
  edge_dicts r.2 = edge_dicts self ∧
  EQS r.2 = EQS self ∧
  EQS_zero r.2 = EQS_zero self ∧
  gradient r.2 = gradient self ∧
  (∀ n m, shape_is n m (LHS self) → shape_is n m (LHS r.2)) ∧
  (∀ n m, shape_is n m (RHS self) → shape_is n m (RHS r.2)).
Proof.
  intros Hrun. apply assemble_workflow_keeps in Hrun as (Hpart & HL & HR & _).
  unfold setup_part in Hpart. injection Hpart as _ Hp Hf He HE HZ _ Hg Hv.
  exact (conj Hv (conj Hp (conj Hf (conj He (conj HE (conj HZ (conj Hg (conj HL HR)))))))).
Qed.

End Keeps.

(** ** The linear solve *)

Section Solve.
Context `{FW : Framework}.

Lemma _solve_Ok (s s' : Analytic) :
  _solve s = Ok s' →
  ∃ X P g,
    linalg_solve (LHS s) (RHS s) = Ok X ∧
    dot (EQS s) (EQS_cols s) X (RHS_cols s) = Ok P ∧
    madd (EQS_zero s) (EQS_zero_cols s) P (RHS_cols s) = Ok g ∧
    s' = with_gradient g.1 (with_gradient_cols g.2 s).
Proof.
  unfold _solve. intros Hrun.
  apply bind_Ok in Hrun as (X & HX & Hrun).
  apply bind_Ok in Hrun as (P & HP & Hrun).
  apply bind_Ok in Hrun as (g & Hg & [= <-]). eauto 10.
Qed.

(** The product has the rows of its left operand, and its cells are the
    products of a row and a column. *)
Lemma dot_Ok (A : matrix) (wA : nat) (B : matrix) (wB : nat) (P : matrix) :
  dot A wA B wB = Ok P →
  wA = length B ∧ length P = length A ∧
  ∀ i j row, A !! i = Some row → j < wB →
    getitem2 P i j = Ok (vdot row (column B j)).
Proof.
  unfold dot. destruct (decide _) as [Hw|]; [|discriminate]. intros [= <-].
  split; [exact Hw|]. split; [apply length_fmap|].
  intros i j row Hrow Hj. unfold getitem2.
  rewrite list_lookup_fmap, Hrow. simpl.
  rewrite list_lookup_fmap, lookup_seq_lt by exact Hj. reflexivity.
Qed.

(** X3.  A solve that returns has replaced the gradient, with its number of
    columns, and nothing else.  The product of [EQS] with the matrix [X] the
    solver returned exists, so [EQS] has as many columns as [X] has rows; the
    new gradient has the shape to which numpy broadcasts [EQS_zero] and that
    product [P], whose columns are those of [RHS].  Its entry [i, j] is the
    sum of the entries of [EQS_zero] and of [P], each read at index 0 along a
    dimension of length 1; where both arrays have the cell [i, j], it is the
    entry of [EQS_zero] plus the product of row [i] of [EQS] with column [j]
    of [X]. *)
Theorem _solve_gradient (s s' : Analytic) :
  _solve s = Ok s' →
  ∃ X P,
    linalg_solve (LHS s) (RHS s) = Ok X ∧
    EQS_cols s = length X ∧
    length P = length (EQS s) ∧
    (∀ i j row, EQS s !! i = Some row → j < RHS_cols s →
       getitem2 P i j = Ok (vdot row (column X j))) ∧
    s' = with_gradient (gradient s') (with_gradient_cols (gradient_cols s') s) ∧
    broadcast (length (EQS_zero s)) (length (EQS s)) = Ok (length (gradient s')) ∧
    broadcast (EQS_zero_cols s) (RHS_cols s) = Ok (gradient_cols s') ∧
    shape_is (length (gradient s')) (gradient_cols s') (gradient s') ∧
    (∀ i j, i < length (gradient s') → j < gradient_cols s' →
       getitem2 (gradient s') i j =
       Ok (stretched (EQS_zero s) (EQS_zero_cols s) i j +
           stretched P (RHS_cols s) i j)%Q) ∧
    (∀ i j z row,
       getitem2 (EQS_zero s) i j = Ok z → j < EQS_zero_cols s →
       EQS s !! i = Some row → j < RHS_cols s →
       getitem2 (gradient s') i j = Ok (z + vdot row (column X j))%Q).
Proof.
  intros Hrun. apply _solve_Ok in Hrun as (X & P & g & HX & HP & Hg & ->).
  apply dot_Ok in HP as (Hw & HlenP & Hcell).
  pose proof (madd_shape _ _ _ _ _ Hg) as (Hrows & Hcols & Hshape).
  rewrite HlenP in Hrows.
  exists X, P. simpl.
  split; [exact HX|]. split; [exact Hw|]. split; [exact HlenP|].
  split; [exact Hcell|]. split; [reflexivity|].
  split; [exact Hrows|]. split; [exact Hcols|]. split; [exact Hshape|]. split.
  - intros i j. apply madd_cell, Hg.
  - intros i j z row Hz Hjz Hrow Hj.
    assert (i < length (EQS_zero s)) as Hiz.
    { unfold getitem2 in Hz. destruct (EQS_zero s !! i) eqn:E; [|discriminate].
      eapply lookup_lt_Some, E. }
    assert (i < length (EQS s)) as Hie by (eapply lookup_lt_Some, Hrow).
    assert (i < length g.1) as Hi.
    { apply broadcast_Ok in Hrows as [[_ ->]|[(_ & _ & ->)|(_ & _ & ->)]]; assumption. }
    assert (j < g.2) as Hj'.
    { apply broadcast_Ok in Hcols as [[_ ->]|[(_ & _ & ->)|(_ & _ & ->)]]; assumption. }
    rewrite (madd_cell _ _ _ _ _ i j Hg Hi Hj').
    rewrite (stretched_cell _ _ _ _ _ Hz Hjz).
    rewrite (stretched_cell _ _ _ _ _ (Hcell i j row Hrow Hj) Hj).
    reflexivity.
Qed.

End Solve.

(** ** The accessors after a call *)

Section AfterCall.
Context `{FW : Framework}.

(** A call of [calc_gradient] that runs [setup]: the setup, the pass over the
    matrices of the system, the solve. *)
Lemma calc_gradient_Ok_setup (m : model) (self s' : Analytic) :
  parent_cached self = false →
  calc_gradient m self = Ok s' →
  ∃ ready assembled,
    setup m self = Ok ready ∧ keeps ready assembled ∧ _solve assembled = Ok s'.
Proof.
  intros Hcached Hrun. unfold calc_gradient in Hrun. rewrite Hcached in Hrun.
  apply bind_Ok in Hrun as (ready & Hsetup & Hrun).
  apply bind_Ok in Hrun as (assembled & Hasm & Hsolve).
  exists ready, assembled. split; [exact Hsetup|]. split; [|exact Hsolve].
  destruct (mode ready).
  - apply bind_Ok in Hasm as (r & Hr & [= <-]).
    eapply assemble_workflow_keeps, Hr.
  - injection Hasm as <-. apply keeps_refl.
Qed.

(** The numbers of columns [setup] records are those of the arrays it
    allocates. *)
Lemma setup_cols (m : model) (s s' : Analytic) :
  setup m s = Ok s' →
  cols_part s' =
  (length (var_list s'), length (param_names s'), length (var_list s'),
   length (param_names s'), length (param_names s')).
Proof.
  unfold setup. intros Hrun.
  apply bind_Ok in Hrun as (s1 & _ & Hrun).
  apply bind_Ok in Hrun as (s2 & _ & Hfun).
  rewrite (setup_functions_cols _ _ _ Hfun).
  apply (setup_functions_keeps m _ _ 0 0 0) in Hfun as [Hpart _].
  unfold functions_part in Hpart. simpl in Hpart.
  injection Hpart as _ Hp _ _ _ _ _ _ Hv. rewrite Hp, Hv. reflexivity.
Qed.

(** X4.  After a call of [calc_gradient] that ran [setup] and returned, the
    accessors answer for every known pair of names: [get_derivative] returns a
    value for each function of the function list and each parameter of the
    parameter list, and [get_gradient] returns a row with one entry per
    parameter; neither can raise [IndexError]. *)
Theorem accessors_answer_after_call (m : model) (self s' : Analytic) (f p : string) :
  parent_cached self = false →
  calc_gradient m self = Ok s' →
  f ∈ function_names s' →
  p ∈ param_names s' →
  ∃ v row,
    get_derivative s' f p = Ok v ∧
    get_gradient s' f = Ok row ∧
    length row = length (param_names s').
Proof.
  intros Hcached Hrun Hf Hp.
  destruct (calc_gradient_Ok_setup m self s' Hcached Hrun)
    as (ready & assembled & Hsetup & (Hpart & _ & _ & _ & _ & Hcols) & Hsolve).
  assert (shape_is (length (function_names s')) (length (param_names s'))
            (gradient s')) as Hshape.
  { rewrite (setup_cols _ _ _ Hsetup) in Hcols.
    unfold cols_part in Hcols. injection Hcols as _ HcR HcE HcZ _.
    pose proof (setup_allocates_shapes _ _ _ Hsetup) as (HE & HZ).
    unfold setup_part in Hpart. injection Hpart as _ Hpn Hfn _ HEQS HZero _ _ _.
    apply _solve_Ok in Hsolve as (X & P & g & _ & HP & Hg & ->). simpl.
    apply dot_Ok in HP as (_ & HlenP & _).
    apply madd_shape in Hg as (Hrows & Hc & Hsh).
    rewrite HlenP, HEQS, HZero, (proj1 HE), (proj1 HZ), broadcast_same in Hrows.
    rewrite HcZ, HcR, broadcast_same in Hc.
    injection Hrows as Hrows. injection Hc as Hc.
    rewrite <- Hrows, <- Hc in Hsh. rewrite Hpn, Hfn. exact Hsh. }
  destruct (index_present _ _ Hf) as [i Hi].
  destruct (index_present _ _ Hp) as [j Hj].
  assert (i < length (function_names s')) as Hilt
    by (apply index_Ok in Hi as [Hi _]; eapply lookup_lt_Some, Hi).
  assert (j < length (param_names s')) as Hjlt
    by (apply index_Ok in Hj as [Hj _]; eapply lookup_lt_Some, Hj).
  destruct (shape_getitem2 _ _ _ i j Hshape Hilt Hjlt) as [v Hv].
  destruct (shape_getrow _ _ _ i Hshape Hilt) as (row & Hrow & Hlen).
  exists v, row. unfold get_derivative, get_gradient.
  rewrite Hi, Hj. simpl. auto.
Qed.

End AfterCall.

(** ** A call redoes the setup *)

Section Forgets.
Context `{FW : Framework}.
Variables A0 B0 : gmap string edge_dict.

Lemma append_names_alike (head name : string) (names : list string) (a b : Analytic) :
  filed_alike A0 B0 a b →
  filed_alike A0 B0 (append_names head name names a) (append_names head name names b).
Proof.
  intros (Hn & Hv & M & Ha & Hb). split; [exact Hn|]. split; [|exists M; auto].
  unfold append_names. simpl. rewrite Hv. reflexivity.
Qed.

(** The count reads of the instance the names and the list it extends, and
    files the same dictionaries whatever dictionaries it finds. *)
Lemma _edge_counter_alike (depth : nat) :
  ∀ scope scope_wf dscope index head a b,
    filed_alike A0 B0 a b →
    agree (filed_alike A0 B0)
      (_edge_counter depth scope scope_wf dscope index head a)
      (_edge_counter depth scope scope_wf dscope index head b).
Proof.
  induction depth as [|depth IH]; intros scope scope_wf dscope idx head a b Hab.
  - reflexivity.
  - simpl. rewrite !lookup_insert_eq. simpl.
    apply agree_for_each.
    + intros entry x y Hxy.
      apply agree_bind with (R := eq); [apply agree_refl; reflexivity|].
      intros nd ? <-.
      apply agree_bind with (R := filed_alike A0 B0).
      * destruct nd as [name c|name d wf|name asm d wf].
        -- exact Hxy.
        -- destruct (is_solver d); [apply IH; exact Hxy | reflexivity].
        -- apply agree_bind with (R := eq); [apply agree_refl; reflexivity|].
           intros inputs ? <-. apply IH. apply append_names_alike, Hxy.
      * intros x' y' Hxy'.
        apply agree_bind with (R := eq); [apply agree_refl; reflexivity|].
        intros outputs ? <-. simpl. apply append_names_alike, Hxy'.
    + destruct Hab as (Hn & Hv & M & Ha & Hb).
      split; [exact Hn|]. split; [exact Hv|].
      exists (<[dscope := _find_edges (d_pathname scope) dscope]> M). simpl.
      rewrite Ha, Hb, !insert_union_l. auto.
Qed.

Lemma setup_allocate_alike (a b : Analytic) :
  filed_alike A0 B0 a b → alike A0 B0 (setup_allocate a) (setup_allocate b).
Proof.
  intros (Hn & Hv & HM). split; [|exact HM].
  unfold names_part in Hn. injection Hn as Hm Hp Hf Hnv.
  unfold setup_allocate, with_edge_dicts, with_cols. simpl.
  rewrite Hm, Hp, Hf, Hnv, Hv. reflexivity.
Qed.

Lemma alike_fields (a b : Analytic) :
  alike A0 B0 a b →
  param_names a = param_names b ∧ var_list a = var_list b ∧
  EQS a = EQS b ∧ EQS_zero a = EQS_zero b.
Proof.
  intros [Heq _].
  pose proof (f_equal param_names Heq) as Hp.
  pose proof (f_equal var_list Heq) as Hv.
  pose proof (f_equal EQS Heq) as HE.
  pose proof (f_equal EQS_zero Heq) as HZ. auto.
Qed.

Lemma route_alike (store : matrix → nat → nat → Q → result matrix) (i : nat)
    (item : string * Q) (a b : Analytic) :
  alike A0 B0 a b →
  agree (alike A0 B0) (route store i item a) (route store i item b).
Proof.
  intros Hab. pose proof (alike_fields a b Hab) as (Hp & Hv & HE & HZ).
  destruct Hab as [Heq HM].
  unfold route. rewrite <- Hp, <- Hv, <- HE, <- HZ.
  destruct (member item.1 (param_names a)).
  - destruct (index _ _) as [j|e]; simpl; [|reflexivity].
    destruct (store _ _ _ _) as [M|e]; simpl; [|reflexivity].
    split; [|exact HM].
    apply (f_equal (with_EQS_zero M)) in Heq. exact Heq.
  - destruct (member item.1 (var_list a)).
    + destruct (index _ _) as [j|e]; simpl; [|reflexivity].
      destruct (store _ _ _ _) as [M|e]; simpl; [|reflexivity].
      split; [|exact HM].
      apply (f_equal (with_EQS M)) in Heq. exact Heq.
    + split; assumption.
Qed.

Lemma setup_functions_alike (m : model) (a b : Analytic) :
  alike A0 B0 a b →
  agree (alike A0 B0) (setup_functions m a) (setup_functions m b).
Proof.
  intros Hab. pose proof (alike_fields a b Hab) as (Hp & Hv & _).
  unfold setup_functions. rewrite <- Hp, <- Hv.
  pose (T := λ x y : nat * Analytic, x.1 = y.1 ∧ alike A0 B0 x.2 y.2).
  apply agree_bind with (R := T).
  - apply agree_for_each; [|split; [reflexivity | exact Hab]].
    intros obj [i x] [j y] [Hi Hxy]. simpl in Hi, Hxy. subst j.
    unfold setup_objective. simpl.
    apply agree_bind with (R := alike A0 B0).
    + apply agree_for_each; [|exact Hxy]. intros item ? ?. apply route_alike.
    + intros x' y' Hxy'. split; [reflexivity | exact Hxy'].
  - intros st1 st1' Hst.
    apply agree_bind with (R := T).
    + apply agree_for_each; [|exact Hst].
      intros con [i x] [j y] [Hi Hxy]. simpl in Hi, Hxy. subst j.
      unfold setup_constraint. simpl.
      destruct (con.2 _) as [[lhs rhs] cmp].
      apply agree_bind with (R := alike A0 B0).
      * apply agree_for_each; [|exact Hxy]. intros item ? ?. apply route_alike.
      * intros x' y' Hxy'.
        apply agree_bind with (R := alike A0 B0).
        -- apply agree_for_each; [|exact Hxy']. intros item ? ?. apply route_alike.
        -- intros x'' y'' Hxy''. split; [reflexivity | exact Hxy''].
    + intros st2 st2' [_ Hst2]. exact Hst2.
Qed.

End Forgets.

Section Redo.
Context `{FW : Framework}.

(** Two setups that start from the same names agree on everything but the
    edge dictionaries, to which they file the same entries. *)
Lemma setup_alike (m : model) (a b ca cb : Analytic) :
  ChainRule_setup a = Ok ca → ChainRule_setup b = Ok cb →
  names_part ca = names_part cb →
  agree (alike (edge_dicts ca) (edge_dicts cb)) (setup m a) (setup m b).
Proof.
  intros Ha Hb Hn. unfold setup. rewrite Ha, Hb. simpl.
  apply agree_bind with (R := filed_alike (edge_dicts ca) (edge_dicts cb)).
  - unfold setup_enumerate.
    assert (mode ca = mode cb) as -> by (injection Hn as -> _; reflexivity).
    apply _edge_counter_alike.
    split; [exact Hn|]. split; [reflexivity|].
    exists ∅. simpl. rewrite !(left_id_L ∅ (∪)). auto.
  - intros x y Hxy. apply setup_functions_alike, setup_allocate_alike, Hxy.
Qed.

Lemma alike_eq (E : gmap string edge_dict) (a b : Analytic) :
  alike E E a b → a = b.
Proof.
  intros (Heq & M & Ha & Hb).
  destruct a, b. simpl in *. injection Heq as -> -> -> -> -> -> -> -> -> -> -> -> -> -> ->.
  congruence.
Qed.

(** X5.  A call of [calc_gradient] redoes the setup and forgets what the
    instance held.  For two instances on which the test that guards [setup]
    fails, as it does for edge dictionaries keyed by path names, and for
    which the parent's [setup] leaves the same mode, names and edge
    dictionaries, the two calls raise the same exception or return the same
    instance: the matrices, the gradient and the variable list an instance
    holds before the call have no influence on its result. *)
Theorem calc_gradient_forgets (m : model) (a b ca cb : Analytic) :
  parent_cached a = false →
  parent_cached b = false →
  ChainRule_setup a = Ok ca →
  ChainRule_setup b = Ok cb →
  names_part ca = names_part cb →
  edge_dicts ca = edge_dicts cb →
  calc_gradient m a = calc_gradient m b.
Proof.
  intros Hpa Hpb Ha Hb Hn He. unfold calc_gradient. rewrite Hpa, Hpb.
  pose proof (setup_alike m a b ca cb Ha Hb Hn) as Hagree. rewrite He in Hagree.
  destruct (setup m a) as [x|e], (setup m b) as [y|e']; simpl in Hagree;
    try contradiction.
  - apply alike_eq in Hagree as ->. reflexivity.
  - subst e'. reflexivity.
Qed.

End Redo.

Lemma setup_allocates_witness :
  LHS Chain.after_setup = zeros 2 2 ∧
  RHS Chain.after_setup = zeros 2 1 ∧
  gradient Chain.after_setup = zeros 1 1 ∧
  shape_is 1 2 (EQS Chain.after_setup) ∧
  shape_is 1 1 (EQS_zero Chain.after_setup).
Proof.
  apply (@setup_allocates (framework Chain.edges (λ _ _, 1%Q)) (Chain.chain 2 3)
           (Chain.start direct) Chain.after_setup).
  vm_compute. reflexivity.
Defined.

Lemma _assemble_direct_keeps_witness :
  var_list Chain.assembled = var_list Chain.after_setup ∧
  param_names Chain.assembled = param_names Chain.after_setup ∧
  function_names Chain.assembled = function_names Chain.after_setup ∧
  edge_dicts Chain.assembled = edge_dicts Chain.after_setup ∧
  EQS Chain.assembled = EQS Chain.after_setup ∧
  EQS_zero Chain.assembled = EQS_zero Chain.after_setup ∧
  gradient Chain.assembled = gradient Chain.after_setup ∧
  (∀ n m, shape_is n m (LHS Chain.after_setup) → shape_is n m (LHS Chain.assembled)) ∧
  (∀ n m, shape_is n m (RHS Chain.after_setup) → shape_is n m (RHS Chain.assembled)).
Proof.
  apply (@_assemble_direct_keeps (framework Chain.edges (λ _ _, 1%Q))
           Chain.scope "driver" (workflow (Chain.chain 2 3)) 0 "" None
           Chain.after_setup (2, Chain.assembled)).
  vm_compute. reflexivity.
Defined.

Lemma _solve_gradient_witness :
  ∃ X P,
    @linalg_solve (framework Chain.edges (λ _ _, 1%Q))
      (LHS Chain.assembled) (RHS Chain.assembled) = Ok X ∧
    EQS_cols Chain.assembled = length X ∧
    length P = length (EQS Chain.assembled) ∧
    (∀ i j row, EQS Chain.assembled !! i = Some row → j < RHS_cols Chain.assembled →
       getitem2 P i j = Ok (vdot row (column X j))) ∧
    Solved.chain =
      with_gradient (gradient Solved.chain)
        (with_gradient_cols (gradient_cols Solved.chain) Chain.assembled) ∧
    broadcast (length (EQS_zero Chain.assembled)) (length (EQS Chain.assembled)) =
      Ok (length (gradient Solved.chain)) ∧
    broadcast (EQS_zero_cols Chain.assembled) (RHS_cols Chain.assembled) =
      Ok (gradient_cols Solved.chain) ∧
    shape_is (length (gradient Solved.chain)) (gradient_cols Solved.chain)
      (gradient Solved.chain) ∧
    (∀ i j, i < length (gradient Solved.chain) → j < gradient_cols Solved.chain →
       getitem2 (gradient Solved.chain) i j =
       Ok (stretched (EQS_zero Chain.assembled) (EQS_zero_cols Chain.assembled) i j +
           stretched P (RHS_cols Chain.assembled) i j)%Q) ∧
    (∀ i j z row,
       getitem2 (EQS_zero Chain.assembled) i j = Ok z →
       j < EQS_zero_cols Chain.assembled →
       EQS Chain.assembled !! i = Some row → j < RHS_cols Chain.assembled →
       getitem2 (gradient Solved.chain) i j = Ok (z + vdot row (column X j))%Q).
Proof.
  apply (@_solve_gradient (framework Chain.edges (λ _ _, 1%Q))
           Chain.assembled Solved.chain).
  vm_compute. reflexivity.
Defined.

(** numpy stretches a dimension of length 1: a solve on an instance whose
    [EQS_zero] is [1 x 1] and whose right-hand side has two columns leaves a
    gradient of two columns. *)
Example _solve_broadcasts :
  @_solve (framework Chain.edges (λ _ _, 1%Q)) Broadcast.narrow
  = Ok Broadcast.solved.
Proof. vm_compute. reflexivity. Qed.

(** A model without unknowns: the system has no row, the product of [EQS]
    with the solution is a row of zeros, and the call returns the gradient
    [EQS_zero]. *)
Example bare_call_returns :
  @calc_gradient (framework Bare.edges (λ _ _, 1%Q)) Bare.single Bare.start
  = Ok Bare.solved.
Proof. vm_compute. reflexivity. Qed.

Lemma accessors_answer_after_call_witness :
  ∃ v row,
    get_derivative Bare.solved "f" "p" = Ok v ∧
    get_gradient Bare.solved "f" = Ok row ∧
    length row = length (param_names Bare.solved).
Proof.
  apply (@accessors_answer_after_call (framework Bare.edges (λ _ _, 1%Q))
           Bare.single Bare.start Bare.solved "f" "p").
  - reflexivity.
  - vm_compute. reflexivity.
  - apply list_elem_of_here.
  - apply list_elem_of_here.
Defined.

Lemma calc_gradient_forgets_witness :
  @calc_gradient (framework Chain.edges (λ _ _, 1%Q)) (Chain.chain 2 3)
    (Chain.start direct) =
  @calc_gradient (framework Chain.edges (λ _ _, 1%Q)) (Chain.chain 2 3)
    Solved.stale.
Proof.
  apply (@calc_gradient_forgets (framework Chain.edges (λ _ _, 1%Q))
           (Chain.chain 2 3) (Chain.start direct) Solved.stale
           (Chain.start direct) Solved.stale); reflexivity.
Defined.

(** ** The rows of the objectives *)

(** One assigning statement: the cell of the item's name takes the value, the
    cells of the other names are as before, and the [EQS] cell of a name of
    the parameter list is never written. *)
Lemma route_set_cells (i : nat) (item : string * Q) (s s' : Analytic) :
  route setitem2 i item s = Ok s' →
  param_names s' = param_names s ∧ var_list s' = var_list s ∧
  (∀ x j, index (param_names s) x = Ok j →
     getitem2 (EQS_zero s') i j =
       if decide (item.1 = x) then Ok item.2 else getitem2 (EQS_zero s) i j) ∧
  (∀ x j, x ∉ param_names s → index (var_list s) x = Ok j →
     getitem2 (EQS s') i j =
       if decide (item.1 = x) then Ok item.2 else getitem2 (EQS s) i j) ∧
  (∀ x j, x ∈ param_names s → index (var_list s) x = Ok j →
     getitem2 (EQS s') i j = getitem2 (EQS s) i j).
Proof.
  unfold route, member. intros Hroute.
  destruct (bool_decide (item.1 ∈ param_names s)) eqn:Hp.
  - apply bool_decide_eq_true in Hp.
    apply bind_Ok in Hroute as (jp & Hjp & Hroute).
    apply bind_Ok in Hroute as (M & HM & [= <-]). simpl.
    split; [reflexivity|]. split; [reflexivity|]. split; [|split].
    + intros x j Hj. destruct (decide (item.1 = x)) as [<-|Hne].
      * assert (j = jp) as -> by congruence. eapply getitem2_setitem2_eq, HM.
      * eapply getitem2_setitem2_ne; [exact HM|].
        intros [= ->]. apply Hne. eapply index_inj; eassumption.
    + intros x j Hx Hj. destruct (decide (item.1 = x)) as [<-|Hne];
        [contradiction | reflexivity].
    + reflexivity.
  - apply bool_decide_eq_false in Hp.
    assert (∀ x j, index (param_names s) x = Ok j → item.1 ≠ x) as Hnot.
    { intros x j Hj <-. apply Hp. apply index_Ok in Hj as [Hj _].
      eapply list_elem_of_lookup_2, Hj. }
    destruct (bool_decide (item.1 ∈ var_list s)) eqn:Hv.
    + apply bind_Ok in Hroute as (jv & Hjv & Hroute).
      apply bind_Ok in Hroute as (M & HM & [= <-]). simpl.
      split; [reflexivity|]. split; [reflexivity|]. split; [|split].
      * intros x j Hj. destruct (decide (item.1 = x)) as [E|_]; [|reflexivity].
        destruct (Hnot x j Hj E).
      * intros x j Hx Hj. destruct (decide (item.1 = x)) as [<-|Hne].
        -- assert (j = jv) as -> by congruence. eapply getitem2_setitem2_eq, HM.
        -- eapply getitem2_setitem2_ne; [exact HM|].
           intros [= ->]. apply Hne. eapply index_inj; eassumption.
      * intros x j Hx Hj. eapply getitem2_setitem2_ne; [exact HM|].
        intros [= ->]. apply Hp.
        rewrite (index_inj _ _ _ _ Hjv Hj). exact Hx.
    + injection Hroute as <-. apply bool_decide_eq_false in Hv.
      split; [reflexivity|]. split; [reflexivity|]. split; [|split].
      * intros x j Hj. destruct (decide (item.1 = x)) as [E|_]; [|reflexivity].
        destruct (Hnot x j Hj E).
      * intros x j Hx Hj. destruct (decide (item.1 = x)) as [<-|_]; [|reflexivity].
        exfalso. apply Hv. apply index_Ok in Hj as [Hj _].
        eapply list_elem_of_lookup_2, Hj.
      * reflexivity.
Qed.

Lemma route_set_items (i : nat) (items : list (string * Q)) :
  ∀ s s',
    for_each (route setitem2 i) items s = Ok s' →
    NoDup items.*1 →
    param_names s' = param_names s ∧ var_list s' = var_list s ∧
    (∀ x j, index (param_names s) x = Ok j →
       (∀ v, (x, v) ∈ items → getitem2 (EQS_zero s') i j = Ok v) ∧
       (x ∉ items.*1 → getitem2 (EQS_zero s') i j = getitem2 (EQS_zero s) i j)) ∧
    (∀ x j, x ∉ param_names s → index (var_list s) x = Ok j →
       (∀ v, (x, v) ∈ items → getitem2 (EQS s') i j = Ok v) ∧
       (x ∉ items.*1 → getitem2 (EQS s') i j = getitem2 (EQS s) i j)) ∧
    (∀ x j, x ∈ param_names s → index (var_list s) x = Ok j →
       getitem2 (EQS s') i j = getitem2 (EQS s) i j).
Proof.
  induction items as [|item items IH]; intros s s' Hrun Hnodup.
  - injection Hrun as <-.
    split; [reflexivity|]. split; [reflexivity|]. split; [|split].
    + intros x j _. split; [|reflexivity]. intros v Hv. apply elem_of_nil in Hv as [].
    + intros x j _ _. split; [|reflexivity]. intros v Hv. apply elem_of_nil in Hv as [].
    + reflexivity.
  - change (route setitem2 i item s ≫= for_each (route setitem2 i) items = Ok s') in Hrun.
    apply bind_Ok in Hrun as (mid & Hstep & Hrest).
    rewrite fmap_cons in Hnodup. apply NoDup_cons in Hnodup as [Hfresh Hnodup].
    apply route_set_cells in Hstep as (Hp & Hv & HZ & HE & HK).
    apply IH in Hrest as (Hp' & Hv' & HZ' & HE' & HK'); [|exact Hnodup].
    rewrite Hp in *. rewrite Hv in *.
    split; [exact Hp'|]. split; [exact Hv'|]. split; [|split].
    + intros x j Hj. destruct (HZ' x j Hj) as [Hin Hout]. split.
      * intros v [<-|Hv0]%elem_of_cons; [|auto].
        rewrite Hout by exact Hfresh. rewrite (HZ _ j Hj). simpl.
        destruct (decide _); [reflexivity | contradiction].
      * intros Hx. rewrite fmap_cons in Hx. apply not_elem_of_cons in Hx as [Hne Hx].
        rewrite Hout by exact Hx. rewrite (HZ x j Hj).
        destruct (decide _) as [E|]; [|reflexivity]. destruct (Hne (eq_sym E)).
    + intros x j Hx Hj. destruct (HE' x j Hx Hj) as [Hin Hout]. split.
      * intros v [<-|Hv0]%elem_of_cons; [|auto].
        rewrite Hout by exact Hfresh. rewrite (HE _ j Hx Hj). simpl.
        destruct (decide _); [reflexivity | contradiction].
      * intros Hx'. rewrite fmap_cons in Hx'.
        apply not_elem_of_cons in Hx' as [Hne Hx'].
        rewrite Hout by exact Hx'. rewrite (HE x j Hx Hj).
        destruct (decide _) as [E|]; [|reflexivity]. destruct (Hne (eq_sym E)).
    + intros x j Hx Hj. rewrite (HK' x j Hx Hj). exact (HK x j Hx Hj).
Qed.


(** A store into one row leaves the other rows as they are. *)
Lemma additem2_row (M M' : matrix) (i j i' j' : nat) (v : Q) :
  additem2 M i j v = Ok M' → i' ≠ i → getitem2 M' i' j' = getitem2 M i' j'.
Proof.
  intros (old & _ & Hset)%additem2_Ok. eapply getitem2_setitem2_row, Hset.
Qed.

Lemma route_other_rows (store : matrix → nat → nat → Q → result matrix)
    (i : nat) (item : string * Q) (s s' : Analytic) :
  (∀ M M' a b v r c, store M a b v = Ok M' → r ≠ a →
     getitem2 M' r c = getitem2 M r c) →
  route store i item s = Ok s' →
  ∀ r c, r ≠ i →
    getitem2 (EQS s') r c = getitem2 (EQS s) r c ∧
    getitem2 (EQS_zero s') r c = getitem2 (EQS_zero s) r c.
Proof.
  intros Hstore Hroute r c Hr. unfold route in Hroute.
  destruct (member item.1 (param_names s)).
  - apply bind_Ok in Hroute as (j & _ & Hroute).
    apply bind_Ok in Hroute as (M & HM & [= <-]). simpl.
    split; [reflexivity|]. eapply Hstore; eassumption.
  - destruct (member item.1 (var_list s)).
    + apply bind_Ok in Hroute as (j & _ & Hroute).
      apply bind_Ok in Hroute as (M & HM & [= <-]). simpl.
      split; [|reflexivity]. eapply Hstore; eassumption.
    + injection Hroute as <-. auto.
Qed.

Lemma route_items_other_rows (store : matrix → nat → nat → Q → result matrix)
    (i : nat) (f : string * Q → string * Q) (items : list (string * Q)) :
  (∀ M M' a b v r c, store M a b v = Ok M' → r ≠ a →
     getitem2 M' r c = getitem2 M r c) →
  ∀ s s', for_each (λ item, route store i (f item)) items s = Ok s' →
  ∀ r c, r ≠ i →
    getitem2 (EQS s') r c = getitem2 (EQS s) r c ∧
    getitem2 (EQS_zero s') r c = getitem2 (EQS_zero s) r c.
Proof.
  intros Hstore. induction items as [|item items IH]; intros s s' Hrun r c Hr.
  - injection Hrun as <-. auto.
  - change (route store i (f item) s ≫=
              for_each (λ item, route store i (f item)) items = Ok s') in Hrun.
    apply bind_Ok in Hrun as (mid & Hstep & Hrest).
    destruct (IH _ _ Hrest r c Hr) as [-> ->].
    eapply route_other_rows; eassumption.
Qed.

(** The lists of names and the rows above and below the row of one function
    are as before. *)
Lemma setup_objective_rows (wrt : list string)
    (obj : string * (list string → list (string * Q))) (i : nat) (s : Analytic)
    (st' : nat * Analytic) :
  setup_objective wrt obj (i, s) = Ok st' →
  st'.1 = S i ∧ param_names st'.2 = param_names s ∧ var_list st'.2 = var_list s ∧
  ∀ r c, r ≠ i →
    getitem2 (EQS st'.2) r c = getitem2 (EQS s) r c ∧
    getitem2 (EQS_zero st'.2) r c = getitem2 (EQS_zero s) r c.
Proof.
  unfold setup_objective. simpl. intros Hrun.
  apply bind_Ok in Hrun as (s1 & Hloop & [= <-]). simpl.
  split; [reflexivity|].
  assert (functions_part s1 = functions_part s) as [= _ Hp _ _ _ _ _ _ Hv].
  { eapply for_each_preserves; [|exact Hloop].
    intros x a b H. eapply route_functions_part, H. }
  split; [exact Hp|]. split; [exact Hv|].
  apply (route_items_other_rows setitem2 i (λ item, item) (obj.2 wrt));
    [|exact Hloop].
  intros M M' a b v r c HM Hr. eapply getitem2_setitem2_row; eassumption.
Qed.

Lemma setup_constraint_rows (wrt : list string)
    (con : string * (list string → list (string * Q) * list (string * Q) * string))
    (i : nat) (s : Analytic) (st' : nat * Analytic) :
  setup_constraint wrt con (i, s) = Ok st' →
  st'.1 = S i ∧ param_names st'.2 = param_names s ∧ var_list st'.2 = var_list s ∧
  ∀ r c, r ≠ i →
    getitem2 (EQS st'.2) r c = getitem2 (EQS s) r c ∧
    getitem2 (EQS_zero st'.2) r c = getitem2 (EQS_zero s) r c.
Proof.
  unfold setup_constraint. destruct (con.2 wrt) as [[lhs rhs] comparator]. simpl.
  intros Hrun.
  apply bind_Ok in Hrun as (s1 & Hlhs & Hrun).
  apply bind_Ok in Hrun as (s2 & Hrhs & [= <-]). simpl.
  assert (∀ M M' a b v r c, additem2 M a b v = Ok M' → r ≠ a →
            getitem2 M' r c = getitem2 M r c) as Hadd.
  { intros M M' a b v r c HM Hr. eapply additem2_row; eassumption. }
  split; [reflexivity|].
  assert (functions_part s2 = functions_part s) as [= _ Hp _ _ _ _ _ _ Hv].
  { transitivity (functions_part s1).
    - eapply for_each_preserves; [|exact Hrhs].
      intros x a b H. eapply route_functions_part, H.
    - eapply for_each_preserves; [|exact Hlhs].
      intros x a b H. eapply route_functions_part, H. }
  split; [exact Hp|]. split; [exact Hv|].
  intros r c Hr.
  destruct (route_items_other_rows additem2 i
              (λ item, (item.1, (- sign_of comparator) * item.2)%Q) rhs Hadd
              _ _ Hrhs r c Hr) as [-> ->].
  exact (route_items_other_rows additem2 i
           (λ item, (item.1, sign_of comparator * item.2)%Q) lhs Hadd
           _ _ Hlhs r c Hr).
Qed.

(** A loop whose body fills the row of the counter and advances it by one:
    the element at position [k] has filled the row [i + k], starting from
    what the row held before the loop, and no later element has touched it. *)
Lemma rows_loop {A} (body : A → nat * Analytic → result (nat * Analytic))
    (l : list A) :
  (∀ x i s st', body x (i, s) = Ok st' →
     st'.1 = S i ∧ param_names st'.2 = param_names s ∧
     var_list st'.2 = var_list s ∧
     ∀ r c, r ≠ i →
       getitem2 (EQS st'.2) r c = getitem2 (EQS s) r c ∧
       getitem2 (EQS_zero st'.2) r c = getitem2 (EQS_zero s) r c) →
  ∀ i s st', for_each body l (i, s) = Ok st' →
    st'.1 = i + length l ∧ param_names st'.2 = param_names s ∧
    var_list st'.2 = var_list s ∧
    (∀ r c, (r < i ∨ i + length l ≤ r)%nat →
       getitem2 (EQS st'.2) r c = getitem2 (EQS s) r c ∧
       getitem2 (EQS_zero st'.2) r c = getitem2 (EQS_zero s) r c) ∧
    (∀ k x, l !! k = Some x →
       ∃ a b, body x (i + k, a) = Ok b ∧
         param_names a = param_names s ∧ var_list a = var_list s ∧
         (∀ c, getitem2 (EQS a) (i + k) c = getitem2 (EQS s) (i + k) c ∧
               getitem2 (EQS_zero a) (i + k) c = getitem2 (EQS_zero s) (i + k) c) ∧
         (∀ c, getitem2 (EQS st'.2) (i + k) c = getitem2 (EQS b.2) (i + k) c ∧
               getitem2 (EQS_zero st'.2) (i + k) c
                 = getitem2 (EQS_zero b.2) (i + k) c)).
Proof.
  intros Hbody. induction l as [|y l IH]; intros i s st' Hrun.
  - injection Hrun as <-. simpl.
    split; [lia|]. split; [reflexivity|]. split; [reflexivity|].
    split; [auto|]. intros k x Hk. discriminate.
  - change (body y (i, s) ≫= for_each body l = Ok st') in Hrun.
    apply bind_Ok in Hrun as ([i1 s1] & Hstep & Hrest).
    destruct (Hbody _ _ _ _ Hstep) as (Hi1 & Hp1 & Hv1 & Hrows1).
    simpl in Hi1, Hp1, Hv1, Hrows1. subst i1.
    destruct (IH _ _ _ Hrest) as (Hi & Hp & Hv & Hrows & Hat).
    split; [simpl; lia|]. split; [congruence|]. split; [congruence|]. split.
    + intros r c Hr. simpl in Hr.
      destruct (Hrows r c) as [-> ->]; [lia|]. apply Hrows1. lia.
    + intros [|k] x Hk.
      * injection Hk as <-. exists s, (S i, s1).
        replace (i + 0) with i by lia.
        split; [exact Hstep|]. split; [reflexivity|]. split; [reflexivity|].
        split; [auto|]. intros c. simpl. apply Hrows. lia.
      * destruct (Hat k x Hk) as (a & b & Hab & Hpa & Hva & Hrow_a & Hrow_b).
        replace (S i + k) with (i + S k) in * by lia.
        exists a, b. split; [exact Hab|]. split; [congruence|].
        split; [congruence|]. split; [|exact Hrow_b].
        intros c. destruct (Hrow_a c) as [-> ->]. apply Hrows1. lia.
Qed.

(** X6.  After the rows of the functions are filled, the row of [EQS] and
    [EQS_zero] with the number of an objective (in the order [get_objectives]
    yields) holds its gradient dictionary, whose names are distinct: the value
    of a name of the parameter list is in its cell of [EQS_zero]; the value of
    any other name of the variable list is in its cell of [EQS]; a name of
    both lists counts as a parameter and its cell of [EQS] is as before; the
    cells of the names the dictionary does not hold are as before. *)
Theorem objective_rows (m : model) (s s' : Analytic) (k : nat)
    (obj : string * (list string → list (string * Q))) :
  get_objectives m !! k = Some obj →
  NoDup (obj.2 (var_list s ++ param_names s)%list).*1 →
  setup_functions m s = Ok s' →
  (∀ x v j, (x, v) ∈ obj.2 (var_list s ++ param_names s)%list →
     index (param_names s) x = Ok j → getitem2 (EQS_zero s') k j = Ok v) ∧
  (∀ x v j, (x, v) ∈ obj.2 (var_list s ++ param_names s)%list →
     x ∉ param_names s → index (var_list s) x = Ok j →
     getitem2 (EQS s') k j = Ok v) ∧
  (∀ x j, x ∈ param_names s → index (var_list s) x = Ok j →
     getitem2 (EQS s') k j = getitem2 (EQS s) k j) ∧
  (∀ x j, x ∉ (obj.2 (var_list s ++ param_names s)%list).*1 →
     (index (param_names s) x = Ok j →
        getitem2 (EQS_zero s') k j = getitem2 (EQS_zero s) k j) ∧
     (x ∉ param_names s → index (var_list s) x = Ok j →
        getitem2 (EQS s') k j = getitem2 (EQS s) k j)).
Proof.
  intros Hk Hnodup Hrun. unfold setup_functions in Hrun.
  set (wrt := (var_list s ++ param_names s)%list) in *.
  apply bind_Ok in Hrun as (st1 & Hobjs & Hrun).
  apply bind_Ok in Hrun as (st2 & Hcons & [= <-]).
  destruct (rows_loop _ _ (setup_objective_rows wrt) _ _ _ Hobjs)
    as (Hi1 & Hp1 & Hv1 & _ & Hat).
  destruct st1 as [i1 s1]. simpl in Hi1, Hp1, Hv1. subst i1.
  destruct (rows_loop _ _ (setup_constraint_rows wrt) _ _ _ Hcons)
    as (_ & _ & _ & Hlater & _).
  destruct (Hat k obj Hk) as (a & b & Hab & Hpa & Hva & Hrow_a & Hrow_b).
  simpl in Hab, Hrow_a, Hrow_b.
  assert (k < length (get_objectives m)) as Hlt by (eapply lookup_lt_Some, Hk).
  assert (∀ c, getitem2 (EQS st2.2) k c = getitem2 (EQS b.2) k c ∧
               getitem2 (EQS_zero st2.2) k c = getitem2 (EQS_zero b.2) k c) as Hfin.
  { intros c. destruct (Hlater k c) as [-> ->]; [simpl; lia|]. apply Hrow_b. }
  unfold setup_objective in Hab. simpl in Hab.
  apply bind_Ok in Hab as (b' & Hloop & [= <-]). simpl in Hfin.
  apply route_set_items in Hloop as (_ & _ & HZ & HE & HK); [|exact Hnodup].
  rewrite Hpa, Hva in *.
  split; [|split; [|split]].
  - intros x v j Hin Hj. rewrite (proj2 (Hfin j)). apply (HZ x j Hj), Hin.
  - intros x v j Hin Hx Hj. rewrite (proj1 (Hfin j)). apply (HE x j Hx Hj), Hin.
  - intros x j Hx Hj. rewrite (proj1 (Hfin j)), (HK x j Hx Hj). apply Hrow_a.
  - intros x j Hx. split.
    + intros Hj. rewrite (proj2 (Hfin j)), (proj2 (HZ x j Hj) Hx). apply Hrow_a.
    + intros Hp Hj. rewrite (proj1 (Hfin j)), (proj2 (HE x j Hp Hj) Hx).
      apply Hrow_a.
Qed.

(** X7.  The rows of the constraints follow those of the objectives: the
    constraint with the number [k] (in the order [get_constraints] yields)
    fills the row [len(objectives) + k], and nothing else writes to that row;
    on top of what the cell of a name held before, the row holds
    [sign * lhs - sign * rhs] for that name. *)
Theorem constraint_rows (m : model) (s s' : Analytic) (k : nat)
    (con : string * (list string → list (string * Q) * list (string * Q) * string))
    (lhs rhs : list (string * Q)) (comparator : string) :
  get_constraints m !! k = Some con →
  con.2 (var_list s ++ param_names s)%list = (lhs, rhs, comparator) →
  setup_functions m s = Ok s' →
  (∀ x j old,
     index (param_names s) x = Ok j →
     getitem2 (EQS_zero s) (length (get_objectives m) + k) j = Ok old →
     ∃ new, getitem2 (EQS_zero s') (length (get_objectives m) + k) j = Ok new ∧
       (new == old + sign_of comparator * total lhs x
                   - sign_of comparator * total rhs x)%Q) ∧
  (∀ x j old,
     x ∉ param_names s →
     index (var_list s) x = Ok j →
     getitem2 (EQS s) (length (get_objectives m) + k) j = Ok old →
     ∃ new, getitem2 (EQS s') (length (get_objectives m) + k) j = Ok new ∧
       (new == old + sign_of comparator * total lhs x
                   - sign_of comparator * total rhs x)%Q).
Proof.
  intros Hk Hcon Hrun. unfold setup_functions in Hrun.
  set (wrt := (var_list s ++ param_names s)%list) in *.
  apply bind_Ok in Hrun as (st1 & Hobjs & Hrun).
  apply bind_Ok in Hrun as (st2 & Hcons & [= <-]).
  destruct (rows_loop _ _ (setup_objective_rows wrt) _ _ _ Hobjs)
    as (Hi1 & Hp1 & Hv1 & Hbelow & _).
  destruct st1 as [i1 s1]. simpl in Hi1, Hp1, Hv1, Hbelow. subst i1.
  destruct (rows_loop _ _ (setup_constraint_rows wrt) _ _ _ Hcons)
    as (_ & _ & _ & _ & Hat).
  destruct (Hat k con Hk) as (a & [i' b] & Hab & Hpa & Hva & Hrow_a & Hrow_b).
  simpl in Hab, Hrow_a, Hrow_b.
  set (r := length (get_objectives m) + k) in *.
  assert (∀ c, getitem2 (EQS a) r c = getitem2 (EQS s) r c ∧
               getitem2 (EQS_zero a) r c = getitem2 (EQS_zero s) r c) as Hstart.
  { intros c. destruct (Hrow_a c) as [-> ->]. apply Hbelow. unfold r. lia. }
  destruct (setup_constraint_cells _ _ _ _ _ _ _ _ _ Hcon Hab) as (_ & HZ & HE).
  rewrite Hpa, Hp1 in *. rewrite Hva, Hv1 in *.
  split.
  - intros x j old Hj Hold. rewrite (proj2 (Hrow_b j)).
    apply (HZ x j old Hj). rewrite (proj2 (Hstart j)). exact Hold.
  - intros x j old Hx Hj Hold. rewrite (proj1 (Hrow_b j)).
    apply (HE x j old Hx Hj). rewrite (proj1 (Hstart j)). exact Hold.
Qed.

Lemma objective_rows_witness :
  (∀ x v j, (x, v) ∈ [("compb.b", 1%Q)] →
     index (param_names Solved.allocated) x = Ok j →
     getitem2 (EQS_zero Chain.after_setup) 0 j = Ok v) ∧
  (∀ x v j, (x, v) ∈ [("compb.b", 1%Q)] →
     x ∉ param_names Solved.allocated → index (var_list Solved.allocated) x = Ok j →
     getitem2 (EQS Chain.after_setup) 0 j = Ok v) ∧
  (∀ x j, x ∈ param_names Solved.allocated →
     index (var_list Solved.allocated) x = Ok j →
     getitem2 (EQS Chain.after_setup) 0 j = getitem2 (EQS Solved.allocated) 0 j) ∧
  (∀ x j, x ∉ ["compb.b"] →
     (index (param_names Solved.allocated) x = Ok j →
        getitem2 (EQS_zero Chain.after_setup) 0 j
          = getitem2 (EQS_zero Solved.allocated) 0 j) ∧
     (x ∉ param_names Solved.allocated → index (var_list Solved.allocated) x = Ok j →
        getitem2 (EQS Chain.after_setup) 0 j = getitem2 (EQS Solved.allocated) 0 j)).
Proof.
  apply (objective_rows (Chain.chain 2 3) Solved.allocated Chain.after_setup 0
           ("b", λ _, [("compb.b", 1%Q)])).
  - reflexivity.
  - apply NoDup_singleton.
  - vm_compute. reflexivity.
Defined.

Lemma constraint_rows_witness :
  (∀ x j old,
     index (param_names ConstraintRow.prepared) x = Ok j →
     getitem2 (EQS_zero ConstraintRow.prepared) 0 j = Ok old →
     ∃ new, getitem2 (EQS_zero Constrained.filed) 0 j = Ok new ∧
       (new == old + sign_of ">" * total ConstraintRow.lhs x
                   - sign_of ">" * total ConstraintRow.rhs x)%Q) ∧
  (∀ x j old,
     x ∉ param_names ConstraintRow.prepared →
     index (var_list ConstraintRow.prepared) x = Ok j →
     getitem2 (EQS ConstraintRow.prepared) 0 j = Ok old →
     ∃ new, getitem2 (EQS Constrained.filed) 0 j = Ok new ∧
       (new == old + sign_of ">" * total ConstraintRow.lhs x
                   - sign_of ">" * total ConstraintRow.rhs x)%Q).
Proof.
  apply (constraint_rows Constrained.single ConstraintRow.prepared Constrained.filed 0
           ("c", λ _, (ConstraintRow.lhs, ConstraintRow.rhs, ">"))
           ConstraintRow.lhs ConstraintRow.rhs ">").
  - reflexivity.
  - reflexivity.
  - vm_compute. reflexivity.
Defined.

Lemma extends_refl (s : Analytic) : extends s s.
Proof. split; [reflexivity|]. split; [auto | reflexivity]. Qed.

Lemma extends_trans (s t u : Analytic) : extends s t → extends t u → extends s u.
Proof.
  intros (Hv1 & He1 & Hc1) (Hv2 & He2 & Hc2).
  split; [etrans; eassumption|]. split; [auto | congruence].
Qed.

Lemma extends_append (head name : string) (names : list string) (s : Analytic) :
  extends s (append_names head name names s).
Proof.
  split; [apply prefix_app_r; reflexivity|]. split; [auto | reflexivity].
Qed.

Section Counter.
Context `{FW : Framework}.

Lemma _edge_counter_extends (depth : nat) :
  ∀ scope scope_wf dscope index head self s',
    _edge_counter depth scope scope_wf dscope index head self = Ok s' →
    extends self s' ∧ is_Some (edge_dicts s' !! dscope).
Proof.
  induction depth as [|depth IH]; intros scope scope_wf dscope index head self s' Hrun;
    [discriminate|].
  simpl in Hrun. rewrite lookup_insert_eq in Hrun. simpl in Hrun.
  set (start := with_edge_dicts _ self) in Hrun.
  assert (extends self start ∧ is_Some (edge_dicts start !! dscope)) as [H0 H1].
  { split.
    - split; [reflexivity|]. split; [|reflexivity].
      intros k Hk. simpl. destruct (decide (dscope = k)) as [->|Hne].
      + rewrite lookup_insert_eq. eauto.
      + rewrite lookup_insert_ne by exact Hne. exact Hk.
    - simpl. rewrite lookup_insert_eq. eauto. }
  assert (extends start s') as H2.
  { revert Hrun. apply for_each_rel; [apply extends_refl | apply extends_trans |].
    apply Forall_forall. intros entry _ s t Hbody.
    apply bind_Ok in Hbody as (nd & _ & Hbody).
    apply bind_Ok in Hbody as (mid & Hmid & Hbody).
    apply bind_Ok in Hbody as (outputs & _ & [= <-]).
    eapply extends_trans; [|apply extends_append].
    destruct nd as [name c|name d wf|name a d wf].
    - injection Hmid as <-. apply extends_refl.
    - destruct (is_solver d); [|discriminate]. eapply IH, Hmid.
    - apply bind_Ok in Hmid as (inputs & _ & Hmid).
      eapply extends_trans; [apply extends_append|]. eapply IH, Hmid. }
  split; [eapply extends_trans; eassumption|].
  apply H2, H1.
Qed.

(** X8.  The edge counter only appends: a call that returns has extended
    [var_list] at its end and filed edge dictionaries (that of the scope it
    was called for among them, none removed); the mode, both lists of names,
    the matrices and the gradient are as before. *)
Theorem _edge_counter_appends (depth : nat) (scope : driver_data)
    (scope_wf : list node) (dscope : string) (index : nat) (head : string)
    (self s' : Analytic) :
  _edge_counter depth scope scope_wf dscope index head self = Ok s' →
  (∃ added, var_list s' = (var_list self ++ added)%list) ∧
  is_Some (edge_dicts s' !! dscope) ∧
  (∀ k, is_Some (edge_dicts self !! k) → is_Some (edge_dicts s' !! k)) ∧
  mode s' = mode self ∧ param_names s' = param_names self ∧
  function_names s' = function_names self ∧
  LHS s' = LHS self ∧ RHS s' = RHS self ∧ EQS s' = EQS self ∧
  EQS_zero s' = EQS_zero self ∧ gradient s' = gradient self.
Proof.
  intros Hrun.
  apply _edge_counter_extends in Hrun as ((Hv & He & Hc) & Hd).
  injection Hc as Hmode Hp Hf HL HR HE HZ _ Hg.
  split; [exact Hv|]. split; [exact Hd|]. split; [exact He|].
  auto 10.
Qed.

(** The loop of the counter over entries that all name components. *)
Lemma flat_loop (depth : nat) (scope : driver_data) (scope_wf : list node)
    (index : nat) (md : mode_t) (head : string) (ed : edge_dict) :
  index = match md with adjoint => 0 | direct => 1 end →
  Forall (λ entry : string * (list string * list string),
            ∃ name c, get scope scope_wf entry.1 = Ok (Component name c)) ed →
  ∀ self,
    for_each
      (λ (entry : string * (list string * list string)) self,
         nd ← get scope scope_wf entry.1;
         self ←
           match nd with
           | Assembly _ a d wf =>
               inputs ← edges_at entry.2 (if decide (index = 1) then 0 else 1);
               _edge_counter depth d wf (d_pathname d) index (a_pathname a)
                 (append_names head entry.1 inputs self)
           | Driver _ d wf =>
               if is_solver d
               then _edge_counter depth scope scope_wf (d_pathname d) index head self
               else Raise (NotImplementedError "Only nested solvers are supported")
           | Component _ _ => Ok self
           end;
         outputs ← edges_at entry.2 index;
         Ok (append_names head entry.1 outputs self))
      ed self
    = Ok (with_var_list (var_list self ++ flat_names head md ed)%list self).
Proof.
  intros Hindex Hflat. induction Hflat as [|entry ed (name & c & Hget) _ IH]; intros self.
  - simpl. rewrite app_nil_r. destruct self; reflexivity.
  - cbn [for_each]. rewrite Hget. cbn [mbind result_bind].
    assert (edges_at entry.2 index = Ok (counted md entry.2)) as ->.
    { rewrite Hindex. destruct md; reflexivity. }
    cbn [mbind result_bind]. rewrite IH.
    unfold append_names, with_var_list, flat_names. simpl.
    rewrite <- app_assoc. reflexivity.
Qed.

(** The counter on a scope whose edge dictionary names components only. *)
Lemma _edge_counter_flat (depth : nat) (scope : driver_data) (scope_wf : list node)
    (dscope : string) (md : mode_t) (head : string) (self : Analytic) :
  Forall (λ entry : string * (list string * list string),
            ∃ name c, get scope scope_wf entry.1 = Ok (Component name c))
    (_find_edges (d_pathname scope) dscope) →
  _edge_counter (S depth) scope scope_wf dscope
    (match md with adjoint => 0 | direct => 1 end) head self
  = Ok (with_var_list
          (var_list self
             ++ flat_names (head_prefix head) md (_find_edges (d_pathname scope) dscope))%list
          (with_edge_dicts
             (<[dscope := _find_edges (d_pathname scope) dscope]> (edge_dicts self))
             self)).
Proof.
  intros Hflat. simpl. rewrite lookup_insert_eq. simpl.
  exact (flat_loop depth scope scope_wf _ md (head_prefix head) _ eq_refl Hflat _).
Qed.

(** X9.  When the edge dictionary of the driver names components only, the
    counting part of [setup] returns, and [var_list] is, entry by entry in
    the order of the dictionary, the names [component.output] in direct mode
    and [component.input] in adjoint mode; whatever [var_list] held before is
    dropped. *)
Theorem flat_enumeration (m : model) (self : Analytic) :
  recursion_limit ≠ 0 →
  Forall (λ entry : string * (list string * list string),
            ∃ name c, get (parent m) (workflow m) entry.1 = Ok (Component name c))
    (_find_edges (d_pathname (parent m)) (d_pathname (parent m))) →
  ∃ s', setup_enumerate m self = Ok s' ∧
    var_list s' =
      flat_map (λ entry : string * (list string * list string),
                  dotted entry.1 <$> counted (mode self) entry.2)
        (_find_edges (d_pathname (parent m)) (d_pathname (parent m))).
Proof.
  intros Hlimit Hflat. unfold setup_enumerate.
  destruct recursion_limit as [|depth]; [contradiction|].
  change (mode self) with (mode (with_var_list [] self)).
  rewrite (_edge_counter_flat depth _ _ _ (mode (with_var_list [] self)) "" _ Hflat).
  eexists. split; [reflexivity|]. reflexivity.
Qed.

End Counter.

Lemma _edge_counter_appends_witness :
  (∃ added, var_list Chain.after_setup = (var_list Solved.counted_from ++ added)%list) ∧
  is_Some (edge_dicts Chain.after_setup !! "driver") ∧
  (∀ k, is_Some (edge_dicts Solved.counted_from !! k) →
        is_Some (edge_dicts Chain.after_setup !! k)) ∧
  mode Chain.after_setup = mode Solved.counted_from ∧
  param_names Chain.after_setup = param_names Solved.counted_from ∧
  function_names Chain.after_setup = function_names Solved.counted_from ∧
  LHS Chain.after_setup = LHS Solved.counted_from ∧
  RHS Chain.after_setup = RHS Solved.counted_from ∧
  EQS Chain.after_setup = EQS Solved.counted_from ∧
  EQS_zero Chain.after_setup = EQS_zero Solved.counted_from ∧
  gradient Chain.after_setup = gradient Solved.counted_from.
Proof.
  apply (@_edge_counter_appends (framework Chain.edges (λ _ _, 1%Q)) 1
           (parent (Chain.chain 2 3)) (workflow (Chain.chain 2 3)) "driver" 1 ""
           Solved.counted_from Chain.after_setup).
  vm_compute. reflexivity.
Defined.

Lemma flat_enumeration_witness :
  ∃ s', @setup_enumerate (framework Chain.edges (λ _ _, 1%Q)) (Chain.chain 2 3)
          (Chain.start direct) = Ok s' ∧
        var_list s' = ["compa.a"; "compb.b"].
Proof.
  apply (@flat_enumeration (framework Chain.edges (λ _ _, 1%Q)) (Chain.chain 2 3)
           (Chain.start direct)).
  - discriminate.
  - repeat constructor; eexists _, _; vm_compute; reflexivity.
Defined.

(** ** The dictionary of a nested solver *)

Lemma solver_equation_Ok (params comps : list string) (d d' : gmap string string) :
  solver_equation params comps d = Ok d' →
  ∃ c0 c1, comps !! 0 = Some c0 ∧ comps !! 1 = Some c1 ∧
    ((c0 ∈ params ∧ d' = <[c0 := c1]> d) ∨
     ((c0 ∉ params) ∧ c1 ∈ params ∧ d' = <[c1 := c0]> d)).
Proof.
  unfold solver_equation, member. intros Hrun.
  apply bind_Ok in Hrun as (c0 & H0%or_raise_Ok & Hrun).
  destruct (bool_decide (c0 ∈ params)) eqn:Hc0.
  - apply bool_decide_eq_true in Hc0.
    apply bind_Ok in Hrun as (c1 & H1%or_raise_Ok & [= <-]).
    exists c0, c1. auto.
  - apply bool_decide_eq_false in Hc0.
    apply bind_Ok in Hrun as (c1 & H1%or_raise_Ok & Hrun).
    destruct (bool_decide (c1 ∈ params)) eqn:Hc1; [|discriminate].
    apply bool_decide_eq_true in Hc1. injection Hrun as <-.
    exists c0, c1. auto 6.
Qed.

(** X10.  The dictionary a nested solver's equations are collected into,
    when the loop over them returns: every equation has two references of
    which one is a parameter of the solver, the first one when both are; it
    is filed as the key and the other as its value, a later equation with
    the same key replacing an earlier one.  So every key is a parameter of
    the solver and every entry pairs the two references of one equation. *)
Theorem solver_dict_entries (params : list string) (eqs : list (list string))
    (dict : gmap string string) :
  for_each (solver_equation params) eqs ∅ = Ok dict →
  (∀ k v, dict !! k = Some v →
     k ∈ params ∧
     ∃ comps, comps ∈ eqs ∧
       ((comps !! 0 = Some k ∧ comps !! 1 = Some v) ∨
        (comps !! 0 = Some v ∧ comps !! 1 = Some k ∧ v ∉ params))) ∧
  (∀ comps, comps ∈ eqs →
     ∃ c0 c1, comps !! 0 = Some c0 ∧ comps !! 1 = Some c1 ∧
       ((c0 ∈ params ∧ is_Some (dict !! c0)) ∨
        ((c0 ∉ params) ∧ c1 ∈ params ∧ is_Some (dict !! c1)))) ∧
  (∀ pre comps c0 c1, eqs = (pre ++ [comps])%list →
     comps !! 0 = Some c0 → comps !! 1 = Some c1 →
     (c0 ∈ params → dict !! c0 = Some c1) ∧
     (c0 ∉ params → dict !! c1 = Some c0)).
Proof.
  assert (∀ d0 d,
    for_each (solver_equation params) eqs d0 = Ok d →
    (∀ k v, d !! k = Some v →
       d0 !! k = Some v ∨
       (k ∈ params ∧
        ∃ comps, comps ∈ eqs ∧
          ((comps !! 0 = Some k ∧ comps !! 1 = Some v) ∨
           (comps !! 0 = Some v ∧ comps !! 1 = Some k ∧ v ∉ params)))) ∧
    (∀ k, is_Some (d0 !! k) → is_Some (d !! k)) ∧
    (∀ comps, comps ∈ eqs →
       ∃ c0 c1, comps !! 0 = Some c0 ∧ comps !! 1 = Some c1 ∧
         ((c0 ∈ params ∧ is_Some (d !! c0)) ∨
          ((c0 ∉ params) ∧ c1 ∈ params ∧ is_Some (d !! c1)))) ∧
    (∀ pre comps c0 c1, eqs = (pre ++ [comps])%list →
       comps !! 0 = Some c0 → comps !! 1 = Some c1 →
       (c0 ∈ params → d !! c0 = Some c1) ∧
       (c0 ∉ params → d !! c1 = Some c0))) as Hgen.
  { induction eqs as [|eq eqs IH]; intros d0 d Hrun.
    - injection Hrun as <-. split; [auto|]. split; [auto|]. split.
      + intros comps Hin. apply elem_of_nil in Hin as [].
      + intros [|? ?] ? ? ? ?; discriminate.
    - change (solver_equation params eq d0 ≫= for_each (solver_equation params) eqs
              = Ok d) in Hrun.
      apply bind_Ok in Hrun as (d1 & Hstep & Hrest).
      apply solver_equation_Ok in Hstep as (c0 & c1 & H0 & H1 & Hcase).
      destruct (IH _ _ Hrest) as (Hkeys & Hmono & Heqs & Hlast).
      assert (∀ k, is_Some (d0 !! k) → is_Some (d1 !! k)) as Hmono1.
      { intros k Hk. destruct Hcase as [[_ ->]|(_ & _ & ->)];
          apply lookup_insert_is_Some; destruct (decide (c0 = k)), (decide (c1 = k));
          auto. }
      split; [|split; [|split]].
      + intros k v Hkv. destruct (Hkeys k v Hkv) as [Hold|(Hk & comps & Hin & Hc)].
        * destruct Hcase as [[Hp ->]|(Hn & Hp & ->)].
          -- apply lookup_insert_Some in Hold as [[<- <-]|[_ Hold]]; [|auto].
             right. split; [exact Hp|]. exists eq.
             split; [apply list_elem_of_here | auto].
          -- apply lookup_insert_Some in Hold as [[<- <-]|[_ Hold]]; [|auto].
             right. split; [exact Hp|]. exists eq.
             split; [apply list_elem_of_here | auto].
        * right. split; [exact Hk|]. exists comps.
          split; [apply list_elem_of_further, Hin | exact Hc].
      + intros k Hk. auto.
      + intros comps [->|Hin]%elem_of_cons; [|auto].
        exists c0, c1. split; [exact H0|]. split; [exact H1|].
        destruct Hcase as [[Hp ->]|(Hn & Hp & ->)].
        * left. split; [exact Hp|]. apply Hmono. rewrite lookup_insert_eq. eauto.
        * right. split; [exact Hn|]. split; [exact Hp|].
          apply Hmono. rewrite lookup_insert_eq. eauto.
      + intros pre comps a b Heq Ha Hb.
        destruct pre as [|eq' pre].
        * simpl in Heq. injection Heq as -> ->. injection Hrest as <-.
          assert (a = c0) as -> by congruence. assert (b = c1) as -> by congruence.
          destruct Hcase as [[Hp ->]|(Hn & Hp & ->)].
          -- split; [intros _; apply lookup_insert_eq | contradiction].
          -- split; [contradiction | intros _; apply lookup_insert_eq].
        * simpl in Heq. injection Heq as <- ->. eapply Hlast; eauto. }
  intros Hrun. destruct (Hgen _ _ Hrun) as (Hkeys & _ & Heqs & Hlast).
  split; [|split; [exact Heqs | exact Hlast]].
  intros k v Hkv. destruct (Hkeys k v Hkv) as [Hold|H]; [|exact H].
  rewrite lookup_empty in Hold. discriminate.
Qed.

Lemma solver_dict_entries_witness :
  (∀ k v, SolverLoop.solver_dict !! k = Some v →
     k ∈ ["c.x"] ∧
     ∃ comps, comps ∈ [["c.x"; "d.inp"]] ∧
       ((comps !! 0 = Some k ∧ comps !! 1 = Some v) ∨
        (comps !! 0 = Some v ∧ comps !! 1 = Some k ∧ v ∉ ["c.x"]))) ∧
  (∀ comps, comps ∈ [["c.x"; "d.inp"]] →
     ∃ c0 c1, comps !! 0 = Some c0 ∧ comps !! 1 = Some c1 ∧
       ((c0 ∈ ["c.x"] ∧ is_Some (SolverLoop.solver_dict !! c0)) ∨
        ((c0 ∉ ["c.x"]) ∧ c1 ∈ ["c.x"] ∧ is_Some (SolverLoop.solver_dict !! c1)))) ∧
  (∀ pre comps c0 c1, [["c.x"; "d.inp"]] = (pre ++ [comps])%list →
     comps !! 0 = Some c0 → comps !! 1 = Some c1 →
     (c0 ∈ ["c.x"] → SolverLoop.solver_dict !! c0 = Some c1) ∧
     (c0 ∉ ["c.x"] → SolverLoop.solver_dict !! c1 = Some c0)).
Proof.
  apply (solver_dict_entries (d_parameters SolverLoop.solver)
           (d_eq_constraints SolverLoop.solver) SolverLoop.solver_dict).
  vm_compute. reflexivity.
Defined.

(** ** The equation counter and the rows a pass writes *)

Lemma only_row_refl (i : nat) (s : Analytic) : only_row i s s.
Proof. intros r c _. auto. Qed.

Lemma only_row_trans (i : nat) (s t u : Analytic) :
  only_row i s t → only_row i t u → only_row i s u.
Proof.
  intros H1 H2 r c Hr. destruct (H2 r c Hr) as [-> ->]. apply H1, Hr.
Qed.

Lemma only_row_LHS (s : Analytic) (L : matrix) (i j : nat) (v : Q) :
  setitem2 (LHS s) i j v = Ok L → only_row i s (with_LHS L s).
Proof.
  intros Hset r c Hr. simpl. split; [|reflexivity].
  eapply getitem2_setitem2_row; eassumption.
Qed.

Lemma only_row_RHS (s : Analytic) (R : matrix) (i j : nat) (v : Q) :
  setitem2 (RHS s) i j v = Ok R → only_row i s (with_RHS R s).
Proof.
  intros Hset r c Hr. simpl. split; [reflexivity|].
  eapply getitem2_setitem2_row; eassumption.
Qed.

Lemma only_rows_refl (st : frame * nat * Analytic) : only_rows_rel st st.
Proof. split; [lia | auto]. Qed.

Lemma only_rows_trans (s t u : frame * nat * Analytic) :
  only_rows_rel s t → only_rows_rel t u → only_rows_rel s u.
Proof.
  intros [Hle1 H1] [Hle2 H2]. split; [lia|].
  intros r c Hr. destruct (H2 r c) as [-> ->]; [lia|]. apply H1. lia.
Qed.

Lemma only_rows_one (i : nat) (s s' : Analytic) :
  only_row i s s' → only_rows i s (S i) s'.
Proof. intros H. split; [lia|]. intros r c Hr. apply H. lia. Qed.

(** A loop whose bodies advance a counter by amounts that depend on the
    element only, while an invariant holds. *)
Lemma for_each_count {A S} (cnt : S → nat) (P : S → Prop) (f : A → nat)
    (body : A → S → result S) (l : list A) :
  Forall (λ x, ∀ s s', body x s = Ok s' → P s → cnt s' = cnt s + f x ∧ P s') l →
  ∀ s s', for_each body l s = Ok s' → P s →
    cnt s' = cnt s + sum_list (f <$> l) ∧ P s'.
Proof.
  intros Hbody. induction Hbody as [|x l Hx _ IH]; intros s s' Hrun HP.
  - injection Hrun as <-. simpl. split; [lia | exact HP].
  - change (body x s ≫= for_each body l = Ok s') in Hrun.
    apply bind_Ok in Hrun as (mid & Hstep & Hrest).
    destruct (Hx _ _ Hstep HP) as [Hc HP1].
    destruct (IH _ _ Hrest HP1) as [Hc' HP'].
    split; [|exact HP']. rewrite Hc', Hc. rewrite fmap_cons. simpl. lia.
Qed.

Lemma edges_of_node_edges (s : Analytic) (scope_name name : string)
    (edges : list string * list string) :
  edges_of s scope_name name = Ok edges →
  node_edges (edge_dicts s) scope_name name = edges.
Proof. unfold edges_of, node_edges. intros ->. reflexivity. Qed.

Lemma keeps_edge_dicts (s s' : Analytic) : keeps s s' → edge_dicts s' = edge_dicts s.
Proof. intros [[= _ _ _ He _ _ _ _ _] _]. exact He. Qed.

Lemma keeps_param_names (s s' : Analytic) : keeps s s' → param_names s' = param_names s.
Proof. intros [[= _ Hp _ _ _ _ _ _ _] _]. exact Hp. Qed.

Section Rows.
Context `{FW : Framework}.

Lemma component_input_row ascope head name conns derivs out i_eq inp st st' :
  component_input setitem2 ascope head name conns derivs out i_eq inp st = Ok st' →
  only_row i_eq st.2 st'.2.
Proof.
  destruct st as [fr self]. unfold component_input. intros Hrun.
  destruct (member _ _).
  - run_steps Hrun. injection Hrun as <-. eapply only_row_RHS; eassumption.
  - destruct (conns ≫= _) as [source|]; simpl in Hrun.
    + run_steps Hrun. injection Hrun as <-. eapply only_row_LHS; eassumption.
    + run_steps Hrun. injection Hrun as <-. eapply only_row_LHS; eassumption.
Qed.

Lemma component_row_rows ascope head name conns derivs inputs out st st' :
  component_row setitem2 ascope head name conns derivs inputs out st = Ok st' →
  only_row st.1.2 st.2 st'.2.
Proof.
  destruct st as [[fr i_eq] self]. unfold component_row. intros Hrun.
  apply bind_Ok in Hrun as (L & HL & Hrun).
  apply bind_Ok in Hrun as (st1 & Hloop & [= <-]). simpl.
  eapply only_row_trans; [eapply only_row_LHS, HL|].
  apply (for_each_rel (λ a b : frame * Analytic, only_row i_eq a.2 b.2)) in Hloop;
    [exact Hloop | intros; apply only_row_refl
     | intros ? ? ?; apply only_row_trans |].
  apply Forall_forall. intros inp _ s s'. apply component_input_row.
Qed.

Lemma assembly_input_row_rows ascope head name inp st st' :
  assembly_input_row setitem2 ascope head name inp st = Ok st' →
  only_row st.1.2 st.2 st'.2.
Proof.
  destruct st as [[fr i_eq] self]. unfold assembly_input_row. intros Hrun.
  apply bind_Ok in Hrun as (L & HL & Hrun). simpl in Hrun.
  destruct (member _ _).
  - run_steps Hrun. injection Hrun as <-. simpl.
    eapply only_row_trans; [eapply only_row_LHS, HL|].
    eapply (only_row_RHS (with_LHS L self)); eassumption.
  - run_steps Hrun. injection Hrun as <-. simpl.
    eapply only_row_trans; [eapply only_row_LHS, HL|].
    eapply (only_row_LHS (with_LHS L self)); eassumption.
Qed.

Lemma assembly_output_row_rows sub_scope head name out st st' :
  assembly_output_row setitem2 sub_scope head name out st = Ok st' →
  only_row st.1.2 st.2 st'.2.
Proof.
  destruct st as [[fr i_eq] self]. unfold assembly_output_row. intros Hrun.
  apply bind_Ok in Hrun as (L & HL & Hrun). simpl in Hrun.
  run_steps Hrun. injection Hrun as <-. simpl.
  eapply only_row_trans; [eapply only_row_LHS, HL|].
  eapply (only_row_LHS (with_LHS L self)); eassumption.
Qed.

(** The three loops that give one equation per element. *)
Lemma row_loop {A} (body : A → frame * nat * Analytic → result (frame * nat * Analytic))
    (l : list A) :
  (∀ x st st', body x st = Ok st' →
     keeps st.2 st'.2 ∧ st'.1.2 = S st.1.2 ∧ only_row st.1.2 st.2 st'.2) →
  ∀ st st', for_each body l st = Ok st' →
    keeps st.2 st'.2 ∧ st'.1.2 = st.1.2 + length l ∧ only_rows_rel st st'.
Proof.
  intros Hbody. induction l as [|x l IH]; intros st st' Hrun.
  - injection Hrun as <-. split; [apply keeps_refl|]. split; [simpl; lia|].
    apply only_rows_refl.
  - change (body x st ≫= for_each body l = Ok st') in Hrun.
    apply bind_Ok in Hrun as (mid & Hstep & Hrest).
    destruct (Hbody _ _ _ Hstep) as (Hk & Hc & Hrow).
    destruct (IH _ _ Hrest) as (Hk' & Hc' & Hrows).
    split; [eapply keeps_trans; eassumption|]. split; [simpl; lia|].
    eapply only_rows_trans; [|exact Hrows].
    unfold only_rows_rel. rewrite Hc. apply only_rows_one, Hrow.
Qed.

Lemma assemble_node_rows (n : node) :
  ∀ ascope scope_name head conns st st',
    assemble_node setitem2 ascope scope_name head conns n st = Ok st' →
    st'.1.2 = st.1.2 + rows_of (edge_dicts st.2) scope_name n ∧
    only_rows_rel st st'.
Proof.
  induction n as [name c|name d wf IH|name a d wf IH] using node_workflow_ind;
    intros ascope scope_name head conns st st' Hrun; simpl in Hrun.
  - cbn [rows_of]. destruct (has_derivatives c).
    + apply bind_Ok in Hrun as (ed & Hed & Hloop).
      apply edges_of_node_edges in Hed as ->.
      apply row_loop in Hloop as (_ & Hc & Hrows); [auto|].
      intros out s s' H. split; [eapply component_row_keeps, H|].
      split; [eapply component_row_keeps, H | eapply component_row_rows, H].
    + injection Hrun as <-. split; [lia | apply only_rows_refl].
  - cbn [rows_of]. destruct (is_solver d); [|discriminate].
    apply bind_Ok in Hrun as (dict & _ & Hrun).
    apply bind_Ok in Hrun as (st1 & Hloop & [= <-]). simpl.
    pose proof Hloop as Hrows.
    apply (for_each_count (λ s : frame * nat * Analytic, s.1.2)
             (λ s, edge_dicts s.2 = edge_dicts st.2)
             (rows_of (edge_dicts st.2) (d_pathname d))) in Hloop as [Hc _];
      [|clear Hloop Hrows|reflexivity].
    + split; [exact Hc|].
      apply (for_each_rel only_rows_rel) in Hrows;
        [exact Hrows | apply only_rows_refl | apply only_rows_trans |].
      eapply Forall_impl; [exact IH|]. intros n Hn s s' H. eapply Hn, H.
    + eapply Forall_impl; [exact IH|]. intros n Hn s s' H He.
      split; [rewrite <- He; eapply Hn, H|].
      rewrite <- He. eapply keeps_edge_dicts, assemble_node_keeps, H.
  - cbn [rows_of]. destruct (is_run_once d); [|discriminate].
    apply bind_Ok in Hrun as (ed & Hed & Hrun).
    apply edges_of_node_edges in Hed as ->.
    apply bind_Ok in Hrun as (st1 & Hin & Hrun).
    apply bind_Ok in Hrun as (st2 & Hloop & Hout).
    apply row_loop in Hin as (Hk1 & Hc1 & Hrows1);
      [|intros inp s s' H; split; [eapply assembly_input_row_keeps, H|];
        split; [eapply assembly_input_row_keeps, H
               | eapply assembly_input_row_rows, H]].
    apply row_loop in Hout as (Hk3 & Hc3 & Hrows3);
      [|intros out s s' H; split; [eapply assembly_output_row_keeps, H|];
        split; [eapply assembly_output_row_keeps, H
               | eapply assembly_output_row_rows, H]].
    pose proof Hloop as Hrows2.
    apply (for_each_count (λ s : frame * nat * Analytic, s.1.2)
             (λ s, edge_dicts s.2 = edge_dicts st.2)
             (rows_of (edge_dicts st.2) (d_pathname d))) in Hloop as [Hc2 _];
      [|clear Hloop Hrows2|simpl; eapply keeps_edge_dicts, Hk1].
    + simpl in Hc2, Hc3. split; [lia|].
      apply (for_each_rel only_rows_rel) in Hrows2;
        [| apply only_rows_refl | apply only_rows_trans
         | eapply Forall_impl; [exact IH|]; intros n Hn s s' H; eapply Hn, H].
      eapply only_rows_trans; [exact Hrows1|].
      eapply only_rows_trans; [|exact Hrows3]. exact Hrows2.
    + eapply Forall_impl; [exact IH|]. intros n Hn s s' H He.
      split; [rewrite <- He; eapply Hn, H|].
      rewrite <- He. eapply keeps_edge_dicts, assemble_node_keeps, H.
Qed.

Lemma workflow_rows ascope scope_name head conns (wf : list node) :
  ∀ st st',
    for_each (assemble_node setitem2 ascope scope_name head conns) wf st = Ok st' →
    st'.1.2 = st.1.2 + sum_list (rows_of (edge_dicts st.2) scope_name <$> wf) ∧
    only_rows_rel st st' ∧ keeps st.2 st'.2.
Proof.
  intros st st' Hrun. split; [|split].
  - eapply (for_each_count (λ s : frame * nat * Analytic, s.1.2)
              (λ s, edge_dicts s.2 = edge_dicts st.2)); [|exact Hrun|reflexivity].
    apply Forall_forall. intros n _ s s' H He.
    split; [rewrite <- He; eapply assemble_node_rows, H|].
    rewrite <- He. eapply keeps_edge_dicts, assemble_node_keeps, H.
  - revert Hrun. apply for_each_rel; [apply only_rows_refl | apply only_rows_trans|].
    apply Forall_forall. intros n _ s s' H. eapply assemble_node_rows, H.
  - revert Hrun.
    apply (for_each_rel (λ a b : frame * nat * Analytic, keeps a.2 b.2));
      [intros; apply keeps_refl | intros ? ? ?; apply keeps_trans |].
    apply Forall_forall. intros n _ s s' H. eapply assemble_node_keeps, H.
Qed.

(** X11.  The equation counter of a pass that returns: it has advanced by
    the equations of the nodes of the workflow, one per output of each
    component that has derivatives, none for a component that has none, one
    per boundary input and output of a sub-assembly besides those of its
    workflow; and the pass has written no cell of [LHS] or [RHS] outside the
    rows from the counter it was given up to the one it returns. *)
Theorem equation_counter (ascope : assembly_data) (dscope : string)
    (wf : list node) (eq_num : nat) (head : string)
    (conns : option (gmap string string)) (self : Analytic) (r : nat * Analytic) :
  _assemble_direct ascope dscope wf eq_num head conns self = Ok r →
  r.1 = eq_num + sum_list (rows_of (edge_dicts self) dscope <$> wf) ∧
  ∀ row c, (row < eq_num ∨ r.1 ≤ row)%nat →
    getitem2 (LHS r.2) row c = getitem2 (LHS self) row c ∧
    getitem2 (RHS r.2) row c = getitem2 (RHS self) row c.
Proof.
  unfold _assemble_direct, assemble_workflow. intros Hrun.
  apply bind_Ok in Hrun as (st & Hloop & [= <-]).
  apply workflow_rows in Hloop as (Hc & [_ Hrows] & _). simpl in *.
  split; [exact Hc | exact Hrows].
Qed.

End Rows.

Lemma equation_counter_witness :
  2 = 0 + sum_list (rows_of (edge_dicts Chain.after_setup) "driver"
                      <$> workflow (Chain.chain 2 3)) ∧
  ∀ row c, (row < 0 ∨ 2 ≤ row)%nat →
    getitem2 (LHS Chain.assembled) row c = getitem2 (LHS Chain.after_setup) row c ∧
    getitem2 (RHS Chain.assembled) row c = getitem2 (RHS Chain.after_setup) row c.
Proof.
  apply (@equation_counter (framework Chain.edges (λ _ _, 1%Q))
           Chain.scope "driver" (workflow (Chain.chain 2 3)) 0 "" None
           Chain.after_setup (2, Chain.assembled)).
  vm_compute. reflexivity.
Defined.

(** ** The diagonal of the rows a pass opens *)

Section UnitDiagonal.
Context `{FW : Framework}.

(** C2.  The assembler numbers the rows of [LHS] by its equation counter,
    not by the place of an unknown in the variable list.  Take a pass in
    which no chained term lands on the diagonal, that is, a pass that also
    returns with the guarded store.  It is the pass of the program; its
    counter has advanced by the equations of the nodes of the workflow: one
    per output of a component that has derivatives, none for a component
    that has none, one per boundary input and output of a sub-assembly
    besides those of its workflow; every row from [eq_num] up to the counter
    it returns holds exactly 1 on the diagonal of [LHS]; and no other row of
    [LHS] was touched. *)
Theorem opened_rows_have_unit_diagonal (ascope : assembly_data) (dscope : string)
    (wf : list node) (eq_num : nat) (head : string)
    (conns : option (gmap string string)) (self : Analytic) (r : nat * Analytic) :
  assemble_workflow guarded_store ascope dscope wf eq_num head conns self = Ok r →
  _assemble_direct ascope dscope wf eq_num head conns self = Ok r ∧
  r.1 = eq_num + sum_list (rows_of (edge_dicts self) dscope <$> wf) ∧
  (∀ i, (eq_num ≤ i < r.1)%nat → getitem2 (LHS r.2) i i = Ok 1%Q) ∧
  (∀ i j, (i < eq_num ∨ r.1 ≤ i)%nat →
          getitem2 (LHS r.2) i j = getitem2 (LHS self) i j).
Proof.
  intros Hrun. apply guarded_pass_rows in Hrun as (Hpass & _ & Hdiag & Hrest).
  split; [exact Hpass|]. split; [|split; [exact Hdiag | exact Hrest]].
  unfold _assemble_direct, assemble_workflow in Hpass.
  apply bind_Ok in Hpass as (st & Hloop & [= <-]).
  apply workflow_rows in Hloop as (Hc & _). exact Hc.
Qed.

End UnitDiagonal.

Lemma opened_rows_have_unit_diagonal_witness :
  @_assemble_direct (framework Chain.edges (λ _ _, 1%Q)) Chain.scope "driver"
    (workflow (Chain.chain 2 3)) 0 "" None Chain.after_setup
    = Ok (2, Chain.assembled) ∧
  2 = 0 + sum_list (rows_of (edge_dicts Chain.after_setup) "driver"
                      <$> workflow (Chain.chain 2 3)) ∧
  (∀ i, (0 ≤ i < 2)%nat → getitem2 (LHS Chain.assembled) i i = Ok 1%Q) ∧
  (∀ i j, (i < 0 ∨ 2 ≤ i)%nat →
          getitem2 (LHS Chain.assembled) i j = getitem2 (LHS Chain.after_setup) i j).
Proof.
  apply (@opened_rows_have_unit_diagonal (framework Chain.edges (λ _ _, 1%Q))
           Chain.scope "driver" (workflow (Chain.chain 2 3)) 0 "" None
           Chain.after_setup (2, Chain.assembled)).
  vm_compute. reflexivity.
Defined.

(** A model the assembler accepts whose diagonal is not 1 everywhere: the
    component has no derivatives of its own, its output is counted as an
    unknown, and the pass returns without opening a row for it. *)
Lemma skipped_component_leaves_zero_diagonal :
  ∃ ready r,
    @setup (framework Skipped.edges (λ _ _, 1%Q)) Skipped.single Skipped.start
      = Ok ready ∧
    @_assemble_direct (framework Skipped.edges (λ _ _, 1%Q)) Chain.scope "driver"
      (workflow Skipped.single) 0 "" None ready = Ok r ∧
    var_list r.2 = ["comp.y"] ∧
    r.1 = 0 ∧
    getitem2 (LHS r.2) 0 0 = Ok 0%Q ∧
    getitem2 (LHS r.2) 0 0 ≠ Ok 1%Q.
Proof.
  eexists _, _. split; [vm_compute; reflexivity|].
  split; [vm_compute; reflexivity|].
  split; [reflexivity|]. split; [reflexivity|]. split; [reflexivity|]. discriminate.
Qed.

(** The rows that stay closed are the last ones, whichever unknowns the
    variable list puts there.  With the component without derivatives first
    and [compb] second the variable list is [comp.y, compb.b]; the one
    equation of the pass, that of [compb.b], is written to row 0, and row 1
    keeps the zeros of [setup].  The guarded store gives the same pass. *)
Example skipped_first_shifts_rows :
  (ready ← @setup (framework Skipped.pair_edges (λ _ _, 1%Q)) Skipped.pair
             Skipped.pair_start;
   r ← @_assemble_direct (framework Skipped.pair_edges (λ _ _, 1%Q)) Chain.scope
         "driver" (workflow Skipped.pair) 0 "" None ready;
   Ok (r.1, var_list r.2, LHS r.2, RHS r.2))
  = Ok (1, ["comp.y"; "compb.b"], [[1; 0]; [0; 0]]%Q, [[0; 3]; [0; 0]]%Q) ∧
  (ready ← @setup (framework Skipped.pair_edges (λ _ _, 1%Q)) Skipped.pair
             Skipped.pair_start;
   r ← @assemble_workflow (framework Skipped.pair_edges (λ _ _, 1%Q)) guarded_store
         Chain.scope "driver" (workflow Skipped.pair) 0 "" None ready;
   Ok (r.1, LHS r.2))
  = Ok (1, [[1; 0]; [0; 0]]%Q).
Proof. split; vm_compute; reflexivity. Qed.

(** Nor is the diagonal 1 when a chained term lands on it: in the loop of
    [SelfCoupled] the solver pairs the input of the component with the
    component's own output, and the term of the input replaces the 1. *)
Example self_coupled_diagonal_overwritten :
  (ready ← @setup (framework SelfCoupled.edges (λ _ _, 1%Q)) SelfCoupled.loop
             (init direct);
   r ← @_assemble_direct (framework SelfCoupled.edges (λ _ _, 1%Q)) Chain.scope
         "driver" (workflow SelfCoupled.loop) 0 "" None ready;
   Ok (r.1, var_list r.2, LHS r.2)) = Ok (1, ["c.y"], [[- (1 # 2)]]%Q) ∧
  (ready ← @setup (framework SelfCoupled.edges (λ _ _, 1%Q)) SelfCoupled.loop
             (init direct);
   @assemble_workflow (framework SelfCoupled.edges (λ _ _, 1%Q)) guarded_store
     Chain.scope "driver" (workflow SelfCoupled.loop) 0 "" None ready)
  = Raise IndexError.
Proof. split; vm_compute; reflexivity. Qed.

(** ** The right-hand side: parameters that feed a component *)

Lemma append_inj_r (a b c : string) : a +:+ b = a +:+ c → b = c.
Proof. induction a as [|ch a IH]; simpl; [auto|]. intros [= H]. auto. Qed.

Lemma dotted_inj_r (name x y : string) : dotted name x = dotted name y → x = y.
Proof. unfold dotted. intros H. apply append_inj_r in H. injection H as H. exact H.
Qed.

(** When the body of one element establishes a property that the bodies of
    all elements preserve, the loop over a list that holds the element
    establishes it. *)
Lemma for_each_establishes {A S} (Inv Q : S → Prop) (body : A → S → result S)
    (l : list A) (x : A) :
  (∀ y s s', body y s = Ok s' → Inv s → Inv s' ∧ (Q s → Q s')) →
  (∀ s s', body x s = Ok s' → Inv s → Q s') →
  x ∈ l →
  ∀ s s', for_each body l s = Ok s' → Inv s → Q s'.
Proof.
  intros Hkeep Hx. induction l as [|y l IH]; intros Hin s s' Hrun HI.
  - apply elem_of_nil in Hin as [].
  - change (body y s ≫= for_each body l = Ok s') in Hrun.
    apply bind_Ok in Hrun as (mid & Hstep & Hrest).
    destruct (Hkeep _ _ _ Hstep HI) as [HI' _].
    apply elem_of_cons in Hin as [->|Hin]; [|eauto].
    assert (Q mid) as HQ by (eapply Hx; eassumption).
    clear IH Hx Hstep HI. revert mid HI' HQ Hrest.
    induction l as [|z l IH]; intros mid HI' HQ Hrest.
    + injection Hrest as <-. exact HQ.
    + change (body z mid ≫= for_each body l = Ok s') in Hrest.
      apply bind_Ok in Hrest as (mid' & Hstep & Hrest).
      destruct (Hkeep _ _ _ Hstep HI') as [HI'' HQ'].
      eapply IH; [exact HI'' | exact (HQ' HQ) | exact Hrest].
Qed.

Section ParameterColumns.
Context `{FW : Framework}.

Lemma component_input_parameter ascope head name conns derivs out i_eq inp st st' :
  component_input setitem2 ascope head name conns derivs out i_eq inp st = Ok st' →
  dotted name inp ∈ param_names st.2 →
  holds_derivative (param_names st.2) name derivs out i_eq inp st'.2.
Proof.
  destruct st as [fr self]. unfold component_input, member. simpl. intros Hrun Hp.
  rewrite bool_decide_eq_true_2 in Hrun by exact Hp.
  apply bind_Ok in Hrun as (j & Hj & Hrun).
  apply bind_Ok in Hrun as (v & Hv & Hrun).
  apply bind_Ok in Hrun as (R & HR & [= <-]). simpl.
  exists j, v. split; [exact Hj|]. split; [exact Hv|].
  eapply getitem2_setitem2_eq, HR.
Qed.

Lemma component_input_holds ascope head name conns derivs out i_eq inp inp' st st' :
  component_input setitem2 ascope head name conns derivs out i_eq inp' st = Ok st' →
  holds_derivative (param_names st.2) name derivs out i_eq inp st.2 →
  holds_derivative (param_names st.2) name derivs out i_eq inp st'.2.
Proof.
  destruct st as [fr self]. unfold component_input. simpl.
  intros Hrun (j & v & Hj & Hv & Hcell). exists j, v.
  split; [exact Hj|]. split; [exact Hv|].
  destruct (member _ _).
  - apply bind_Ok in Hrun as (j' & Hj' & Hrun).
    apply bind_Ok in Hrun as (v' & Hv' & Hrun).
    apply bind_Ok in Hrun as (R & HR & [= <-]). simpl.
    destruct (decide (j' = j)) as [->|Hne].
    + assert (inp' = inp) as ->
        by (eapply dotted_inj_r, index_inj; eassumption).
      assert (v' = v) as -> by congruence.
      eapply getitem2_setitem2_eq, HR.
    + rewrite <- Hcell. eapply getitem2_setitem2_ne; [exact HR | congruence].
  - destruct (conns ≫= _) as [source|]; simpl in Hrun.
    + run_steps Hrun. injection Hrun as <-. exact Hcell.
    + run_steps Hrun. injection Hrun as <-. exact Hcell.
Qed.

Lemma component_row_parameters ascope head name conns derivs inputs out st st' inp :
  component_row setitem2 ascope head name conns derivs inputs out st = Ok st' →
  inp ∈ inputs →
  dotted name inp ∈ param_names st.2 →
  holds_derivative (param_names st.2) name derivs out st.1.2 inp st'.2.
Proof.
  destruct st as [[fr i_eq] self]. unfold component_row. simpl. intros Hrun Hin Hp.
  apply bind_Ok in Hrun as (L & HL & Hrun).
  apply bind_Ok in Hrun as (st1 & Hloop & [= <-]). simpl.
  eapply (for_each_establishes
            (λ s : frame * Analytic, param_names s.2 = param_names self)
            (λ s, holds_derivative (param_names self) name derivs out i_eq inp s.2)
            _ inputs inp); [| |exact Hin|exact Hloop|reflexivity].
  - intros y s s' Hstep Hs. split.
    + rewrite <- Hs. eapply keeps_param_names, component_input_keeps, Hstep.
    + rewrite <- Hs. eapply component_input_holds, Hstep.
  - intros s s' Hstep Hs. rewrite <- Hs.
    eapply component_input_parameter; [exact Hstep|]. rewrite Hs. exact Hp.
Qed.

(** The rows of one component: the output at position [l] of its edges has
    the row [i + l]. *)
Lemma component_node_parameters ascope scope_name head conns name c ins outs
    (st st' : frame * nat * Analytic) (l : nat) (out inp : string) :
  assemble_node setitem2 ascope scope_name head conns (Component name c) st = Ok st' →
  has_derivatives c = true →
  edges_of st.2 scope_name name = Ok (ins, outs) →
  outs !! l = Some out →
  inp ∈ ins →
  dotted name inp ∈ param_names st.2 →
  holds_derivative (param_names st.2) name (first_derivatives c) out
    (st.1.2 + l) inp st'.2.
Proof.
  intros Hrun Hc Hed Hl Hin Hp. simpl in Hrun. rewrite Hc, Hed in Hrun.
  simpl in Hrun.
  rewrite <- (take_drop_middle _ _ _ Hl) in Hrun.
  rewrite for_each_app in Hrun.
  apply bind_Ok in Hrun as (st1 & Hbefore & Hrun).
  change (component_row setitem2 ascope head name conns (first_derivatives c) ins
            out st1 ≫=
          for_each (component_row setitem2 ascope head name conns
                      (first_derivatives c) ins) (drop (S l) outs) = Ok st')
    in Hrun.
  apply bind_Ok in Hrun as (st2 & Hrow & Hafter).
  assert (∀ x s s',
    component_row setitem2 ascope head name conns (first_derivatives c) ins x s
      = Ok s' →
    keeps s.2 s'.2 ∧ s'.1.2 = S s.1.2 ∧ only_row s.1.2 s.2 s'.2) as Hbody.
  { intros x s s' H. split; [eapply component_row_keeps, H|].
    split; [eapply component_row_keeps, H | eapply component_row_rows, H]. }
  apply row_loop in Hbefore as (Hk1 & Hc1 & _); [|exact Hbody].
  apply row_loop in Hafter as (_ & _ & [_ Hrows]); [|exact Hbody].
  simpl in Hk1, Hc1.
  rewrite length_take_le in Hc1 by (apply Nat.lt_le_incl; eapply lookup_lt_Some, Hl).
  destruct (Hbody _ _ _ Hrow) as (_ & Hc2 & _).
  apply (component_row_parameters _ _ _ _ _ _ _ _ _ inp) in Hrow;
    [|exact Hin|rewrite (keeps_param_names _ _ Hk1); exact Hp].
  rewrite (keeps_param_names _ _ Hk1), Hc1 in Hrow.
  destruct Hrow as (j & v & Hj & Hv & Hcell).
  exists j, v. split; [exact Hj|]. split; [exact Hv|].
  rewrite <- Hcell. apply Hrows. lia.
Qed.

(** The rows of the components of a workflow. *)
Lemma workflow_parameters (ascope : assembly_data) (dscope : string)
    (wf : list node) (eq_num : nat) (head : string)
    (conns : option (gmap string string)) (self : Analytic) (r : nat * Analytic)
    (k l : nat) (name : string) (c : component_data)
    (ins outs : list string) (out inp : string) :
  assemble_workflow setitem2 ascope dscope wf eq_num head conns self = Ok r →
  wf !! k = Some (Component name c) →
  has_derivatives c = true →
  edges_of self dscope name = Ok (ins, outs) →
  outs !! l = Some out →
  inp ∈ ins →
  dotted name inp ∈ param_names self →
  ∃ j v,
    index (param_names self) (dotted name inp) = Ok j ∧
    local_deriv (first_derivatives c) out inp = Ok v ∧
    getitem2 (RHS r.2)
      (eq_num + sum_list (rows_of (edge_dicts self) dscope <$> take k wf) + l) j
      = Ok v.
Proof.
  unfold assemble_workflow. intros Hrun Hk Hc Hed Hl Hin Hp.
  apply bind_Ok in Hrun as (st & Hloop & [= <-]). simpl.
  rewrite <- (take_drop_middle _ _ _ Hk) in Hloop.
  rewrite for_each_app in Hloop.
  apply bind_Ok in Hloop as (st1 & Hbefore & Hloop).
  change (assemble_node setitem2 ascope dscope (head_prefix head) conns
            (Component name c) st1 ≫=
          for_each (assemble_node setitem2 ascope dscope (head_prefix head) conns)
            (drop (S k) wf) = Ok st) in Hloop.
  apply bind_Ok in Hloop as (st2 & Hnode & Hafter).
  apply workflow_rows in Hbefore as (Hc1 & _ & Hk1). simpl in Hc1, Hk1.
  apply workflow_rows in Hafter as (_ & [_ Hrows] & _).
  pose proof (assemble_node_rows _ _ _ _ _ _ _ Hnode) as [Hc2 _].
  cbn [rows_of] in Hc2. rewrite Hc in Hc2.
  assert (edges_of st1.2 dscope name = Ok (ins, outs)) as Hed1.
  { unfold edges_of. rewrite (keeps_edge_dicts _ _ Hk1). exact Hed. }
  rewrite (edges_of_node_edges _ _ _ _ Hed1) in Hc2. simpl in Hc2.
  apply (component_node_parameters _ _ _ _ _ _ ins outs _ _ l out inp) in Hnode;
    [|exact Hc|exact Hed1|exact Hl|exact Hin
     |rewrite (keeps_param_names _ _ Hk1); exact Hp].
  rewrite (keeps_param_names _ _ Hk1), Hc1 in Hnode.
  destruct Hnode as (j & v & Hj & Hv & Hcell).
  exists j, v. split; [exact Hj|]. split; [exact Hv|].
  rewrite <- Hcell. apply Hrows. left. rewrite Hc2, Hc1.
  apply lookup_lt_Some in Hl. lia.
Qed.

(** X12.  The right-hand side of a pass that returns.  For a component of
    the workflow that has derivatives, the equation of its output number [l]
    is the row [eq_num + (equations of the nodes before it) + l], and for
    every input of the component whose full name is a parameter the cell of
    that row in the parameter's column holds the local derivative of the
    output with respect to the input. *)
Theorem parameter_columns (ascope : assembly_data) (dscope : string)
    (wf : list node) (eq_num : nat) (head : string)
    (conns : option (gmap string string)) (self : Analytic) (r : nat * Analytic)
    (k l : nat) (name : string) (c : component_data)
    (ins outs : list string) (out inp : string) :
  _assemble_direct ascope dscope wf eq_num head conns self = Ok r →
  wf !! k = Some (Component name c) →
  has_derivatives c = true →
  edges_of self dscope name = Ok (ins, outs) →
  outs !! l = Some out →
  inp ∈ ins →
  dotted name inp ∈ param_names self →
  ∃ j v,
    index (param_names self) (dotted name inp) = Ok j ∧
    local_deriv (first_derivatives c) out inp = Ok v ∧
    getitem2 (RHS r.2)
      (eq_num + sum_list (rows_of (edge_dicts self) dscope <$> take k wf) + l) j
      = Ok v.
Proof. apply workflow_parameters. Qed.

End ParameterColumns.

Lemma parameter_columns_witness :
  ∃ j v,
    index (param_names Chain.after_setup) "compa.param" = Ok j ∧
    local_deriv (Chain.first_derivatives_of (Chain.compa 2)) "a" "param" = Ok v ∧
    getitem2 (RHS Chain.assembled) 0 j = Ok v.
Proof.
  apply (@parameter_columns (framework Chain.edges (λ _ _, 1%Q))
           Chain.scope "driver" (workflow (Chain.chain 2 3)) 0 "" None
           Chain.after_setup (2, Chain.assembled) 0 0 "compa" _ ["param"] ["a"]
           "a" "param").
  - vm_compute. reflexivity.
  - reflexivity.
  - reflexivity.
  - vm_compute. reflexivity.
  - reflexivity.
  - apply list_elem_of_here.
  - apply list_elem_of_here.
Defined.

(** ** A second call on unchanged inputs *)

Lemma same_shape_sym (A B : matrix) : same_shape A B → same_shape B A.
Proof. intros H. induction H; constructor; auto. Qed.

Lemma setitem2_both (M N M' : matrix) (i j : nat) (v : Q) :
  same_shape M N → setitem2 M i j v = Ok M' →
  ∃ N', setitem2 N i j v = Ok N' ∧ same_shape M' N'.
Proof.
  intros Hshape Hset. pose proof Hset as (row & Hrow & Hj & _)%setitem2_Ok.
  destruct (Forall2_lookup_l _ _ _ _ _ Hshape Hrow) as (row' & Hrow' & Hlen).
  assert (setitem2 N i j v = Ok (<[i := <[j := v]> row']> N)) as HN.
  { apply setitem2_Ok. exists row'. split; [exact Hrow'|]. split; [lia | reflexivity]. }
  eexists. split; [exact HN|].
  eapply same_shape_trans; [eapply same_shape_sym, setitem2_same_shape, Hset|].
  eapply same_shape_trans; [exact Hshape|]. eapply setitem2_same_shape, HN.
Qed.

Lemma getitem2_setitem2 (M M' : matrix) (i j i' j' : nat) (v : Q) :
  setitem2 M i j v = Ok M' →
  getitem2 M' i' j' = if decide ((i', j') = (i, j)) then Ok v else getitem2 M i' j'.
Proof.
  intros Hset. destruct (decide _) as [[= -> ->]|Hne].
  - eapply getitem2_setitem2_eq, Hset.
  - eapply getitem2_setitem2_ne; eassumption.
Qed.

Lemma rerun_LHS (F s t : Analytic) (i j : nat) (v : Q) (L : matrix) :
  rerun F s t → setitem2 (LHS s) i j v = Ok L →
  ∃ L', setitem2 (LHS t) i j v = Ok L' ∧ rerun F (with_LHS L s) (with_LHS L' t).
Proof.
  intros (Hreads & HL & HR & Hcells) Hset.
  destruct (setitem2_both _ _ _ _ _ _ HL Hset) as (L' & Hset' & HL').
  exists L'. split; [exact Hset'|]. split; [exact Hreads|]. simpl.
  split; [exact HL'|]. split; [exact HR|].
  intros i' j'. split; [|apply Hcells].
  rewrite (getitem2_setitem2 _ _ _ _ i' j' _ Hset),
          (getitem2_setitem2 _ _ _ _ i' j' _ Hset').
  destruct (decide _); [auto | apply Hcells].
Qed.

Lemma rerun_RHS (F s t : Analytic) (i j : nat) (v : Q) (R : matrix) :
  rerun F s t → setitem2 (RHS s) i j v = Ok R →
  ∃ R', setitem2 (RHS t) i j v = Ok R' ∧ rerun F (with_RHS R s) (with_RHS R' t).
Proof.
  intros (Hreads & HL & HR & Hcells) Hset.
  destruct (setitem2_both _ _ _ _ _ _ HR Hset) as (R' & Hset' & HR').
  exists R'. split; [exact Hset'|]. split; [exact Hreads|]. simpl.
  split; [exact HL|]. split; [exact HR'|].
  intros i' j'. split; [apply Hcells|].
  rewrite (getitem2_setitem2 _ _ _ _ i' j' _ Hset),
          (getitem2_setitem2 _ _ _ _ i' j' _ Hset').
  destruct (decide _); [auto | apply Hcells].
Qed.

(** Matrices of one shape that agree cell by cell are equal. *)
Lemma matrix_ext (A B : matrix) :
  same_shape A B → (∀ i j, getitem2 B i j = getitem2 A i j) → B = A.
Proof.
  intros Hshape Hcells. apply list_eq. intros i.
  destruct (A !! i) as [ra|] eqn:HA.
  - destruct (Forall2_lookup_l _ _ _ _ _ Hshape HA) as (rb & HB & Hlen).
    rewrite HB. f_equal. apply list_eq. intros j.
    specialize (Hcells i j). unfold getitem2 in Hcells.
    rewrite HA, HB in Hcells. simpl in Hcells.
    destruct (ra !! j) as [x|] eqn:Hx, (rb !! j) as [y|] eqn:Hy; simpl in Hcells;
      congruence.
  - apply lookup_ge_None in HA. apply lookup_ge_None.
    rewrite <- (Forall2_length _ _ _ Hshape). exact HA.
Qed.

Lemma for_each_rerun {A X} (R : Analytic → Analytic → Prop)
    (body : A → X * Analytic → result (X * Analytic)) (l : list A) :
  Forall (λ x, ∀ c s st' t, body x (c, s) = Ok st' → R s t →
                 ∃ t', body x (c, t) = Ok (st'.1, t') ∧ R st'.2 t') l →
  ∀ c s st' t, for_each body l (c, s) = Ok st' → R s t →
    ∃ t', for_each body l (c, t) = Ok (st'.1, t') ∧ R st'.2 t'.
Proof.
  intros Hbody. induction Hbody as [|x l Hx _ IH]; intros c s st' t Hrun HR.
  - injection Hrun as <-. exists t. split; [reflexivity | exact HR].
  - change (body x (c, s) ≫= for_each body l = Ok st') in Hrun.
    apply bind_Ok in Hrun as ([c1 s1] & Hstep & Hrest).
    destruct (Hx _ _ _ _ Hstep HR) as (t1 & Hstep' & HR1).
    destruct (IH _ _ _ _ Hrest HR1) as (t' & Hrest' & HR').
    exists t'. split; [|exact HR'].
    change (body x (c, t) ≫= for_each body l = Ok (st'.1, t')).
    rewrite Hstep'. exact Hrest'.
Qed.

Section Rerun.
Context `{FW : Framework}.
Variable F : Analytic.

Lemma component_input_rerun ascope head name conns derivs out i_eq inp :
  ∀ (c : frame) s st' t,
    component_input setitem2 ascope head name conns derivs out i_eq inp (c, s) = Ok st' →
    rerun F s t →
    ∃ t', component_input setitem2 ascope head name conns derivs out i_eq inp (c, t)
            = Ok (st'.1, t') ∧ rerun F st'.2 t'.
Proof.
  intros fr s st' t Hrun Hre. pose proof Hre as ([= Hp Hv He] & _).
  unfold component_input in *. rewrite Hp, Hv.
  destruct (member _ _).
  - apply bind_Ok in Hrun as (j & Hj & Hrun). rewrite Hj. simpl.
    apply bind_Ok in Hrun as (v & Hv' & Hrun). rewrite Hv'. simpl.
    apply bind_Ok in Hrun as (R & HR & [= <-]).
    destruct (rerun_RHS _ _ _ _ _ _ _ Hre HR) as (R' & HR' & Hre').
    rewrite HR'. simpl. eauto.
  - destruct (conns ≫= _) as [source|]; simpl in *.
    + apply bind_Ok in Hrun as (j & Hj & Hrun). rewrite Hj. simpl.
      apply bind_Ok in Hrun as (v & Hv' & Hrun). rewrite Hv'. simpl.
      apply bind_Ok in Hrun as (L & HL & [= <-]).
      destruct (rerun_LHS _ _ _ _ _ _ _ Hre HL) as (L' & HL' & Hre').
      rewrite HL'. simpl. eauto.
    + apply bind_Ok in Hrun as (first & Hfirst & Hrun). rewrite Hfirst. simpl in *.
      apply bind_Ok in Hrun as (expr & Hexpr & Hrun). rewrite Hexpr. simpl.
      apply bind_Ok in Hrun as (source & Hsource & Hrun). rewrite Hsource. simpl.
      apply bind_Ok in Hrun as (d & Hd & Hrun). rewrite Hd. simpl.
      apply bind_Ok in Hrun as (j & Hj & Hrun). rewrite Hj. simpl.
      apply bind_Ok in Hrun as (v & Hv' & Hrun). rewrite Hv'. simpl.
      apply bind_Ok in Hrun as (L & HL & [= <-]).
      destruct (rerun_LHS _ _ _ _ _ _ _ Hre HL) as (L' & HL' & Hre').
      rewrite HL'. simpl. eauto.
Qed.

Lemma component_row_rerun ascope head name conns derivs inputs out :
  ∀ (c : frame * nat) s st' t,
    component_row setitem2 ascope head name conns derivs inputs out (c, s) = Ok st' →
    rerun F s t →
    ∃ t', component_row setitem2 ascope head name conns derivs inputs out (c, t)
            = Ok (st'.1, t') ∧ rerun F st'.2 t'.
Proof.
  intros [fr i_eq] s st' t Hrun Hre. unfold component_row in *.
  apply bind_Ok in Hrun as (L & HL & Hrun).
  destruct (rerun_LHS _ _ _ _ _ _ _ Hre HL) as (L' & HL' & Hre').
  rewrite HL'. simpl.
  apply bind_Ok in Hrun as (st1 & Hloop & [= <-]).
  destruct (for_each_rerun (rerun F) _ inputs
              ltac:(apply Forall_forall; intros inp _; apply component_input_rerun)
              _ _ _ _ Hloop Hre') as (t1 & Hloop' & Hre1).
  rewrite Hloop'. simpl. eauto.
Qed.

Lemma assembly_input_row_rerun ascope head name inp :
  ∀ (c : frame * nat) s st' t,
    assembly_input_row setitem2 ascope head name inp (c, s) = Ok st' →
    rerun F s t →
    ∃ t', assembly_input_row setitem2 ascope head name inp (c, t)
            = Ok (st'.1, t') ∧ rerun F st'.2 t'.
Proof.
  intros [fr i_eq] s st' t Hrun Hre. pose proof Hre as ([= Hp Hv He] & _).
  unfold assembly_input_row in *.
  apply bind_Ok in Hrun as (L & HL & Hrun).
  destruct (rerun_LHS _ _ _ _ _ _ _ Hre HL) as (L' & HL' & Hre').
  rewrite HL'. simpl in *. rewrite Hp, Hv.
  destruct (member _ _).
  - apply bind_Ok in Hrun as (j & Hj & Hrun). rewrite Hj. simpl.
    apply bind_Ok in Hrun as (derivs & Hderivs & Hrun). rewrite Hderivs. simpl.
    apply bind_Ok in Hrun as (out & Hout & Hrun). rewrite Hout. simpl.
    apply bind_Ok in Hrun as (v & Hv' & Hrun). rewrite Hv'. simpl.
    apply bind_Ok in Hrun as (R & HR & [= <-]).
    destruct (rerun_RHS _ _ _ _ _ _ _ Hre' HR) as (R' & HR' & Hre'').
    simpl in HR'. rewrite HR'. simpl. eauto.
  - apply bind_Ok in Hrun as (first & Hfirst & Hrun). rewrite Hfirst. simpl.
    apply bind_Ok in Hrun as (expr & Hexpr & Hrun). rewrite Hexpr. simpl.
    apply bind_Ok in Hrun as (source & Hsource & Hrun). rewrite Hsource. simpl.
    apply bind_Ok in Hrun as (d & Hd & Hrun). rewrite Hd. simpl.
    apply bind_Ok in Hrun as (j & Hj & Hrun). rewrite Hj. simpl.
    apply bind_Ok in Hrun as (L1 & HL1 & [= <-]).
    destruct (rerun_LHS _ _ _ _ _ _ _ Hre' HL1) as (L1' & HL1' & Hre'').
    simpl in HL1'. rewrite HL1'. simpl. eauto.
Qed.

Lemma assembly_output_row_rerun sub_scope head name out :
  ∀ (c : frame * nat) s st' t,
    assembly_output_row setitem2 sub_scope head name out (c, s) = Ok st' →
    rerun F s t →
    ∃ t', assembly_output_row setitem2 sub_scope head name out (c, t)
            = Ok (st'.1, t') ∧ rerun F st'.2 t'.
Proof.
  intros [fr i_eq] s st' t Hrun Hre. pose proof Hre as ([= Hp Hv He] & _).
  unfold assembly_output_row in *.
  apply bind_Ok in Hrun as (L & HL & Hrun).
  destruct (rerun_LHS _ _ _ _ _ _ _ Hre HL) as (L' & HL' & Hre').
  rewrite HL'. simpl in *. rewrite Hv.
  apply bind_Ok in Hrun as (tgt & Htgt & Hrun). rewrite Htgt. simpl.
  apply bind_Ok in Hrun as (txt & Htxt & Hrun). rewrite Htxt. simpl.
  apply bind_Ok in Hrun as (expr & Hexpr & Hrun). rewrite Hexpr. simpl.
  apply bind_Ok in Hrun as (source & Hsource & Hrun). rewrite Hsource. simpl.
  apply bind_Ok in Hrun as (d & Hd & Hrun). rewrite Hd. simpl.
  apply bind_Ok in Hrun as (j & Hj & Hrun). rewrite Hj. simpl.
  apply bind_Ok in Hrun as (L1 & HL1 & [= <-]).
  destruct (rerun_LHS _ _ _ _ _ _ _ Hre' HL1) as (L1' & HL1' & Hre'').
  simpl in HL1'. rewrite HL1'. simpl. eauto.
Qed.

Lemma assemble_node_rerun (n : node) :
  ∀ ascope scope_name head conns (c : frame * nat) s st' t,
    assemble_node setitem2 ascope scope_name head conns n (c, s) = Ok st' →
    rerun F s t →
    ∃ t', assemble_node setitem2 ascope scope_name head conns n (c, t)
            = Ok (st'.1, t') ∧ rerun F st'.2 t'.
Proof.
  induction n as [name c0|name d wf IH|name a d wf IH] using node_workflow_ind;
    intros ascope scope_name head conns [fr i_eq] s st' t Hrun Hre;
    pose proof Hre as ([= Hp Hv He] & _); simpl in *.
  - destruct (has_derivatives c0).
    + unfold edges_of in *. rewrite He.
      apply bind_Ok in Hrun as (ed & Hed & Hloop). rewrite Hed. simpl.
      eapply (for_each_rerun (rerun F)); [|exact Hloop|exact Hre].
      apply Forall_forall. intros out _. apply component_row_rerun.
    + injection Hrun as <-. eauto.
  - destruct (is_solver d); [|discriminate].
    apply bind_Ok in Hrun as (dict & Hdict & Hrun). rewrite Hdict. simpl.
    apply bind_Ok in Hrun as (st1 & Hloop & [= <-]).
    destruct (for_each_rerun (rerun F) _ wf
                ltac:(eapply Forall_impl; [exact IH|]; intros n Hn; apply Hn)
                _ _ _ _ Hloop Hre) as (t1 & Hloop' & Hre1).
    rewrite Hloop'. simpl. eauto.
  - destruct (is_run_once d); [|discriminate].
    unfold edges_of in *. rewrite He.
    apply bind_Ok in Hrun as (ed & Hed & Hrun). rewrite Hed. simpl.
    apply bind_Ok in Hrun as ([c1 s1] & Hin & Hrun).
    destruct (for_each_rerun (rerun F) _ ed.1
                ltac:(apply Forall_forall; intros inp _;
                      apply assembly_input_row_rerun)
                _ _ _ _ Hin Hre) as (t1 & Hin' & Hre1).
    rewrite Hin'. simpl in *.
    apply bind_Ok in Hrun as ([c2 s2] & Hloop & Hout).
    destruct (for_each_rerun (rerun F) _ wf
                ltac:(eapply Forall_impl; [exact IH|]; intros n Hn; apply Hn)
                _ _ _ _ Hloop Hre1) as (t2 & Hloop' & Hre2).
    rewrite Hloop'. simpl in *.
    eapply (for_each_rerun (rerun F)); [|exact Hout|exact Hre2].
    apply Forall_forall. intros out _. apply assembly_output_row_rerun.
Qed.

End Rerun.

Section Repeat.
Context `{FW : Framework}.

(** A pass from the instance an earlier pass has left changes nothing. *)
Lemma assemble_workflow_again ascope dscope wf eq_num head conns g c self r :
  assemble_workflow setitem2 ascope dscope wf eq_num head conns self = Ok r →
  assemble_workflow setitem2 ascope dscope wf eq_num head conns
    (with_gradient g (with_gradient_cols c r.2))
    = Ok (r.1, with_gradient g (with_gradient_cols c r.2)).
Proof.
  intros Hrun. pose proof (assemble_workflow_keeps _ _ _ _ _ _ _ _ Hrun) as Hkeeps.
  unfold assemble_workflow in *.
  apply bind_Ok in Hrun as (st & Hloop & [= <-]). simpl in *.
  destruct Hkeeps as (Hpart & _ & _ & HL & HR & _).
  assert (rerun st.2 self (with_gradient g (with_gradient_cols c st.2))) as Hre.
  { split; [|split; [exact HL|split; [exact HR|]]].
    - injection Hpart as _ Hp _ He _ _ _ _ Hv. unfold reads. simpl. congruence.
    - intros i j. simpl. auto. }
  destruct (for_each_rerun (rerun st.2) _ wf
              ltac:(apply Forall_forall; intros n _; apply assemble_node_rerun)
              _ _ _ _ Hloop Hre) as (t' & Hloop' & Hre').
  rewrite Hloop'. simpl. do 2 f_equal.
  assert (keeps (with_gradient g (with_gradient_cols c st.2)) t')
    as (Hpart' & _ & _ & _ & _ & Hcols').
  { apply (for_each_rel (λ a b : frame * nat * Analytic, keeps a.2 b.2)) in Hloop';
      [exact Hloop' | intros; apply keeps_refl | intros ? ? ?; apply keeps_trans |].
    apply Forall_forall. intros n _ s s'. apply assemble_node_keeps. }
  destruct Hre' as (_ & HL' & HR' & Hcells).
  assert (LHS t' = LHS st.2) as HLeq.
  { apply matrix_ext; [exact HL'|]. intros i j. destruct (Hcells i j) as [[E|E] _]; exact E. }
  assert (RHS t' = RHS st.2) as HReq.
  { apply matrix_ext; [exact HR'|]. intros i j. destruct (Hcells i j) as [_ [E|E]]; exact E. }
  unfold setup_part in Hpart'. unfold cols_part in Hcols'. simpl in Hpart', Hcols'.
  destruct t', st as [fr [? ? ? ? ? ? ? ? ? ? ? ? ? ? ? ?]]. simpl in *.
  injection Hpart' as -> -> -> -> -> -> -> -> ->.
  injection Hcols' as -> -> -> -> ->. subst. reflexivity.
Qed.

(** What a call leaves is ready for the solve of the next call. *)
Lemma _solve_again (s s' : Analytic) :
  _solve s = Ok s' → _solve s' = Ok s'.
Proof.
  intros Hsolve. apply _solve_Ok in Hsolve as (X & P & g & HX & HP & Hg & ->).
  unfold _solve. simpl. rewrite HX. simpl. rewrite HP. simpl. rewrite Hg. simpl.
  reflexivity.
Qed.

(** X13.  A call of [calc_gradient] is repeatable: a second call on the
    instance the first call has left returns that same instance, with the
    same matrices of the system and the same gradient.  The second call
    redoes the setup, since the test that guards it fails for edge
    dictionaries keyed by path names; it finds the result of the first call
    provided the first call ran the setup as well and the parent's [setup]
    leaves the mode and the names it left then and leaves the edge
    dictionaries as it finds them.  Were the setup found cached, the second
    call would return the same instance after one more assembly pass. *)
Theorem calc_gradient_repeatable (m : model) (self s' : Analytic) :
  calc_gradient m self = Ok s' →
  (parent_cached s' = false →
     parent_cached self = false ∧
     ∃ c c', ChainRule_setup self = Ok c ∧ ChainRule_setup s' = Ok c' ∧
             names_part c' = names_part c ∧ edge_dicts c' = edge_dicts s') →
  calc_gradient m s' = Ok s'.
Proof.
  intros Hrun Hredo. destruct (parent_cached s') eqn:Hcached.
  - clear Hredo. unfold calc_gradient in *. rewrite Hcached.
    apply bind_Ok in Hrun as (ready & _ & Hrun).
    apply bind_Ok in Hrun as (assembled & Hasm & Hsolve).
    pose proof (_solve_again _ _ Hsolve) as Hagain.
    apply _solve_Ok in Hsolve as (X & P & g & HX & HP & Hg & ->).
    cbn [mbind result_bind].
    change (mode (with_gradient g.1 (with_gradient_cols g.2 assembled)))
      with (mode assembled).
    destruct (mode ready) eqn:Hmode.
    + apply bind_Ok in Hasm as (r & Hr & [= <-]).
      pose proof (assemble_workflow_keeps _ _ _ _ _ _ _ _ Hr) as (Hpart & _).
      assert (mode r.2 = direct) as -> by (injection Hpart as -> _; exact Hmode).
      unfold _assemble_direct in *.
      rewrite (assemble_workflow_again _ _ _ _ _ _ g.1 g.2 _ _ Hr). simpl.
      exact Hagain.
    + injection Hasm as <-. rewrite Hmode. simpl. exact Hagain.
  - destruct (Hredo eq_refl) as (Hfirst & c & c' & Hc & Hc' & Hn & He).
    destruct (calc_gradient_Ok_setup m self s' Hfirst Hrun)
      as (ready & assembled & Hsetup & (Hpart & _) & Hsolve).
    assert (edge_dicts s' = edge_dicts ready) as Hdicts.
    { apply _solve_Ok in Hsolve as (X & P & g & _ & _ & _ & ->). simpl.
      unfold setup_part in Hpart. injection Hpart as _ _ _ E _ _ _ _ _. exact E. }
    pose proof (setup_alike m self s' c c' Hc Hc' (eq_sym Hn)) as Hagree.
    rewrite Hsetup in Hagree.
    assert (setup m s' = Ok ready) as Hsetup'.
    { destruct (setup m s') as [ready'|]; simpl in Hagree; [|contradiction].
      f_equal. destruct Hagree as (Heq & M & Ha & Hb).
      assert (edge_dicts ready' = edge_dicts ready) as Hsame.
      { rewrite Hb, He, Hdicts, Ha.
        rewrite (assoc_L (∪)), (idemp_L (∪) M). reflexivity. }
      destruct ready, ready'. simpl in *.
      injection Heq as -> -> -> -> -> -> -> -> -> -> -> -> -> -> ->.
      congruence. }
    unfold calc_gradient in *. rewrite Hcached. rewrite Hfirst in Hrun.
    rewrite Hsetup'. rewrite Hsetup in Hrun. exact Hrun.
Qed.

End Repeat.

Lemma calc_gradient_repeatable_witness :
  @calc_gradient (framework Chain.edges (λ _ _, 1%Q)) (Chain.chain 2 3)
    Solved.chain = Ok Solved.chain.
Proof.
  apply (@calc_gradient_repeatable (framework Chain.edges (λ _ _, 1%Q))
           (Chain.chain 2 3) (Chain.start direct) Solved.chain).
  - vm_compute. reflexivity.
  - intros _. split; [reflexivity|].
    exists (Chain.start direct), Solved.chain.
    split; [reflexivity|]. split; [reflexivity|]. split; reflexivity.
Defined.

(** ** Rows and columns of a flat model *)

Lemma dict_get_NoDup {V} (d : list (string * V)) (k : string) (v : V) :
  NoDup d.*1 → (k, v) ∈ d → dict_get d k = Ok v.
Proof.
  intros Hnodup Hin. unfold dict_get.
  destruct (list_find_elem_of (λ kv : string * V, kv.1 = k) d (k, v) Hin eq_refl)
    as [[i kv] Hfind].
  rewrite Hfind. simpl. f_equal.
  apply list_find_Some in Hfind as (Hi & Hk & _).
  apply list_elem_of_lookup_1 in Hin as [i0 Hi0].
  assert (i = i0) as ->.
  { eapply NoDup_lookup; [exact Hnodup| |].
    - rewrite list_lookup_fmap, Hi. simpl. rewrite Hk. reflexivity.
    - rewrite list_lookup_fmap, Hi0. reflexivity. }
  rewrite Hi in Hi0. injection Hi0 as ->. reflexivity.
Qed.

Lemma index_NoDup (l : list string) (i : nat) (x : string) :
  NoDup l → l !! i = Some x → index l x = Ok i.
Proof.
  intros Hnodup Hi. apply index_Ok. split; [exact Hi|].
  intros j Hj Hl. assert (j = i) by (eapply NoDup_lookup; eassumption). lia.
Qed.

Lemma flat_names_app (head : string) (md : mode_t) (ed1 ed2 : edge_dict) :
  flat_names head md (ed1 ++ ed2)%list
  = (flat_names head md ed1 ++ flat_names head md ed2)%list.
Proof. unfold flat_names. apply flat_map_app. Qed.

(** In a workflow of components with derivatives that follows the edge
    dictionary, the equations before a node are as many as the names the
    counter has listed before it. *)
Lemma flat_rows (E : gmap string edge_dict) (dscope head : string) (ed : edge_dict)
    (wf : list node) (part : edge_dict) :
  E !! dscope = Some ed →
  NoDup ed.*1 →
  part ⊆ ed →
  Forall2 (λ nd (entry : string * (list string * list string)),
             ∃ c, nd = Component entry.1 c ∧ has_derivatives c = true) wf part →
  sum_list (rows_of E dscope <$> wf) = length (flat_names head direct part).
Proof.
  intros HE Hnodup Hsub Hwf.
  induction Hwf as [|nd [name [ins outs]] wf part (c & -> & Hc) _ IH]; [reflexivity|].
  rewrite fmap_cons. cbn [sum_list sum_list_with rows_of fst snd]. rewrite Hc.
  unfold flat_names. cbn [flat_map]. rewrite length_app, length_fmap.
  unfold node_edges. rewrite HE. cbn [or_raise mbind result_bind fst snd].
  rewrite (dict_get_NoDup ed name (ins, outs) Hnodup)
    by (apply Hsub, list_elem_of_here).
  simpl. f_equal. apply IH. intros x Hx. apply Hsub, list_elem_of_further, Hx.
Qed.

Section Flat.
Context `{FW : Framework}.

(** X14.  Rows and columns of a flat model agree.  Take a pass from equation
    0 over a workflow of components with derivatives that follows the edge
    dictionary of its scope, on an instance whose variable list is the one
    the counter makes of that dictionary in direct mode, without repeated
    names.  Then the equation of each output is the row with the position of
    the output's name in the variable list, and for every input of the
    component whose full name is a parameter the right-hand side holds, in
    that row and the column of the parameter, the local derivative of the
    output with respect to the input. *)
Theorem flat_parameter_entries (ascope : assembly_data) (dscope : string)
    (wf : list node) (head : string) (conns : option (gmap string string))
    (self : Analytic) (r : nat * Analytic) (ed : edge_dict)
    (name : string) (c : component_data) (ins outs : list string)
    (out inp : string) :
  edge_dicts self !! dscope = Some ed →
  NoDup ed.*1 →
  Forall2 (λ nd (entry : string * (list string * list string)),
             ∃ c, nd = Component entry.1 c ∧ has_derivatives c = true) wf ed →
  var_list self = flat_names (head_prefix head) direct ed →
  NoDup (var_list self) →
  _assemble_direct ascope dscope wf 0 head conns self = Ok r →
  Component name c ∈ wf →
  (name, (ins, outs)) ∈ ed →
  out ∈ outs →
  inp ∈ ins →
  dotted name inp ∈ param_names self →
  ∃ i j v,
    index (var_list self) (head_prefix head +:+ dotted name out) = Ok i ∧
    index (param_names self) (dotted name inp) = Ok j ∧
    local_deriv (first_derivatives c) out inp = Ok v ∧
    getitem2 (RHS r.2) i j = Ok v.
Proof.
  intros HE Hkeys Hwf Hvars Hnodup Hrun Hnode Hentry Hout Hinp Hp.
  apply list_elem_of_lookup_1 in Hnode as [k Hk].
  apply list_elem_of_lookup_1 in Hout as [l Hl].
  destruct (Forall2_lookup_l _ _ _ _ _ Hwf Hk) as (entry & Hek & c' & Heq & Hc).
  injection Heq as Hname <-.
  assert (entry = (name, (ins, outs))) as ->.
  { apply list_elem_of_lookup_1 in Hentry as [k' Hk'].
    assert (k = k') as <-; [|congruence].
    eapply NoDup_lookup; [exact Hkeys| |].
    - rewrite list_lookup_fmap, Hek. simpl. rewrite <- Hname. reflexivity.
    - rewrite list_lookup_fmap, Hk'. reflexivity. }
  assert (edges_of self dscope name = Ok (ins, outs)) as Hedges.
  { unfold edges_of. rewrite HE. simpl. apply dict_get_NoDup; assumption. }
  destruct (workflow_parameters _ _ _ _ _ _ _ _ k l name c ins outs out inp
              Hrun Hk Hc Hedges Hl Hinp Hp) as (j & v & Hj & Hv & Hcell).
  rewrite (flat_rows _ dscope (head_prefix head) ed (take k wf) (take k ed) HE Hkeys)
    in Hcell; [|apply subseteq_take|apply Forall2_take, Hwf]. simpl in Hcell.
  exists (length (flat_names (head_prefix head) direct (take k ed)) + l), j, v.
  split; [|auto].
  apply index_NoDup; [exact Hnodup|]. rewrite Hvars.
  assert (flat_names (head_prefix head) direct ed
          = (flat_names (head_prefix head) direct (take k ed)
             ++ ((λ x, head_prefix head +:+ dotted name x) <$> outs)
             ++ flat_names (head_prefix head) direct (drop (S k) ed))%list) as ->.
  { rewrite <- (take_drop_middle _ _ _ Hek) at 1. rewrite flat_names_app.
    reflexivity. }
  rewrite lookup_app_r by lia.
  replace (length (flat_names (head_prefix head) direct (take k ed)) + l
           - length (flat_names (head_prefix head) direct (take k ed))) with l by lia.
  rewrite lookup_app_l by (rewrite length_fmap; eapply lookup_lt_Some, Hl).
  rewrite list_lookup_fmap, Hl. reflexivity.
Qed.

End Flat.

Lemma flat_parameter_entries_witness :
  ∃ i j v,
    index (var_list Chain.after_setup) "compa.a" = Ok i ∧
    index (param_names Chain.after_setup) "compa.param" = Ok j ∧
    local_deriv (Chain.first_derivatives_of (Chain.compa 2)) "a" "param" = Ok v ∧
    getitem2 (RHS Chain.assembled) i j = Ok v.
Proof.
  apply (@flat_parameter_entries (framework Chain.edges (λ _ _, 1%Q))
           Chain.scope "driver" (workflow (Chain.chain 2 3)) "" None
           Chain.after_setup (2, Chain.assembled) (Chain.edges "driver" "driver")
           "compa" _ ["param"] ["a"] "a" "param").
  - vm_compute. reflexivity.
  - apply (bool_decide_unpack _). vm_compute. exact I.
  - repeat constructor; eexists; split; reflexivity.
  - reflexivity.
  - apply (bool_decide_unpack _). vm_compute. exact I.
  - vm_compute. reflexivity.
  - apply list_elem_of_here.
  - apply list_elem_of_here.
  - apply list_elem_of_here.
  - apply list_elem_of_here.
  - apply list_elem_of_here.
Defined.

(** ** Bounds *)





Section Fits.
Context `{FW : Framework}.






End Fits.

(** ** The rows of the functions exist *)











Section FunctionRows.
Context `{FW : Framework}.


End FunctionRows.


